(** * gammapy.utils.serialization.io: model and dataset (de)serialisation

    A shallow embedding of [gammapy/utils/serialization/io.py].  Python objects
    live in an explicit store: parameter objects, [Parameters] collections and
    model objects are addressed by their index in a heap, so that object
    identity (Python's [is]) is equality of addresses and in-place mutation is
    visible through every alias.  Python exceptions are an error monad layered
    over that store; the store survives a raise. *)

From stdpp Require Import base gmap list strings pretty.
From Stdlib Require Import Ascii QArith Qcanon.

Close Scope Qc_scope.
Close Scope Q_scope.

(** ** Strings

    A Python [str] is represented by its UTF-8 bytes.  The at-sign is a
    single byte that occurs in the encoding of no other character, so
    ["@" in name] and [name.split("@")] act on the bytes as they act on the
    characters; so do equality and concatenation.  [str.upper] and
    [str.strip] follow the Unicode tables of the interpreter: they are taken
    from the world the code runs in (see [World] below). *)

(** [name.split("@")[0]] : the text before the first at-sign. *)
Fixpoint strip_at (s : string) : string :=
  match s with
  | EmptyString => EmptyString
  | String c r => if Ascii.eqb c "@"%char then EmptyString else String c (strip_at r)
  end.

(** ["@" in name] *)
Fixpoint has_at (s : string) : bool :=
  match s with
  | EmptyString => false
  | String c r => if Ascii.eqb c "@"%char then true else has_at r
  end.

(** What [str.upper] does to text that is ASCII throughout: the sample
    world below uses it, on such text only. *)
Definition upper_ascii (c : ascii) : ascii :=
  let n := nat_of_ascii c in
  if (97 <=? n)%nat && (n <=? 122)%nat then ascii_of_nat (n - 32) else c.

Fixpoint ascii_upper (s : string) : string :=
  match s with
  | EmptyString => EmptyString
  | String c r => String (upper_ascii c) (ascii_upper r)
  end.

(** What [str.strip] does to text that is ASCII throughout: the white space
    of ASCII is removed at both ends. *)
Definition is_space (c : ascii) : bool :=
  let n := nat_of_ascii c in
  (n =? 32)%nat || ((9 <=? n)%nat && (n <=? 13)%nat) || ((28 <=? n)%nat && (n <=? 31)%nat).

Fixpoint lstrip (s : string) : string :=
  match s with
  | EmptyString => EmptyString
  | String c r => if is_space c then lstrip r else s
  end.

Fixpoint rstrip (s : string) : string :=
  match s with
  | EmptyString => EmptyString
  | String c r =>
      match rstrip r with
      | EmptyString => if is_space c then EmptyString else String c EmptyString
      | r' => String c r'
      end
  end.

Definition ascii_strip (s : string) : string := rstrip (lstrip s).

(** [l.index(x)] : position of the first element equal to [x]. *)
Fixpoint list_index {A} `{EqDecision A} (x : A) (l : list A) : option nat :=
  match l with
  | [] => None
  | y :: r => if decide (x = y) then Some 0 else S <$> list_index x r
  end.

(** Keys of a dict built by a comprehension: a repeated key keeps its first
    position. *)
Fixpoint dict_keys (l : list string) : list string :=
  match l with
  | [] => []
  | k :: r => k :: filter (λ k', k' ≠ k) (dict_keys r)
  end.

(** ** Data model *)

(** Numeric payloads (parameter values, table entries) are Python floats.
    The code only copies and compares them: a finite float is represented by
    the rational it denotes (so that the two zeros are one), beside which
    there are the two infinities and NaN. *)
Inductive value :=
  | Finite (q : Qc)
  | Infinity (negative : bool)
  | NaN.

Global Instance value_eq_dec : EqDecision value.
Proof. solve_decision. Defined.

(** The float of an integer. *)
Definition num (v : Z) : value := Finite (Q2Qc (inject_Z v)).

(** [x == y] on floats: NaN differs from every float, itself included. *)
Definition float_eq (x y : value) : bool :=
  match x, y with
  | NaN, _ | _, NaN => false
  | _, _ => bool_decide (x = y)
  end.

(** Modelled from the spec: the [Parameter] class lives in
    [gammapy.utils.fitting], outside the files at hand.  A parameter is a
    named numeric quantity with a unit, a value and a frozen flag; it has no
    [__eq__], so [in] on a list of parameters compares identities. *)
Record ParameterObj := {
  par_name : string;
  par_value : value;
  par_unit : string;
  par_frozen : bool
}.

(** A quantity array: [{"data": [...], "unit": str}]. *)
Record Table := {
  tab_data : list value;
  tab_unit : string
}.

(** Modelled from the spec: model classes live in [gammapy.cube.models],
    [gammapy.image.models] and [gammapy.spectrum.models].  A model object has
    a class, an optional [name] and [filename] attribute, a [Parameters]
    collection, for the composite [SkyModel] a spatial and a spectral
    sub-model, for a table spectral model its energy/value grid, and for a
    background evaluated from a diffuse cube that cube. *)
Record ModelObj := {
  m_class : string;
  m_name : option string;
  m_filename : option string;
  m_parameters : nat;
  m_spatial_model : option nat;
  m_spectral_model : option nat;
  m_energy : option Table;
  m_values : option Table;
  m_cube : option nat
}.

(** One entry of a ["parameters"] list. *)
Record ParDict := {
  pd_name : string;
  pd_value : value;
  pd_unit : string;
  pd_frozen : option bool
}.

(** A sub-record: [{"type", "parameters", "filename"?, "energy"?, "values"?}]. *)
Record SubDict := {
  sd_type : string;
  sd_parameters : list ParDict;
  sd_filename : option string;
  sd_energy : option Table;
  sd_values : option Table
}.

(** A record of the components list:
    [{"name", "filename"?, "model"? , "spatial"?, "spectral"?}]. *)
Record Component := {
  c_name : string;
  c_filename : option string;
  c_model : option SubDict;
  c_spatial : option SubDict;
  c_spectral : option SubDict
}.

(** [{"components": [...]}] *)
Record Components := { components : list Component }.

Global Instance ParameterObj_eq_dec : EqDecision ParameterObj.
Proof. solve_decision. Defined.
Global Instance Table_eq_dec : EqDecision Table.
Proof. solve_decision. Defined.
Global Instance ModelObj_eq_dec : EqDecision ModelObj.
Proof. solve_decision. Defined.
Global Instance ParDict_eq_dec : EqDecision ParDict.
Proof. solve_decision. Defined.
Global Instance SubDict_eq_dec : EqDecision SubDict.
Proof. solve_decision. Defined.
Global Instance Component_eq_dec : EqDecision Component.
Proof. solve_decision. Defined.

(** *** Python's [==] on records

    Two dicts are equal when they have the same keys and the values under
    each key are equal; two lists when they have the same length and equal
    elements, place by place.  Strings and booleans are compared as they
    are, floats by [float_eq]. *)

Fixpoint list_eq_by {A} (eq : A → A → bool) (l k : list A) : bool :=
  match l, k with
  | [], [] => true
  | x :: l', y :: k' => eq x y && list_eq_by eq l' k'
  | _, _ => false
  end.

(** An optional key: present in both with equal values, or absent in both. *)
Definition option_eq_by {A} (eq : A → A → bool) (x y : option A) : bool :=
  match x, y with
  | Some a, Some b => eq a b
  | None, None => true
  | _, _ => false
  end.

Definition pardict_eq (x y : ParDict) : bool :=
  bool_decide (pd_name x = pd_name y)
  && float_eq (pd_value x) (pd_value y)
  && bool_decide (pd_unit x = pd_unit y)
  && bool_decide (pd_frozen x = pd_frozen y).

Definition table_eq (x y : Table) : bool :=
  list_eq_by float_eq (tab_data x) (tab_data y)
  && bool_decide (tab_unit x = tab_unit y).

Definition subdict_eq (x y : SubDict) : bool :=
  bool_decide (sd_type x = sd_type y)
  && list_eq_by pardict_eq (sd_parameters x) (sd_parameters y)
  && bool_decide (sd_filename x = sd_filename y)
  && option_eq_by table_eq (sd_energy x) (sd_energy y)
  && option_eq_by table_eq (sd_values x) (sd_values y).

Definition component_eq (x y : Component) : bool :=
  bool_decide (c_name x = c_name y)
  && bool_decide (c_filename x = c_filename y)
  && option_eq_by subdict_eq (c_model x) (c_model y)
  && option_eq_by subdict_eq (c_spatial x) (c_spatial y)
  && option_eq_by subdict_eq (c_spectral x) (c_spectral y).

(** ** Datasets *)

(** [dataset.background_model] is a single [BackgroundModel] or a
    [BackgroundModels] container. *)
Inductive BkgField :=
  | BkgSingle (m : nat)
  | BkgMulti (ms : list nat).

(** A live [MapDataset]: its name, the instrument response it was read with,
    its background model(s) and its sky models. *)
Record Dataset := {
  d_name : string;
  d_irfs : string;
  d_background_model : BkgField;
  d_model : list nat
}.

(** What a dataset file holds beside the counts: the instrument response
    and the background stored with it, bare or wrapped in a container; each
    background has a name and parameters. *)
Inductive DiskBackground :=
  | DiskSingle (name : string) (parameters : list ParDict)
  | DiskMulti (backgrounds : list (string * list ParDict)).

Record DiskDataset := {
  dd_irfs : string;
  dd_background : DiskBackground
}.

(** One entry of the datasets index:
    [{"name", "filename", "backgrounds", "models"}]. *)
Record DatasetEntry := {
  de_name : string;
  de_filename : string;
  de_backgrounds : list string;
  de_models : list string
}.

Record DatasetsIndex := { datasets_index : list DatasetEntry }.

(** ** Python state *)

Inductive Event :=
  | ReadCube (filename : string)
  | ReadDataset (filename : string)
  | ReadSpatial (cls filename : string).

(** The store, the trace of file reads, and the attributes of the
    [dict_to_datasets] instance being built. *)
Record State := {
  pars : list ParameterObj;
  cols : list (list nat);
  mods : list ModelObj;
  cubes : list string;
  trace : list Event;
  params_register : gmap string nat;
  cube_register : gmap string nat;
  self_models : list nat;
  self_backgrounds : list nat;
  self_datasets : list Dataset
}.

Definition empty_state : State :=
  {| pars := []; cols := []; mods := []; cubes := []; trace := [];
     params_register := ∅; cube_register := ∅;
     self_models := []; self_backgrounds := []; self_datasets := [] |}.

Definition with_pars (f : list ParameterObj → list ParameterObj) (σ : State) : State :=
  {| pars := f (pars σ); cols := cols σ; mods := mods σ; cubes := cubes σ;
     trace := trace σ; params_register := params_register σ;
     cube_register := cube_register σ; self_models := self_models σ;
     self_backgrounds := self_backgrounds σ; self_datasets := self_datasets σ |}.

Definition with_cols (f : list (list nat) → list (list nat)) (σ : State) : State :=
  {| pars := pars σ; cols := f (cols σ); mods := mods σ; cubes := cubes σ;
     trace := trace σ; params_register := params_register σ;
     cube_register := cube_register σ; self_models := self_models σ;
     self_backgrounds := self_backgrounds σ; self_datasets := self_datasets σ |}.

Definition with_mods (f : list ModelObj → list ModelObj) (σ : State) : State :=
  {| pars := pars σ; cols := cols σ; mods := f (mods σ); cubes := cubes σ;
     trace := trace σ; params_register := params_register σ;
     cube_register := cube_register σ; self_models := self_models σ;
     self_backgrounds := self_backgrounds σ; self_datasets := self_datasets σ |}.

Definition with_cubes (f : list string → list string) (σ : State) : State :=
  {| pars := pars σ; cols := cols σ; mods := mods σ; cubes := f (cubes σ);
     trace := trace σ; params_register := params_register σ;
     cube_register := cube_register σ; self_models := self_models σ;
     self_backgrounds := self_backgrounds σ; self_datasets := self_datasets σ |}.

Definition with_trace (f : list Event → list Event) (σ : State) : State :=
  {| pars := pars σ; cols := cols σ; mods := mods σ; cubes := cubes σ;
     trace := f (trace σ); params_register := params_register σ;
     cube_register := cube_register σ; self_models := self_models σ;
     self_backgrounds := self_backgrounds σ; self_datasets := self_datasets σ |}.

Definition with_params_register (f : gmap string nat → gmap string nat) (σ : State) : State :=
  {| pars := pars σ; cols := cols σ; mods := mods σ; cubes := cubes σ;
     trace := trace σ; params_register := f (params_register σ);
     cube_register := cube_register σ; self_models := self_models σ;
     self_backgrounds := self_backgrounds σ; self_datasets := self_datasets σ |}.

Definition with_cube_register (f : gmap string nat → gmap string nat) (σ : State) : State :=
  {| pars := pars σ; cols := cols σ; mods := mods σ; cubes := cubes σ;
     trace := trace σ; params_register := params_register σ;
     cube_register := f (cube_register σ); self_models := self_models σ;
     self_backgrounds := self_backgrounds σ; self_datasets := self_datasets σ |}.

Definition with_self_models (f : list nat → list nat) (σ : State) : State :=
  {| pars := pars σ; cols := cols σ; mods := mods σ; cubes := cubes σ;
     trace := trace σ; params_register := params_register σ;
     cube_register := cube_register σ; self_models := f (self_models σ);
     self_backgrounds := self_backgrounds σ; self_datasets := self_datasets σ |}.

Definition with_self_backgrounds (f : list nat → list nat) (σ : State) : State :=
  {| pars := pars σ; cols := cols σ; mods := mods σ; cubes := cubes σ;
     trace := trace σ; params_register := params_register σ;
     cube_register := cube_register σ; self_models := self_models σ;
     self_backgrounds := f (self_backgrounds σ); self_datasets := self_datasets σ |}.

Definition with_self_datasets (f : list Dataset → list Dataset) (σ : State) : State :=
  {| pars := pars σ; cols := cols σ; mods := mods σ; cubes := cubes σ;
     trace := trace σ; params_register := params_register σ;
     cube_register := cube_register σ; self_models := self_models σ;
     self_backgrounds := self_backgrounds σ; self_datasets := f (self_datasets σ) |}.

(** ** Exceptions and the state monad *)

Inductive exn :=
  | NotImplementedError
  | KeyError (key : string)
  | AttributeError (attr : string)
  | TypeError
  | ValueError
  | OSError
  | UnboundLocalError (var : string)
  | IndexError
  | DanglingReference.

Global Instance exn_eq_dec : EqDecision exn.
Proof. solve_decision. Defined.

Definition M (A : Type) : Type := State → (exn + A) * State.

Definition ret {A} (x : A) : M A := λ σ, (inr x, σ).

Definition bind {A B} (c : M A) (k : A → M B) : M B :=
  λ σ, match c σ with
       | (inr x, σ') => k x σ'
       | (inl e, σ') => (inl e, σ')
       end.

Definition raise {A} (e : exn) : M A := λ σ, (inl e, σ).

Definition gets {A} (f : State → A) : M A := λ σ, (inr (f σ), σ).

Definition modify (f : State → State) : M unit := λ σ, (inr tt, f σ).

Global Instance M_ret : MRet M := @ret.
Global Instance M_bind : MBind M := λ A B k c, bind c k.

Definition lift_option {A} (e : exn) (o : option A) : M A :=
  match o with Some x => ret x | None => raise e end.

Fixpoint traverse {A B} (f : A → M B) (l : list A) : M (list B) :=
  match l with
  | [] => ret []
  | x :: r => y ← f x; ys ← traverse f r; ret (y :: ys)
  end.

Fixpoint forM_ {A} (l : list A) (f : A → M unit) : M unit :=
  match l with
  | [] => ret tt
  | x :: r => f x ;; forM_ r f
  end.

Fixpoint foldM {A B} (f : B → A → M B) (acc : B) (l : list A) : M B :=
  match l with
  | [] => ret acc
  | x :: r => acc' ← f acc x; foldM f acc' r
  end.

(** *** Store access *)

Definition get_par (a : nat) : M ParameterObj :=
  σ ← gets id; lift_option DanglingReference (pars σ !! a).

Definition get_col (c : nat) : M (list nat) :=
  σ ← gets id; lift_option DanglingReference (cols σ !! c).

Definition get_mod (m : nat) : M ModelObj :=
  σ ← gets id; lift_option DanglingReference (mods σ !! m).

Definition rename (n : string) (p : ParameterObj) : ParameterObj :=
  {| par_name := n; par_value := par_value p; par_unit := par_unit p;
     par_frozen := par_frozen p |}.

(** [param.name = n] *)
Definition set_par_name (a : nat) (n : string) : M unit :=
  p ← get_par a; modify (with_pars (λ h, <[a := rename n p]> h)).

(** [collection.parameters[i] = a] *)
Definition set_slot (c i a : nat) : M unit :=
  l ← get_col c;
  if decide (i < length l)%nat
  then modify (with_cols (λ h, <[c := <[i := a]> l]> h))
  else raise IndexError.

Definition alloc_par (p : ParameterObj) : M nat :=
  σ ← gets id; modify (with_pars (λ h, h ++ [p])) ;; ret (length (pars σ)).

Definition alloc_col (l : list nat) : M nat :=
  σ ← gets id; modify (with_cols (λ h, h ++ [l])) ;; ret (length (cols σ)).

Definition alloc_mod (o : ModelObj) : M nat :=
  σ ← gets id; modify (with_mods (λ h, h ++ [o])) ;; ret (length (mods σ)).

Definition set_mod (m : nat) (o : ModelObj) : M unit :=
  _ ← get_mod m; modify (with_mods (λ h, <[m := o]> h)).

(** [model.parameters], iterated: the parameter objects of the collection. *)
Definition model_parameters (model : nat) : M (list nat) :=
  o ← get_mod model; get_col (m_parameters o).

(** [collection.names] *)
Definition col_names (c : nat) : M (list string) :=
  l ← get_col c; traverse (λ a, p ← get_par a; ret (par_name p)) l.

(** ** Serialisation *)

(** The loop of [_rename_shared_parameters] over one model's parameters:
    [seen] is [params_list], [shared] is [params_shared]. *)
Fixpoint scan_shared (ps seen shared : list nat) : list nat * list nat :=
  match ps with
  | [] => (seen, shared)
  | param :: r =>
      if decide (param ∈ seen)
      then if decide (param ∈ shared)
           then scan_shared r seen shared
           else scan_shared r seen (shared ++ [param])
      else scan_shared r (seen ++ [param]) shared
  end.

Fixpoint scan_models (models : list nat) (seen shared : list nat) : M (list nat * list nat) :=
  match models with
  | [] => ret (seen, shared)
  | model :: r =>
      ps ← model_parameters model;
      let '(seen', shared') := scan_shared ps seen shared in
      scan_models r seen' shared'
  end.

(** [for k, param in enumerate(params_shared): param.name = ...] *)
Fixpoint rename_from (k : nat) (shared : list nat) : M unit :=
  match shared with
  | [] => ret tt
  | param :: r =>
      p ← get_par param;
      set_par_name param (par_name p +:+ "@shared_" +:+ pretty k) ;;
      rename_from (S k) r
  end.

Definition _rename_shared_parameters (models : list nat) : M unit :=
  '(_, params_shared) ← scan_models models [] [];
  rename_from 0 params_shared.

Definition _restore_shared_parameters (models : list nat) : M unit :=
  forM_ models (λ model,
    ps ← model_parameters model;
    forM_ ps (λ param,
      p ← get_par param;
      set_par_name param (strip_at (par_name p)))).

(** Modelled from the spec: [Parameter.to_dict] is outside the files at hand.
    A parameter is encoded as name, value, unit string and frozen flag; the
    selection is one of ["all"] and ["simple"] (the docstring of
    [models_to_dict]), anything else is rejected.  The value is computed
    anew by every call, so no two encodings hold one and the same float
    object. *)
Definition Parameter_to_dict (selection : string) (p : ParameterObj) : M ParDict :=
  if decide (selection = "all" ∨ selection = "simple")
  then ret {| pd_name := par_name p; pd_value := par_value p;
              pd_unit := par_unit p; pd_frozen := Some (par_frozen p) |}
  else raise ValueError.

(** Modelled from the spec: the [to_dict] method of a spatial, spectral or
    background model is outside the files at hand.  It yields the type tag
    and the parameter list, and for a table spectral model its energy/value
    grid. *)
Definition Model_to_dict (model : nat) (selection : string) : M SubDict :=
  o ← get_mod model;
  ps ← get_col (m_parameters o);
  pds ← traverse (λ a, p ← get_par a; Parameter_to_dict selection p) ps;
  ret {| sd_type := m_class o; sd_parameters := pds; sd_filename := None;
         sd_energy := m_energy o; sd_values := m_values o |}.

Definition with_filename (f : option string) (d : SubDict) : SubDict :=
  match f with
  | Some _ =>
      {| sd_type := sd_type d; sd_parameters := sd_parameters d; sd_filename := f;
         sd_energy := sd_energy d; sd_values := sd_values d |}
  | None => d
  end.

Definition _model_to_dict (model : nat) (selection : string) : M Component :=
  o ← get_mod model;
  let name := default (m_class o) (m_name o) in
  if decide (m_class o = "SkyModel") then
    sp ← lift_option (AttributeError "spatial_model") (m_spatial_model o);
    spatial ← Model_to_dict sp selection;
    spo ← get_mod sp;
    se ← lift_option (AttributeError "spectral_model") (m_spectral_model o);
    spectral ← Model_to_dict se selection;
    ret {| c_name := name; c_filename := m_filename o; c_model := None;
           c_spatial := Some (with_filename (m_filename spo) spatial);
           c_spectral := Some spectral |}
  else
    d ← Model_to_dict model selection;
    ret {| c_name := name; c_filename := m_filename o; c_model := Some d;
           c_spatial := None; c_spectral := None |}.

(** The loop body of [models_to_dict]: append unless an equal record is
    already there.  [model_data not in models_data] compares the new dict
    with each record of the list by [==]; the new dict and the numbers in it
    were made for this model just now, so no record of the list is, or
    holds, the same object, and the comparison is the one of the contents. *)
Definition add_record (models_data : list Component) (model_data : Component) : list Component :=
  if existsb (λ record, component_eq record model_data) models_data
  then models_data
  else models_data ++ [model_data].

Definition models_to_dict (models : list nat) (selection : string) : M Components :=
  _rename_shared_parameters models ;;
  models_data ← foldM (λ models_data model,
      model_data ← _model_to_dict model selection;
      ret (add_record models_data model_data)) [] models;
  _restore_shared_parameters models ;;
  ret {| components := models_data |}.

(** ** External collaborators

    The string methods of the interpreter, the unit parser of astropy, the
    model classes of [gammapy.image.models] and [gammapy.spectrum.models]
    and the files on disk are not part of the code at hand.  Their answers
    are taken as given. *)
Record World := {
  (** [s.upper()] *)
  str_upper : string → string;
  (** [s.strip()] *)
  str_strip : string → string;
  (** [u.Unit(s)] parses *)
  unit_ok : string → bool;
  (** [getattr(spatial, ty)] exists *)
  spatial_class : string → bool;
  (** the class can be called with exactly these keywords *)
  spatial_accepts : string → list string → bool;
  (** the class has a [read] method *)
  spatial_has_read : string → bool;
  (** [cls.read(filename)] finds a template *)
  spatial_readable : string → string → bool;
  spectral_class : string → bool;
  spectral_accepts : string → list string → bool;
  (** [SkyDiffuseCube.read(filename)] finds a cube *)
  cube_readable : string → bool;
  (** [MapDataset.read(filename)] *)
  dataset_file : string → option DiskDataset
}.

(** ** Deserialisation *)

Definition guard (b : bool) (e : exn) : M unit :=
  if b then ret tt else raise e.

Definition emit (ev : Event) : M unit :=
  modify (with_trace (λ t, t ++ [ev])).

Definition new_parameter (par : ParDict) : ParameterObj :=
  {| par_name := pd_name par; par_value := pd_value par; par_unit := pd_unit par;
     par_frozen := default false (pd_frozen par) |}.

(** Modelled from the spec: [Parameters.from_dict] is outside the files at
    hand.  It builds one fresh parameter object per entry of the record's
    parameter list, named as the entry is, with the entry's value, unit and
    frozen flag (free when the key is absent), and a fresh collection holding
    them in order. *)
Definition Parameters_from_dict (W : World) (item : SubDict) : M nat :=
  ps ← traverse (λ par,
        guard (unit_ok W (pd_unit par)) ValueError ;;
        alloc_par (new_parameter par)) (sd_parameters item);
  alloc_col ps.

(** The keyword dict
    [{x["name"].split("@")[0]: x["value"] * u.Unit(x["unit"]) for x in ...}]:
    every unit is parsed, the keys are the stripped names. *)
Definition keyword_params (W : World) (pds : list ParDict) : M (list string) :=
  forM_ pds (λ x, guard (unit_ok W (pd_unit x)) ValueError) ;;
  ret (dict_keys (map (λ x, strip_at (pd_name x)) pds)).

Definition plain_model (cls : string) (col : nat) : ModelObj :=
  {| m_class := cls; m_name := None; m_filename := None; m_parameters := col;
     m_spatial_model := None; m_spectral_model := None;
     m_energy := None; m_values := None; m_cube := None |}.

Definition set_filename (f : option string) (o : ModelObj) : ModelObj :=
  {| m_class := m_class o; m_name := m_name o; m_filename := f;
     m_parameters := m_parameters o; m_spatial_model := m_spatial_model o;
     m_spectral_model := m_spectral_model o; m_energy := m_energy o;
     m_values := m_values o; m_cube := m_cube o |}.

Definition set_name (n : option string) (o : ModelObj) : ModelObj :=
  {| m_class := m_class o; m_name := n; m_filename := m_filename o;
     m_parameters := m_parameters o; m_spatial_model := m_spatial_model o;
     m_spectral_model := m_spectral_model o; m_energy := m_energy o;
     m_values := m_values o; m_cube := m_cube o |}.

Definition set_parameters (c : nat) (o : ModelObj) : ModelObj :=
  {| m_class := m_class o; m_name := m_name o; m_filename := m_filename o;
     m_parameters := c; m_spatial_model := m_spatial_model o;
     m_spectral_model := m_spectral_model o; m_energy := m_energy o;
     m_values := m_values o; m_cube := m_cube o |}.

Definition set_grid (e v : option Table) (o : ModelObj) : ModelObj :=
  {| m_class := m_class o; m_name := m_name o; m_filename := m_filename o;
     m_parameters := m_parameters o; m_spatial_model := m_spatial_model o;
     m_spectral_model := m_spectral_model o; m_energy := e;
     m_values := v; m_cube := m_cube o |}.

(** The spatial half of [_dict_to_skymodel]. *)
Definition _dict_to_spatial (W : World) (item : SubDict) : M nat :=
  match sd_filename item with
  | Some filename =>
      guard (spatial_class W (sd_type item)) (AttributeError (sd_type item)) ;;
      guard (spatial_has_read W (sd_type item)) (AttributeError "read") ;;
      guard (spatial_readable W (sd_type item) filename) OSError ;;
      emit (ReadSpatial (sd_type item) filename) ;;
      col ← Parameters_from_dict W item;
      alloc_mod (set_filename (Some filename) (plain_model (sd_type item) col))
  | None =>
      params ← keyword_params W (sd_parameters item);
      guard (spatial_class W (sd_type item)) (AttributeError (sd_type item)) ;;
      guard (spatial_accepts W (sd_type item) params) TypeError ;;
      col ← Parameters_from_dict W item;
      alloc_mod (plain_model (sd_type item) col)
  end.

(** The spectral half of [_dict_to_skymodel]. *)
Definition _dict_to_spectral (W : World) (item : SubDict) : M nat :=
  match sd_energy item with
  | Some energy =>
      guard (unit_ok W (tab_unit energy)) ValueError ;;
      values ← lift_option (KeyError "values") (sd_values item);
      guard (unit_ok W (tab_unit values)) ValueError ;;
      guard (spectral_class W (sd_type item)) (AttributeError (sd_type item)) ;;
      guard (spectral_accepts W (sd_type item) ["energy"; "values"]) TypeError ;;
      col ← Parameters_from_dict W item;
      alloc_mod (set_grid (Some energy) (Some values) (plain_model (sd_type item) col))
  | None =>
      params ← keyword_params W (sd_parameters item);
      guard (spectral_class W (sd_type item)) (AttributeError (sd_type item)) ;;
      guard (spectral_accepts W (sd_type item) params) TypeError ;;
      col ← Parameters_from_dict W item;
      alloc_mod (plain_model (sd_type item) col)
  end.

(** Modelled from the spec: the constructor of [SkyModel] is outside the
    files at hand.  The composite owns a collection of its own that lists the
    spatial parameters followed by the spectral ones, the same objects the
    two nested collections hold. *)
Definition SkyModel (name : string) (spatial_model spectral_model : nat) : M nat :=
  sp ← model_parameters spatial_model;
  se ← model_parameters spectral_model;
  col ← alloc_col (sp ++ se);
  alloc_mod {| m_class := "SkyModel"; m_name := Some name; m_filename := None;
               m_parameters := col; m_spatial_model := Some spatial_model;
               m_spectral_model := Some spectral_model;
               m_energy := None; m_values := None; m_cube := None |}.

Definition _dict_to_skymodel (W : World) (model : Component) : M nat :=
  item ← lift_option (KeyError "spatial") (c_spatial model);
  spatial_model ← _dict_to_spatial W item;
  item ← lift_option (KeyError "spectral") (c_spectral model);
  spectral_model ← _dict_to_spectral W item;
  SkyModel (c_name model) spatial_model spectral_model.

(** [collection.parameters[collection.names.index(name)] = new_param] *)
Definition replace_by_name (c : nat) (name : string) (new_param : nat) : M unit :=
  names ← col_names c;
  ind ← lift_option ValueError (list_index name names);
  set_slot c ind new_param.

(** The body of the inner loop of [_link_shared_parameters], at slot [i] of
    the model's collection. *)
Definition link_slot (o : ModelObj) (i : nat) (shared_register : gmap string nat)
  : M (gmap string nat) :=
  ps ← get_col (m_parameters o);
  param ← lift_option IndexError (ps !! i);
  p ← get_par param;
  let name := par_name p in
  if has_at name then
    match shared_register !! name with
    | Some new_param =>
        replace_by_name (m_parameters o) name new_param ;;
        (if decide (m_class o = "SkyModel") then
           spatial ← lift_option (AttributeError "spatial_model") (m_spatial_model o);
           so ← get_mod spatial;
           spectral ← lift_option (AttributeError "spectral_model") (m_spectral_model o);
           eo ← get_mod spectral;
           let spatial_params := m_parameters so in
           let spectral_params := m_parameters eo in
           snames ← col_names spatial_params;
           if decide (name ∈ snames) then
             replace_by_name spatial_params name new_param
           else
             enames ← col_names spectral_params;
             if decide (name ∈ enames) then
               replace_by_name spectral_params name new_param
             else ret tt
         else ret tt) ;;
        ret shared_register
    | None =>
        set_par_name param (strip_at name) ;;
        ret (<[name := param]> shared_register)
    end
  else ret shared_register.

(** [for param in model.parameters]: the collection is walked by position;
    assignments to its slots leave its length alone, so the walk visits the
    [n] slots it had at the start, from [i] on. *)
Fixpoint link_slots (o : ModelObj) (n i : nat) (shared_register : gmap string nat)
  : M (gmap string nat) :=
  match n with
  | O => ret shared_register
  | S n' =>
      shared_register' ← link_slot o i shared_register;
      link_slots o n' (S i) shared_register'
  end.

Definition link_model (shared_register : gmap string nat) (model : nat)
  : M (gmap string nat) :=
  o ← get_mod model;
  ps ← get_col (m_parameters o);
  link_slots o (length ps) 0 shared_register.

Definition _link_shared_parameters (models : list nat) : M unit :=
  foldM link_model ∅ models ;; ret tt.

Fixpoint dict_to_models_loop (W : World) (cs : list Component) (models : list nat)
  : M (list nat) :=
  match cs with
  | [] => ret models
  | model :: r =>
      match c_model model with
      | Some sub =>
          if decide (sd_type sub = "BackgroundModel")
          then dict_to_models_loop W r models
          else raise NotImplementedError
      | None =>
          m ← _dict_to_skymodel W model;
          dict_to_models_loop W r (models ++ [m])
      end
  end.

Definition dict_to_models (W : World) (data : Components) (link : bool) : M (list nat) :=
  models ← dict_to_models_loop W (components data) [];
  (if link then _link_shared_parameters models else ret tt) ;;
  ret models.

(** ** Dataset reconstruction: the class [dict_to_datasets] *)

Definition background_object (name : string) (col : nat) : ModelObj :=
  set_name (Some name) (plain_model "BackgroundModel" col).

(** Modelled from the spec: [MapDataset.read] is outside the files at hand.
    Reading a dataset file yields a live dataset under the requested name with
    the stored instrument response and fresh background model objects, one per
    stored background. *)
Definition MapDataset_read (W : World) (filename name : string) : M Dataset :=
  dd ← lift_option OSError (dataset_file W filename);
  emit (ReadDataset filename) ;;
  let fresh (b : string * list ParDict) : M nat :=
    ps ← traverse (λ par, alloc_par (new_parameter par)) b.2;
    col ← alloc_col ps;
    alloc_mod (background_object b.1 col) in
  bkg ← match dd_background dd with
        | DiskSingle n pds => m ← fresh (n, pds); ret (BkgSingle m)
        | DiskMulti bs => ms ← traverse fresh bs; ret (BkgMulti ms)
        end;
  ret {| d_name := name; d_irfs := dd_irfs dd; d_background_model := bkg;
         d_model := [] |}.

(** Modelled from the spec: [SkyDiffuseCube.read] is outside the files at
    hand.  It reads the file and yields a fresh cube object. *)
Definition SkyDiffuseCube_read (W : World) (filename : string) : M nat :=
  guard (cube_readable W filename) OSError ;;
  emit (ReadCube filename) ;;
  σ ← gets id;
  modify (with_cubes (λ h, h ++ [filename])) ;;
  ret (length (cubes σ)).

(** Modelled from the spec: [BackgroundModel.from_skymodel] is outside the
    files at hand.  A background model is instantiated per dataset from the
    cube and the dataset's exposure, PSF and energy dispersion: a fresh model
    object with a fresh parameter collection.  (That collection is replaced
    by [link_background_parameters] before anything reads it.) *)
Definition BackgroundModel_from_skymodel (cube : nat) (irfs : string) : M nat :=
  col ← alloc_col [];
  alloc_mod {| m_class := "BackgroundModel"; m_name := None; m_filename := None;
               m_parameters := col; m_spatial_model := None;
               m_spectral_model := None; m_energy := None; m_values := None;
               m_cube := Some cube |}.

(** [dataset.background_model.models] *)
Definition container_models (d : Dataset) : M (list nat) :=
  match d_background_model d with
  | BkgMulti ms => ret ms
  | BkgSingle _ => raise (AttributeError "models")
  end.

Definition model_name (model : nat) : M string :=
  o ← get_mod model; lift_option (AttributeError "name") (m_name o).

Definition add_background (W : World) (dataset : Dataset) (component : Component)
    (bkg_prev : list string) : M nat :=
  background_model ←
    match c_filename component with
    | Some filename =>
        σ ← gets id;
        cube ← match cube_register σ !! c_name component with
               | Some cube => ret cube
               | None =>
                   cube ← SkyDiffuseCube_read W filename;
                   modify (with_cube_register (λ r, <[c_name component := cube]> r)) ;;
                   ret cube
               end;
        BackgroundModel_from_skymodel cube (d_irfs dataset)
    | None =>
        (* the local [BGind] is assigned by neither branch when both tests
           fail; it is read after [dataset.background_model.models] *)
        BGind ←
          (if decide (str_upper W (str_strip W (c_name component)) ∈ bkg_prev) then
             ind ← lift_option ValueError
                     (list_index (str_upper W (str_strip W (c_name component))) bkg_prev);
             ret (Some ind)
           else if decide (c_name component ∈ bkg_prev) then
             ind ← lift_option ValueError (list_index (c_name component) bkg_prev);
             ret (Some ind)
           else ret None);
        ms ← container_models dataset;
        BGind ← lift_option (UnboundLocalError "BGind") BGind;
        lift_option IndexError (ms !! BGind)
    end;
  o ← get_mod background_model;
  set_mod background_model (set_name (Some (c_name component)) o) ;;
  ret background_model.

Definition link_background_parameters (W : World) (component : Component)
    (background_model : nat) : M unit :=
  σ ← gets id;
  params ← match params_register σ !! c_name component with
           | Some params => ret params
           | None =>
               sub ← lift_option (KeyError "model") (c_model component);
               params ← Parameters_from_dict W sub;
               modify (with_params_register (λ r, <[c_name component := params]> r)) ;;
               ret params
           end;
  o ← get_mod background_model;
  set_mod background_model (set_parameters params o).

(** The test of the loop in [update_dataset]. *)
Definition is_background_of (bkg_names : list string) (component : Component) : bool :=
  match c_model component with
  | Some sub =>
      bool_decide (sd_type sub = "BackgroundModel")
      && bool_decide (c_name component ∈ bkg_names)
  | None => false
  end.

(** The body of the loop of [update_dataset]. *)
Definition update_background (W : World) (dataset : Dataset) (bkg_names bkg_prev : list string)
    (backgrounds : list nat) (component : Component) : M (list nat) :=
  if is_background_of bkg_names component then
    background_model ← add_background W dataset component bkg_prev;
    link_background_parameters W component background_model ;;
    σ ← gets id;
    (if decide (background_model ∈ self_backgrounds σ) then ret tt
     else modify (with_self_backgrounds (λ l, l ++ [background_model]))) ;;
    ret (backgrounds ++ [background_model])
  else ret backgrounds.

(** [[model for model in self.models if model.name in model_names]] *)
Definition select_models (model_names : list string) (models : list nat) : M (list nat) :=
  foldM (λ models model,
      name ← model_name model;
      ret (if decide (name ∈ model_names) then models ++ [model] else models))
    [] models.

Definition update_dataset (W : World) (dataset : Dataset) (components0 : Components)
    (bkg_names model_names : list string) : M Dataset :=
  let dataset :=
    match d_background_model dataset with
    | BkgMulti _ => dataset
    | BkgSingle m =>
        {| d_name := d_name dataset; d_irfs := d_irfs dataset;
           d_background_model := BkgMulti [m]; d_model := d_model dataset |}
    end in
  ms ← container_models dataset;
  bkg_prev ← traverse model_name ms;
  backgrounds ← foldM (update_background W dataset bkg_names bkg_prev) []
                     (components components0);
  σ ← gets id;
  models ← select_models model_names (self_models σ);
  ret {| d_name := d_name dataset; d_irfs := d_irfs dataset;
         d_background_model := BkgMulti backgrounds; d_model := models |}.

(** [dict_to_datasets.__init__]; the instance is the [self_*] and register
    fields of the state it leaves. *)
Definition dict_to_datasets (W : World) (data_list : DatasetsIndex)
    (components0 : Components) : M unit :=
  modify (with_params_register (λ _, ∅)) ;;
  modify (with_cube_register (λ _, ∅)) ;;
  models ← dict_to_models W components0 false;
  modify (with_self_models (λ _, models)) ;;
  modify (with_self_backgrounds (λ _, [])) ;;
  modify (with_self_datasets (λ _, [])) ;;
  forM_ (datasets_index data_list) (λ data,
    dataset ← MapDataset_read W (de_filename data) (de_name data);
    dataset ← update_dataset W dataset components0 (de_backgrounds data) (de_models data);
    modify (with_self_datasets (λ l, l ++ [dataset]))) ;;
  σ ← gets id;
  _link_shared_parameters (self_models σ ++ self_backgrounds σ).

(** ** Notions used in the statements *)

(** A computation that only reads the state. *)
Definition reader {A} (c : M A) : Prop := ∀ σ, (c σ).2 = σ.

(** The state in which the records are produced: the one
    [_rename_shared_parameters] leaves. *)
Definition renamed (models : list nat) (σ : State) : State :=
  (_rename_shared_parameters models σ).2.

(** The record [models_to_dict] produces for [model]. *)
Definition record_of (models : list nat) (selection : string) (σ : State)
    (model : nat) : exn + Component :=
  (_model_to_dict model selection (renamed models σ)).1.

(** Number of records equal to [r]. *)
Definition occurrences (r : Component) (l : list Component) : nat :=
  length (filter (λ x, x = r) l).

(** The record holds no NaN: no parameter value and no grid entry of its
    sub-records is one. *)
Definition is_nan (v : value) : bool :=
  match v with NaN => true | _ => false end.

Definition clean (vs : list value) : bool := forallb (λ v, negb (is_nan v)) vs.

Definition table_clean (t : option Table) : bool :=
  match t with Some t => clean (tab_data t) | None => true end.

Definition subdict_clean (d : option SubDict) : bool :=
  match d with
  | Some d => clean (map pd_value (sd_parameters d))
              && table_clean (sd_energy d) && table_clean (sd_values d)
  | None => true
  end.

Definition nan_free (c : Component) : bool :=
  subdict_clean (c_model c) && subdict_clean (c_spatial c) && subdict_clean (c_spectral c).

(** No entry of the list compares equal to a later one. *)
Definition distinct_records (l : list Component) : Prop :=
  ∀ i j ri rj, i < j → l !! i = Some ri → l !! j = Some rj → component_eq ri rj = false.

(** Current names of all parameter objects. *)
Definition names (σ : State) : list string := map par_name (pars σ).

(** ** A concrete session

    Two point sources with power-law spectra that share one spectral index
    object, and three background models: two of them are distinct objects
    with equal content, the third has an at-sign in a parameter name. *)

Definition par (n : string) (v : Z) (u : string) : ParameterObj :=
  {| par_name := n; par_value := num v; par_unit := u;
     par_frozen := false |}.

Definition sky_object (name : string) (col spatial spectral : nat) : ModelObj :=
  {| m_class := "SkyModel"; m_name := Some name; m_filename := None;
     m_parameters := col; m_spatial_model := Some spatial;
     m_spectral_model := Some spectral; m_energy := None; m_values := None;
     m_cube := None |}.

Definition demo_store : State :=
  with_mods (λ _,
    [ plain_model "PointSpatialModel" 0; plain_model "PowerLawSpectralModel" 1;
      sky_object "src1" 2 0 1;
      plain_model "PointSpatialModel" 3; plain_model "PowerLawSpectralModel" 4;
      sky_object "src2" 5 3 4;
      background_object "bkg" 6; background_object "bkg" 7;
      background_object "bkg-obs1" 8 ])
  (with_cols (λ _,
    [ [0; 1]; [2; 3; 4]; [0; 1; 2; 3; 4];
      [5; 6]; [2; 7; 8]; [5; 6; 2; 7; 8];
      [9]; [10]; [11] ])
  (with_pars (λ _,
    [ par "lon_0" 0 "deg"; par "lat_0" 0 "deg";
      par "index" 2 ""; par "amplitude" 1 "cm-2 s-1 TeV-1"; par "reference" 1 "TeV";
      par "lon_0" 1 "deg"; par "lat_0" 1 "deg";
      par "amplitude" 3 "cm-2 s-1 TeV-1"; par "reference" 1 "TeV";
      par "norm" 1 ""; par "norm" 1 ""; par "norm@obs1" 1 "" ])
  empty_state)).

Definition demo_world : World :=
  {| str_upper := ascii_upper;
     str_strip := ascii_strip;
     unit_ok := λ u, bool_decide (u ∈ [""; "deg"; "TeV"; "cm-2 s-1 TeV-1"]);
     spatial_class := λ c, bool_decide (c = "PointSpatialModel");
     spatial_accepts := λ c ks,
       bool_decide (c = "PointSpatialModel" ∧ ks = ["lon_0"; "lat_0"]);
     spatial_has_read := λ _, false;
     spatial_readable := λ _ _, false;
     spectral_class := λ c, bool_decide (c = "PowerLawSpectralModel");
     spectral_accepts := λ c ks,
       bool_decide (c = "PowerLawSpectralModel"
                    ∧ ks ⊆ ["index"; "amplitude"; "reference"]);
     cube_readable := λ f, bool_decide (f = "diffuse.fits");
     dataset_file := λ f,
       if bool_decide (f ∈ ["data_a.fits"; "data_b.fits"])
       then Some {| dd_irfs := f; dd_background := DiskSingle "background" [] |}
       else None |}.

(** Two background models, distinct objects with the same name and one
    parameter each, a norm that is NaN. *)
Definition nan_store : State :=
  with_mods (λ _, [ background_object "bkg" 0; background_object "bkg" 1 ])
  (with_cols (λ _, [ [0]; [1] ])
  (with_pars (λ _,
    [ {| par_name := "norm"; par_value := NaN; par_unit := ""; par_frozen := false |};
      {| par_name := "norm"; par_value := NaN; par_unit := ""; par_frozen := false |} ])
  empty_state)).

(** The value a run returns, [d] when it raises. *)
Definition returned {A} (d : A) (c : M A) (σ : State) : A :=
  match (c σ).1 with inr x => x | inl _ => d end.

Definition no_components : Components := {| components := [] |}.

(** The record both objects 6 and 7 of the session serialise to. *)
Definition bkg_record : Component :=
  {| c_name := "bkg"; c_filename := None;
     c_model := Some {| sd_type := "BackgroundModel";
                        sd_parameters :=
                          [ {| pd_name := "norm"; pd_value := num 1;
                               pd_unit := ""; pd_frozen := Some false |} ];
                        sd_filename := None; sd_energy := None; sd_values := None |};
     c_spatial := None; c_spectral := None |}.

(** The parameter objects [model.parameters] walks over. *)
Definition params_of (σ : State) (model : nat) : list nat :=
  match mods σ !! model with
  | Some o => default [] (cols σ !! m_parameters o)
  | None => []
  end.

(** All of them, over a list of models, in the order of the double loop. *)
Definition all_params (σ : State) (models : list nat) : list nat :=
  concat (map (params_of σ) models).

(** No parameter of the listed models has an at-sign in its name. *)
Definition at_free (σ : State) (models : list nat) : bool :=
  forallb (λ a, match pars σ !! a with
                | Some p => negb (has_at (par_name p))
                | None => true
                end) (all_params σ models).

(** A parameter object with its name cut at the first at-sign. *)
Definition stripped (p : ParameterObj) : ParameterObj :=
  rename (strip_at (par_name p)) p.

(** [σ'] differs from [σ] in the parameter heap at most. *)
Definition pars_frame (σ σ' : State) : Prop := σ' = with_pars (λ _, pars σ') σ.

(** [a] stands at two positions of [l]. *)
Definition twice (a : nat) (l : list nat) : Prop :=
  ∃ i j, i < j ∧ l !! i = Some a ∧ l !! j = Some a.

(** The name [_rename_shared_parameters] gives the [i]-th shared parameter. *)
Definition shared_name (i : nat) (n : string) : string :=
  n +:+ "@shared_" +:+ pretty i.

Definition pdict (n : string) (v : Z) (u : string) : ParDict :=
  {| pd_name := n; pd_value := num v; pd_unit := u; pd_frozen := None |}.

Definition sub_record (ty : string) (pds : list ParDict) : SubDict :=
  {| sd_type := ty; sd_parameters := pds; sd_filename := None;
     sd_energy := None; sd_values := None |}.

(** The components dict of the end-to-end scenario: one point source named
    ["src"] with a power law of index 2.0. *)
Definition src_components : Components :=
  {| components :=
       [ {| c_name := "src"; c_filename := None; c_model := None;
            c_spatial := Some (sub_record "PointSpatialModel"
                                 [pdict "lon_0" 0 "deg"; pdict "lat_0" 0 "deg"]);
            c_spectral := Some (sub_record "PowerLawSpectralModel"
                                  [pdict "index" 2 "";
                                   pdict "amplitude" 1 "cm-2 s-1 TeV-1";
                                   pdict "reference" 1 "TeV"]) |} ] |}.

(** A record that has neither a ["model"] nor a ["spatial"] key, followed by
    a ["model"] record of an unsupported type. *)
Definition broken_components : Components :=
  {| components :=
       [ {| c_name := "src"; c_filename := None; c_model := None;
            c_spatial := None; c_spectral := None |};
         {| c_name := "diffuse"; c_filename := None;
            c_model := Some (sub_record "SkyDiffuseCube" []);
            c_spatial := None; c_spectral := None |} ] |}.

(** A supported source followed by a ["model"] record of an unsupported
    type. *)
Definition unsupported_components : Components :=
  {| components :=
       components src_components ++
       [ {| c_name := "diffuse"; c_filename := None;
            c_model := Some (sub_record "SkyDiffuseCube" []);
            c_spatial := None; c_spectral := None |} ] |}.

(** [model.spectral_model.parameters[name]] *)
Definition spectral_parameter (σ : State) (model : nat) (name : string)
  : option ParameterObj :=
  o ← mods σ !! model;
  se ← m_spectral_model o;
  eo ← mods σ !! se;
  ps ← cols σ !! m_parameters eo;
  objs ← mapM (λ a, pars σ !! a) ps;
  i ← list_index name (map par_name objs);
  objs !! i.

(** A lookup error of Python: [IndexError] or [KeyError]. *)
Definition is_lookup_error (e : exn) : bool :=
  match e with
  | IndexError | KeyError _ => true
  | _ => false
  end.

(** A background record without a file whose name is on no dataset. *)
Definition stray_background : Component :=
  {| c_name := "bkg-other"; c_filename := None;
     c_model := Some (sub_record "BackgroundModel" [pdict "norm" 1 ""]);
     c_spatial := None; c_spectral := None |}.

(** A freshly read dataset holding the background object 6 of the session. *)
Definition demo_dataset : Dataset :=
  {| d_name := "obs1"; d_irfs := "data_a.fits";
     d_background_model := BkgMulti [6]; d_model := [] |}.

(** The names of the background models a dataset holds, read in [σ]. *)
Definition background_names (σ : State) (d : Dataset) : list (option string) :=
  match d_background_model d with
  | BkgMulti ms => map (λ b, mods σ !! b ≫= m_name) ms
  | BkgSingle b => [mods σ !! b ≫= m_name]
  end.

(** The models of a dataset's background container. *)
Definition background_models (d : Dataset) : list nat :=
  match d_background_model d with
  | BkgMulti ms => ms
  | BkgSingle b => [b]
  end.

(** A file-backed background record, the only component of its dict. *)
Definition diffuse_background : Component :=
  {| c_name := "diffuse"; c_filename := Some "diffuse.fits";
     c_model := Some (sub_record "BackgroundModel"
                        [pdict "norm" 1 ""; pdict "tilt" 0 ""]);
     c_spatial := None; c_spectral := None |}.

Definition diffuse_components : Components :=
  {| components := [diffuse_background] |}.

(** [name] is the name of no ["BackgroundModel"] record of the dict. *)
Definition no_background_named (name : string) (data : Components) : bool :=
  forallb (λ c, negb (is_background_of [name] c)) (components data).

(** ** Notions for the linking pass *)

(** The name a parameter object has in [σ]. *)
Definition name_in (σ : State) (a : nat) : string :=
  default "" (par_name <$> pars σ !! a).

(** The first object of [l] that bears the name [nm]. *)
Fixpoint first_named (N : nat → string) (l : list nat) (nm : string) : option nat :=
  match l with
  | [] => None
  | a :: r => if decide (N a = nm) then Some a else first_named N r nm
  end.

(** The object a slot that held [a] holds once the objects of [done] have
    been visited: the first visited bearer of its name when that name has an
    at-sign, itself otherwise. *)
Definition final_in (N : nat → string) (done : list nat) (a : nat) : nat :=
  if decide (a ∈ done)
  then if has_at (N a) then default a (first_named N done (N a)) else a
  else a.

(** How a composite model is laid out in the store: its own collection, the
    two nested ones, and the parameter objects of the spatial and spectral
    part. *)
Record Layout := {
  l_top : nat;
  l_spatial : nat;
  l_spectral : nat;
  l_ps : list nat;
  l_pe : list nat
}.

Definition layout_cols (L : Layout) : list nat := [l_top L; l_spatial L; l_spectral L].

Definition layout_params (L : Layout) : list nat := l_ps L ++ l_pe L.

Definition layouts_cols (Ls : list Layout) : list nat := concat (map layout_cols Ls).

Definition layouts_params (Ls : list Layout) : list nat := concat (map layout_params Ls).

(** [o] is a composite model object laid out as [L]. *)
Definition composite (σ : State) (o : ModelObj) (L : Layout) : Prop :=
  ∃ sp so se eo,
    m_class o = "SkyModel"
    ∧ m_parameters o = l_top L
    ∧ m_spatial_model o = Some sp ∧ mods σ !! sp = Some so
    ∧ m_parameters so = l_spatial L
    ∧ m_spectral_model o = Some se ∧ mods σ !! se = Some eo
    ∧ m_parameters eo = l_spectral L
    ∧ cols σ !! l_top L = Some (l_ps L ++ l_pe L)
    ∧ cols σ !! l_spatial L = Some (l_ps L)
    ∧ cols σ !! l_spectral L = Some (l_pe L).

(** [model] is a composite model laid out as [L]. *)
Definition sky_layout (σ : State) (model : nat) (L : Layout) : Prop :=
  ∃ o, mods σ !! model = Some o ∧ composite σ o L.

(** Freshly read models: every collection and every parameter object
    belongs to one model, at one slot. *)
Definition separate (σ : State) (models : list nat) (Ls : list Layout) : Prop :=
  Forall2 (sky_layout σ) models Ls
  ∧ NoDup (layouts_cols Ls)
  ∧ NoDup (layouts_params Ls)
  ∧ ∀ a, a ∈ layouts_params Ls → is_Some (pars σ !! a).

(** The state of the linking pass after the objects of [done] were visited,
    with register [reg], started in [σ0]. *)
Definition link_inv (σ0 : State) (Ls : list Layout) (done : list nat)
    (reg : gmap string nat) (σ : State) : Prop :=
  σ = with_cols (λ _, cols σ) (with_pars (λ _, pars σ) σ0)
  ∧ (∀ nm, reg !! nm = if has_at nm then first_named (name_in σ0) done nm else None)
  ∧ (∀ a, pars σ !! a =
          if decide (a ∈ done ∧ has_at (name_in σ0 a) = true
                     ∧ first_named (name_in σ0) done (name_in σ0 a) = Some a)
          then stripped <$> pars σ0 !! a else pars σ0 !! a)
  ∧ (∀ c, cols σ !! c =
          if decide (c ∈ layouts_cols Ls)
          then map (final_in (name_in σ0) done) <$> cols σ0 !! c
          else cols σ0 !! c).

(** ** Notions for reading a components dict *)

(** The store only grew from [σ] to [σ']. *)
Definition extends (σ σ' : State) : Prop :=
  pars σ `prefix_of` pars σ'
  ∧ cols σ `prefix_of` cols σ'
  ∧ mods σ `prefix_of` mods σ'.

(** The layout of the composite model [_dict_to_skymodel] builds in [σ]
    from the sub-records [sp] and [se]. *)
Definition fresh_layout (σ : State) (sp se : SubDict) : Layout :=
  {| l_top := length (cols σ) + 2;
     l_spatial := length (cols σ);
     l_spectral := length (cols σ) + 1;
     l_ps := seq (length (pars σ)) (length (sd_parameters sp));
     l_pe := seq (length (pars σ) + length (sd_parameters sp))
                 (length (sd_parameters se)) |}.

(** [model], laid out as [L], is the composite model read from the record
    [c], its parameter objects still as [Parameters.from_dict] made them. *)
Definition built (σ : State) (c : Component) (model : nat) (L : Layout) : Prop :=
  ∃ sp se o so eo s e,
    c_model c = None ∧ c_spatial c = Some sp ∧ c_spectral c = Some se
    ∧ mods σ !! model = Some o ∧ m_class o = "SkyModel"
    ∧ m_name o = Some (c_name c) ∧ m_parameters o = l_top L
    ∧ m_spatial_model o = Some s ∧ mods σ !! s = Some so
    ∧ m_class so = sd_type sp ∧ m_parameters so = l_spatial L
    ∧ m_spectral_model o = Some e ∧ mods σ !! e = Some eo
    ∧ m_class eo = sd_type se ∧ m_parameters eo = l_spectral L
    ∧ cols σ !! l_top L = Some (l_ps L ++ l_pe L)
    ∧ cols σ !! l_spatial L = Some (l_ps L)
    ∧ cols σ !! l_spectral L = Some (l_pe L)
    ∧ Forall2 (λ a pd, pars σ !! a = Some (new_parameter pd)) (l_ps L) (sd_parameters sp)
    ∧ Forall2 (λ a pd, pars σ !! a = Some (new_parameter pd)) (l_pe L) (sd_parameters se).

(** A record of a composite model: it has no ["model"] key. *)
Definition is_sky (c : Component) : Prop := c_model c = None.

Global Instance is_sky_dec c : Decision (is_sky c).
Proof. unfold is_sky. apply _. Defined.

(** The position, among the models read, of the model read from the record
    at position [k]. *)
Definition sky_index (cs : list Component) (k : nat) : nat :=
  length (filter is_sky (take k cs)).

(** The model read back from the record [rec] of [out]. *)
Definition reconstructed (out : Components) (models' : list nat) (rec : Component)
  : option nat :=
  k ← list_index rec (components out);
  models' !! sky_index (components out) k.

(** The entry [Parameter.to_dict] produces for [p]. *)
Definition encode (p : ParameterObj) : ParDict :=
  {| pd_name := par_name p; pd_value := par_value p; pd_unit := par_unit p;
     pd_frozen := Some (par_frozen p) |}.

(** [pd] is the entry of the object at [a]. *)
Definition encodes (σ : State) (a : nat) (pd : ParDict) : Prop :=
  ∃ p, pars σ !! a = Some p ∧ pd = encode p.

(** What can be observed of a composite model: its class, its name, the
    types of its two parts, and name, value, unit and frozen flag of the
    parameters of its own collection and of the two nested ones. *)
Record View := {
  v_class : string;
  v_name : string;
  v_spatial : string;
  v_spectral : string;
  v_parameters : list ParameterObj;
  v_spatial_parameters : list ParameterObj;
  v_spectral_parameters : list ParameterObj
}.

Definition view (σ : State) (model : nat) : option View :=
  o ← mods σ !! model;
  sp ← m_spatial_model o;
  so ← mods σ !! sp;
  se ← m_spectral_model o;
  eo ← mods σ !! se;
  top ← cols σ !! m_parameters o;
  tops ← mapM (λ a, pars σ !! a) top;
  ps ← cols σ !! m_parameters so;
  pss ← mapM (λ a, pars σ !! a) ps;
  pe ← cols σ !! m_parameters eo;
  pes ← mapM (λ a, pars σ !! a) pe;
  Some {| v_class := m_class o; v_name := default (m_class o) (m_name o);
          v_spatial := m_class so; v_spectral := m_class eo;
          v_parameters := tops; v_spatial_parameters := pss;
          v_spectral_parameters := pes |}.

(** The layout of [model] when it is a composite model whose own
    collection lists the spatial parameters followed by the spectral ones. *)
Definition layout_of (σ : State) (model : nat) : option Layout :=
  o ← mods σ !! model;
  sp ← m_spatial_model o;
  so ← mods σ !! sp;
  se ← m_spectral_model o;
  eo ← mods σ !! se;
  top ← cols σ !! m_parameters o;
  ps ← cols σ !! m_parameters so;
  pe ← cols σ !! m_parameters eo;
  if decide (m_class o = "SkyModel" ∧ top = ps ++ pe)
  then Some {| l_top := m_parameters o; l_spatial := m_parameters so;
               l_spectral := m_parameters eo; l_ps := ps; l_pe := pe |}
  else None.

(** No parameter object is referenced twice by the listed models. *)
Definition unshared (σ : State) (models : list nat) : bool :=
  bool_decide (NoDup (all_params σ models)).

(** Two sources whose spectral indices are distinct objects that bear the
    same name, one with an at-sign in it. *)
Definition at_store : State :=
  with_mods (λ _,
    [ plain_model "PointSpatialModel" 0; plain_model "PowerLawSpectralModel" 1;
      sky_object "src1" 2 0 1;
      plain_model "PointSpatialModel" 3; plain_model "PowerLawSpectralModel" 4;
      sky_object "src2" 5 3 4 ])
  (with_cols (λ _,
    [ [0; 1]; [2]; [0; 1; 2];
      [3; 4]; [5]; [3; 4; 5] ])
  (with_pars (λ _,
    [ par "lon_0" 0 "deg"; par "lat_0" 0 "deg"; par "index@1TeV" 2 "";
      par "lon_0" 1 "deg"; par "lat_0" 1 "deg"; par "index@1TeV" 3 "" ])
  empty_state)).

(** The state and the models a full cycle leaves. *)
Definition cycle (W : World) (models : list nat) (selection : string)
  : M (Components * list nat) :=
  out ← models_to_dict models selection;
  models' ← dict_to_models W out true;
  ret (out, models').

(** Value of the parameter at [slot] of the model's own collection. *)
Definition value_at (σ : State) (model slot : nat) : option value :=
  a ← params_of σ model !! slot;
  p ← pars σ !! a;
  Some (par_value p).

(** The object at the slot of the nested spatial or spectral collection that
    corresponds to [slot] of the composite model's own collection. *)
Definition nested_slot (σ : State) (model slot : nat) : option nat :=
  o ← mods σ !! model;
  sp ← m_spatial_model o;
  so ← mods σ !! sp;
  se ← m_spectral_model o;
  eo ← mods σ !! se;
  ps ← cols σ !! m_parameters so;
  pe ← cols σ !! m_parameters eo;
  if decide (slot < length ps) then ps !! slot else pe !! (slot - length ps).

(** [param.value = v] on the object at [a]. *)
Definition set_value (a : nat) (v : value) (σ : State) : State :=
  with_pars (λ h,
    match h !! a with
    | Some p => <[a := {| par_name := par_name p; par_value := v;
                          par_unit := par_unit p; par_frozen := par_frozen p |}]> h
    | None => h
    end) σ.

(** A source and a background model that hold one parameter object in
    common (object 3). *)
Definition mixed_store : State :=
  with_mods (λ _,
    [ plain_model "PointSpatialModel" 0; plain_model "PowerLawSpectralModel" 1;
      sky_object "src1" 2 0 1;
      background_object "bkg" 3 ])
  (with_cols (λ _, [ [0; 1]; [2; 3; 4]; [0; 1; 2; 3; 4]; [3] ])
  (with_pars (λ _,
    [ par "lon_0" 0 "deg"; par "lat_0" 0 "deg";
      par "index" 2 ""; par "amplitude" 1 "cm-2 s-1 TeV-1"; par "reference" 1 "TeV" ])
  empty_state)).

(** ** Notions for the reconstruction of datasets *)

(** Every run of [c], returning or raising, leaves a state related by [P] to
    the one it started from. *)
Definition keeps {A} (P : State → State → Prop) (c : M A) : Prop :=
  ∀ σ, P σ (c σ).2.

(** [σ'] differs from [σ] in the parameter and collection heaps at most. *)
Definition params_frame (σ σ' : State) : Prop :=
  mods σ' = mods σ ∧ cubes σ' = cubes σ ∧ trace σ' = trace σ
  ∧ params_register σ' = params_register σ ∧ cube_register σ' = cube_register σ
  ∧ self_models σ' = self_models σ ∧ self_backgrounds σ' = self_backgrounds σ
  ∧ self_datasets σ' = self_datasets σ.

Definition is_cube_read (f : string) (ev : Event) : bool :=
  match ev with
  | ReadCube g => bool_decide (g = f)
  | _ => false
  end.

(** How many times the cube file [f] has been read so far. *)
Definition cube_reads (f : string) (σ : State) : nat :=
  length (filter (λ ev, is_cube_read f ev = true) (trace σ)).

(** From [σ] to [σ'] no cube file was read and the registers and the
    attributes of the instance stayed as they were; the model heap only
    grew. *)
Definition quiet (σ σ' : State) : Prop :=
  (∀ f, cube_reads f σ' = cube_reads f σ)
  ∧ params_register σ' = params_register σ ∧ cube_register σ' = cube_register σ
  ∧ self_models σ' = self_models σ ∧ self_backgrounds σ' = self_backgrounds σ
  ∧ self_datasets σ' = self_datasets σ
  ∧ mods σ `prefix_of` mods σ'.

(** The record is a ["model"] record of type ["BackgroundModel"]. *)
Definition is_background (c : Component) : bool := is_background_of [c_name c] c.

(** [c] is the only background record of the dict under its name, and the
    only one that names its file. *)
Definition only_record (c : Component) (data : Components) : bool :=
  forallb (λ c', negb (is_background c')
                 || negb (bool_decide (c_name c' = c_name c)
                          || bool_decide (c_filename c' = c_filename c))
                 || bool_decide (c' = c)) (components data).

(** The background model [b] is the one of the component named [n]: it
    bears that name and holds the cube and the parameter collection the two
    registers keep under [n]. *)
Definition served (σ : State) (n : string) (b : nat) : Prop :=
  ∃ o cb, mods σ !! b = Some o ∧ m_name o = Some n ∧ m_cube o = Some cb
          ∧ cube_register σ !! n = Some cb
          ∧ params_register σ !! n = Some (m_parameters o).

(** The read count of [f] is [r] until the register has a cube under [n],
    and [S r] from then on. *)
Definition counted (f n : string) (r : nat) (σ : State) : Prop :=
  (cube_register σ !! n = None → cube_reads f σ = r)
  ∧ (is_Some (cube_register σ !! n) → cube_reads f σ = S r).

(** Two observations that both list the background ["diffuse"]. *)
Definition demo_index : DatasetsIndex :=
  {| datasets_index :=
       [ {| de_name := "obs1"; de_filename := "data_a.fits";
            de_backgrounds := ["diffuse"]; de_models := ["src"] |};
         {| de_name := "obs2"; de_filename := "data_b.fits";
            de_backgrounds := ["diffuse"]; de_models := ["src"] |} ] |}.

(** A source and the file-backed background. *)
Definition observed_components : Components :=
  {| components := components src_components ++ [diffuse_background] |}.

(** A second background record on the file of [diffuse_background], under
    a name of its own. *)
Definition diffuse_twin : Component :=
  {| c_name := "diffuse-b"; c_filename := Some "diffuse.fits";
     c_model := Some (sub_record "BackgroundModel" [pdict "norm" 1 ""]);
     c_spatial := None; c_spectral := None |}.

(** A second background record under the name of [diffuse_background], on
    a file of its own. *)
Definition diffuse_other : Component :=
  {| c_name := "diffuse"; c_filename := Some "other.fits";
     c_model := Some (sub_record "BackgroundModel" [pdict "norm" 1 ""]);
     c_spatial := None; c_spectral := None |}.

(** Two observations that both list the two backgrounds ["diffuse"] and
    ["diffuse-b"]. *)
Definition twin_index : DatasetsIndex :=
  {| datasets_index :=
       [ {| de_name := "obs1"; de_filename := "data_a.fits";
            de_backgrounds := ["diffuse"; "diffuse-b"]; de_models := [] |};
         {| de_name := "obs2"; de_filename := "data_b.fits";
            de_backgrounds := ["diffuse"; "diffuse-b"]; de_models := [] |} ] |}.

(** The sample world with a second cube file. *)
Definition cube_world : World :=
  {| str_upper := str_upper demo_world;
     str_strip := str_strip demo_world;
     unit_ok := unit_ok demo_world;
     spatial_class := spatial_class demo_world;
     spatial_accepts := spatial_accepts demo_world;
     spatial_has_read := spatial_has_read demo_world;
     spatial_readable := spatial_readable demo_world;
     spectral_class := spectral_class demo_world;
     spectral_accepts := spectral_accepts demo_world;
     cube_readable := λ f, bool_decide (f ∈ ["diffuse.fits"; "other.fits"]);
     dataset_file := dataset_file demo_world |}.

(** ** Notions for the end-to-end scenario *)

(** The run of [c] from [σ] returns. *)
Definition succeeds {A} (c : M A) (σ : State) : Prop := ∃ x σ', c σ = (inr x, σ').

(** The components dict of the scenario, with the parameter lists it leaves
    open: the parameters of the point source, and those of the power law
    that come after the index. *)
Definition scenario (spatial_pars rest : list ParDict) : Components :=
  {| components :=
       [ {| c_name := "src"; c_filename := None; c_model := None;
            c_spatial := Some (sub_record "PointSpatialModel" spatial_pars);
            c_spectral := Some (sub_record "PowerLawSpectralModel"
                                  (pdict "index" 2 "" :: rest)) |} ] |}.

(** The keywords a sub-record's parameters turn into. *)
Definition keywords (pds : list ParDict) : list string :=
  dict_keys (map (λ x, strip_at (pd_name x)) pds).

(** The world has what the scenario's record asks for: the units parse, the
    two classes exist and take the keywords they are called with. *)
Definition accepted (W : World) (spatial_pars rest : list ParDict) : bool :=
  forallb (λ x, unit_ok W (pd_unit x)) spatial_pars
  && forallb (λ x, unit_ok W (pd_unit x)) (pdict "index" 2 "" :: rest)
  && spatial_class W "PointSpatialModel"
  && spatial_accepts W "PointSpatialModel" (keywords spatial_pars)
  && spectral_class W "PowerLawSpectralModel"
  && spectral_accepts W "PowerLawSpectralModel" (keywords (pdict "index" 2 "" :: rest)).

(** ** Writing datasets: [datasets_to_dict] *)

(** [dataset.model]: a [SkyModels] container, a single model, or nothing. *)
Inductive ModelField :=
  | MdlMulti (skymodels : list nat)
  | MdlSingle (model : nat)
  | MdlNone.

(** A dataset as the caller of [datasets_to_dict] holds it. *)
Record DatasetObj := {
  ds_name : string;
  ds_background_model : BkgField;
  ds_model : ModelField
}.

(** [if x not in l: l.append(x)], on objects *)
Definition append_new (l : list nat) (x : nat) : list nat :=
  if decide (x ∈ l) then l else l ++ [x].

(** The body of the loop of [datasets_to_dict].  [write] is the dataset's
    own [write] method, which is not part of the code at hand: it is handed
    in.  A dataset without a model has [None] where a model is expected, and
    reading the name of that fails. *)
Definition datasets_to_dict_step (write : DatasetObj → string → bool → M unit)
    (path : string) (overwrite : bool)
    (acc : list nat * list nat * list DatasetEntry) (dataset : DatasetObj)
  : M (list nat * list nat * list DatasetEntry) :=
  let '(models_list, backgrounds_list, datasets_dictlist) := acc in
  let filename := ((path +:+ "data_") +:+ ds_name dataset) +:+ ".fits" in
  write dataset filename overwrite ;;
  let backgrounds := match ds_background_model dataset with
                     | BkgMulti ms => ms
                     | BkgSingle m => [m]
                     end in
  let models := match ds_model dataset with
                | MdlMulti ms => ms
                | MdlSingle m => [m]
                | MdlNone => []
                end in
  bkg_names ← traverse model_name backgrounds;
  models_names ← match ds_model dataset with
                 | MdlNone => raise (AttributeError "name")
                 | _ => traverse model_name models
                 end;
  ret (foldl append_new models_list models,
       foldl append_new backgrounds_list backgrounds,
       datasets_dictlist ++
         [{| de_name := ds_name dataset; de_filename := filename;
             de_backgrounds := bkg_names; de_models := models_names |}]).

Definition datasets_to_dict (write : DatasetObj → string → bool → M unit)
    (datasets : list DatasetObj) (path selection : string) (overwrite : bool)
  : M (DatasetsIndex * Components) :=
  '(models_list, backgrounds_list, datasets_dictlist) ←
    foldM (datasets_to_dict_step write path overwrite) ([], [], []) datasets;
  components_dict ← models_to_dict (models_list ++ backgrounds_list) selection;
  ret ({| datasets_index := datasets_dictlist |}, components_dict).

(** ** Further notions *)

(** From [σ] to [σ'] nothing but the names of parameter objects changed. *)
Definition names_only (σ σ' : State) : Prop :=
  cols σ' = cols σ ∧ mods σ' = mods σ ∧ cubes σ' = cubes σ ∧ trace σ' = trace σ
  ∧ params_register σ' = params_register σ ∧ cube_register σ' = cube_register σ
  ∧ self_models σ' = self_models σ ∧ self_backgrounds σ' = self_backgrounds σ
  ∧ self_datasets σ' = self_datasets σ
  ∧ Forall2 (λ p p', p' = rename (par_name p') p) (pars σ) (pars σ').

(** The parameter entries of a composite record, in the order of the
    model's own collection: the spatial ones, then the spectral ones. *)
Definition record_parameters (c : Component) : list ParDict :=
  default [] (sd_parameters <$> c_spatial c) ++ default [] (sd_parameters <$> c_spectral c).

(** No parameter entry of a composite record of the dict has an at-sign in
    its name. *)
Definition marker_free (data : Components) : bool :=
  forallb (λ c, match c_model c with
                | Some _ => true
                | None => forallb (λ pd, negb (has_at (pd_name pd))) (record_parameters c)
                end) (components data).

(** Two sources whose index entries bear one marked name, with different
    values. *)
Definition marked_source (name : string) (v : Z) : Component :=
  {| c_name := name; c_filename := None; c_model := None;
     c_spatial := Some (sub_record "PointSpatialModel"
                          [pdict "lon_0" 0 "deg"; pdict "lat_0" 0 "deg"]);
     c_spectral := Some (sub_record "PowerLawSpectralModel"
                           [pdict "index@shared_0" v "";
                            pdict "amplitude" 1 "cm-2 s-1 TeV-1";
                            pdict "reference" 1 "TeV"]) |}.

Definition marked_components : Components :=
  {| components := [marked_source "src1" 2; marked_source "src2" 3] |}.

(** A source record that has lost its ["spectral"] key. *)
Definition half_components : Components :=
  {| components :=
       [ {| c_name := "src"; c_filename := None; c_model := None;
            c_spatial := Some (sub_record "PointSpatialModel"
                                 [pdict "lon_0" 0 "deg"; pdict "lat_0" 0 "deg"]);
            c_spectral := None |} ] |}.

(** The model [m] has a name, and the name is one of [names]. *)
Definition listed (σ : State) (names : list string) (m : nat) : bool :=
  match mods σ !! m ≫= m_name with
  | Some n => bool_decide (n ∈ names)
  | None => false
  end.

(** The background models and the models of a dataset, as the loop of
    [datasets_to_dict] lists them. *)
Definition ds_backgrounds (d : DatasetObj) : list nat :=
  match ds_background_model d with
  | BkgMulti ms => ms
  | BkgSingle m => [m]
  end.

Definition ds_models (d : DatasetObj) : list nat :=
  match ds_model d with
  | MdlMulti ms => ms
  | MdlSingle m => [m]
  | MdlNone => []
  end.

(** Two datasets over the objects of the session: the first holds both
    sources, the second the first source alone, as a bare model. *)
Definition demo_datasets : list DatasetObj :=
  [ {| ds_name := "obs1"; ds_background_model := BkgMulti [6];
       ds_model := MdlMulti [2; 5] |};
    {| ds_name := "obs2"; ds_background_model := BkgSingle 8;
       ds_model := MdlSingle 2 |} ].

(** A [write] that always succeeds. *)
Definition plain_write (d : DatasetObj) (filename : string) (overwrite : bool) : M unit :=
  ret tt.

(* ===================================================================== *)
(** * Properties *)


(** ** Reasoning about the monad *)

Lemma bind_inr {A B} (c : M A) (k : A → M B) σ v σ' :
  (c ≫= k) σ = (inr v, σ') ↔ ∃ x σ1, c σ = (inr x, σ1) ∧ k x σ1 = (inr v, σ').
Proof.
  unfold mbind, M_bind, bind. destruct (c σ) as [[e|x] σ1]; split.
  - intros [=].
  - intros (x & σ2 & [=] & _).
  - intros H. by exists x, σ1.
  - intros (x' & σ2 & [= -> ->] & H). done.
Qed.

Lemma bind_inl {A B} (c : M A) (k : A → M B) σ e σ' :
  (c ≫= k) σ = (inl e, σ') ↔
  c σ = (inl e, σ') ∨ ∃ x σ1, c σ = (inr x, σ1) ∧ k x σ1 = (inl e, σ').
Proof.
  unfold mbind, M_bind, bind. destruct (c σ) as [[e'|x] σ1]; split.
  - intros [= -> ->]. by left.
  - intros [[= -> ->]|(x & σ2 & [=] & _)]. done.
  - intros H. right. by exists x, σ1.
  - intros [[=]|(x' & σ2 & [= -> ->] & H)]. done.
Qed.

Lemma bind_run {A B} (c : M A) (k : A → M B) σ x σ1 :
  c σ = (inr x, σ1) → (c ≫= k) σ = k x σ1.
Proof. unfold mbind, M_bind, bind. by intros ->. Qed.

Lemma bind_fail {A B} (c : M A) (k : A → M B) σ e σ1 :
  c σ = (inl e, σ1) → (c ≫= k) σ = (inl e, σ1).
Proof. unfold mbind, M_bind, bind. by intros ->. Qed.

Lemma bind_assoc {A B C} (c : M A) (k1 : A → M B) (k2 : B → M C) σ :
  ((c ≫= k1) ≫= k2) σ = (c ≫= λ x, k1 x ≫= k2) σ.
Proof. unfold mbind, M_bind, bind. by destruct (c σ) as [[e|x] σ1]. Qed.

Lemma ret_run {A} (x : A) σ : ret x σ = (inr x, σ).
Proof. done. Qed.

Lemma mret_run {A} (x : A) σ : mret (M := M) x σ = (inr x, σ).
Proof. done. Qed.

Lemma reader_ret {A} (x : A) : reader (ret x).
Proof. done. Qed.

Lemma reader_raise {A} e : reader (raise (A := A) e).
Proof. done. Qed.

Lemma reader_gets {A} (f : State → A) : reader (gets f).
Proof. done. Qed.

Lemma reader_lift_option {A} e (o : option A) : reader (lift_option e o).
Proof. by destruct o. Qed.

Lemma reader_bind {A B} (c : M A) (k : A → M B) :
  reader c → (∀ x, reader (k x)) → reader (c ≫= k).
Proof.
  intros Hc Hk σ. unfold mbind, M_bind, bind.
  specialize (Hc σ). destruct (c σ) as [[e|x] σ1]; simpl in *; subst; [done|].
  apply Hk.
Qed.

Lemma reader_traverse {A B} (f : A → M B) l : (∀ x, reader (f x)) → reader (traverse f l).
Proof.
  intros Hf. induction l as [|x l IH]; simpl; [done|].
  apply reader_bind; [done|]. intros y. apply reader_bind; [done|]. done.
Qed.

Lemma reader_foldM {A B} (f : B → A → M B) l acc :
  (∀ b x, reader (f b x)) → reader (foldM f acc l).
Proof.
  intros Hf. revert acc. induction l as [|x l IH]; intros acc; simpl; [done|].
  apply reader_bind; [done|]. done.
Qed.

Lemma reader_get_par a : reader (get_par a).
Proof. apply reader_bind; [done|]. intros σ. apply reader_lift_option. Qed.

Lemma reader_get_col c : reader (get_col c).
Proof. apply reader_bind; [done|]. intros σ. apply reader_lift_option. Qed.

Lemma reader_get_mod m : reader (get_mod m).
Proof. apply reader_bind; [done|]. intros σ. apply reader_lift_option. Qed.

Lemma reader_model_parameters m : reader (model_parameters m).
Proof. apply reader_bind; [apply reader_get_mod|]. intros. apply reader_get_col. Qed.

Lemma reader_Parameter_to_dict sel p : reader (Parameter_to_dict sel p).
Proof. unfold Parameter_to_dict. by case_decide. Qed.

Lemma reader_Model_to_dict m sel : reader (Model_to_dict m sel).
Proof.
  apply reader_bind; [apply reader_get_mod|]. intros o.
  apply reader_bind; [apply reader_get_col|]. intros ps.
  apply reader_bind; [|done].
  apply reader_traverse. intros a. apply reader_bind; [apply reader_get_par|].
  intros. apply reader_Parameter_to_dict.
Qed.

Lemma reader__model_to_dict m sel : reader (_model_to_dict m sel).
Proof.
  apply reader_bind; [apply reader_get_mod|]. intros o. case_decide.
  - apply reader_bind; [apply reader_lift_option|]. intros sp.
    apply reader_bind; [apply reader_Model_to_dict|]. intros d.
    apply reader_bind; [apply reader_get_mod|]. intros spo.
    apply reader_bind; [apply reader_lift_option|]. intros se.
    apply reader_bind; [apply reader_Model_to_dict|]. done.
  - apply reader_bind; [apply reader_Model_to_dict|]. done.
Qed.

Lemma reader_inr {A} (c : M A) σ x σ' : reader c → c σ = (inr x, σ') → σ' = σ.
Proof. intros Hc H. specialize (Hc σ). rewrite H in Hc. done. Qed.

Lemma reader_inl {A} (c : M A) σ e σ' : reader c → c σ = (inl e, σ') → σ' = σ.
Proof. intros Hc H. specialize (Hc σ). rewrite H in Hc. done. Qed.

(** ** De-duplication of records *)

Lemma float_eq_eq x y : float_eq x y = true → x = y.
Proof. destruct x, y; simpl; try done; apply bool_decide_eq_true. Qed.

Lemma float_eq_refl x : is_nan x = false → float_eq x x = true.
Proof. destruct x; simpl; try done; intros _; by apply bool_decide_eq_true. Qed.

Lemma list_eq_by_eq {A} (eq : A → A → bool) l k :
  (∀ x y, eq x y = true → x = y) → list_eq_by eq l k = true → l = k.
Proof.
  intros Heq. revert k. induction l as [|x l IH]; intros [|y k]; simpl; try done.
  intros H. apply andb_true_iff in H as [Hxy Hlk].
  f_equal; [by apply Heq|by apply IH].
Qed.

Lemma list_eq_by_refl {A} (eq : A → A → bool) l :
  Forall (λ x, eq x x = true) l → list_eq_by eq l l = true.
Proof. induction 1 as [|x l Hx Hl IH]; simpl; [done|]. by rewrite Hx, IH. Qed.

Lemma option_eq_by_eq {A} (eq : A → A → bool) x y :
  (∀ a b, eq a b = true → a = b) → option_eq_by eq x y = true → x = y.
Proof. intros Heq. destruct x, y; simpl; try done. intros H. f_equal. by apply Heq. Qed.

Lemma pardict_eq_eq x y : pardict_eq x y = true → x = y.
Proof.
  unfold pardict_eq. rewrite !andb_true_iff, !bool_decide_eq_true.
  intros [[[Hn Hv] Hu] Hf]. apply float_eq_eq in Hv.
  destruct x, y; simpl in *; congruence.
Qed.

Lemma table_eq_eq x y : table_eq x y = true → x = y.
Proof.
  unfold table_eq. rewrite !andb_true_iff, !bool_decide_eq_true.
  intros [Hd Hu]. apply (list_eq_by_eq _ _ _ float_eq_eq) in Hd.
  destruct x, y; simpl in *; congruence.
Qed.

Lemma subdict_eq_eq x y : subdict_eq x y = true → x = y.
Proof.
  unfold subdict_eq. rewrite !andb_true_iff, !bool_decide_eq_true.
  intros [[[[Ht Hp] Hf] He] Hv].
  apply (list_eq_by_eq _ _ _ pardict_eq_eq) in Hp.
  apply (option_eq_by_eq _ _ _ table_eq_eq) in He.
  apply (option_eq_by_eq _ _ _ table_eq_eq) in Hv.
  destruct x, y; simpl in *; congruence.
Qed.

(** Records that compare equal are the same record. *)
Lemma component_eq_eq x y : component_eq x y = true → x = y.
Proof.
  unfold component_eq. rewrite !andb_true_iff, !bool_decide_eq_true.
  intros [[[[Hn Hf] Hm] Hs] He].
  apply (option_eq_by_eq _ _ _ subdict_eq_eq) in Hm.
  apply (option_eq_by_eq _ _ _ subdict_eq_eq) in Hs.
  apply (option_eq_by_eq _ _ _ subdict_eq_eq) in He.
  destruct x, y; simpl in *; congruence.
Qed.

Lemma clean_refl vs : clean vs = true → list_eq_by float_eq vs vs = true.
Proof.
  unfold clean. intros H. apply list_eq_by_refl.
  apply Forall_forall. intros v Hv. apply float_eq_refl.
  rewrite forallb_forall in H. apply negb_true_iff, H. by apply list_elem_of_In.
Qed.

Lemma table_clean_refl t : table_clean t = true → option_eq_by table_eq t t = true.
Proof.
  destruct t as [t|]; simpl; [|done]. intros H. unfold table_eq.
  rewrite (clean_refl _ H). simpl. by apply bool_decide_eq_true.
Qed.

Lemma subdict_clean_refl d : subdict_clean d = true → option_eq_by subdict_eq d d = true.
Proof.
  destruct d as [d|]; simpl; [|done]. rewrite !andb_true_iff. intros [[Hp He] Hv].
  unfold subdict_eq. rewrite (table_clean_refl _ He), (table_clean_refl _ Hv).
  rewrite !bool_decide_eq_true_2 by done. simpl. rewrite !andb_true_r.
  apply list_eq_by_refl, Forall_forall. intros pd Hpd. unfold pardict_eq.
  rewrite !bool_decide_eq_true_2 by done. simpl. rewrite !andb_true_r.
  apply float_eq_refl. unfold clean in Hp. rewrite forallb_forall in Hp.
  apply negb_true_iff, Hp, list_elem_of_In, list_elem_of_fmap. by exists pd.
Qed.

(** A record without a NaN compares equal to itself. *)
Lemma component_eq_refl c : nan_free c = true → component_eq c c = true.
Proof.
  unfold nan_free. rewrite !andb_true_iff. intros [[Hm Hs] He].
  unfold component_eq.
  rewrite (subdict_clean_refl _ Hm), (subdict_clean_refl _ Hs), (subdict_clean_refl _ He).
  by rewrite !bool_decide_eq_true_2.
Qed.

Lemma add_record_cases acc r :
  (add_record acc r = acc ∧ ∃ r', r' ∈ acc ∧ component_eq r' r = true)
  ∨ (add_record acc r = acc ++ [r] ∧ ∀ r', r' ∈ acc → component_eq r' r = false).
Proof.
  unfold add_record.
  destruct (existsb (λ record, component_eq record r) acc) eqn:E.
  - left. split; [done|]. apply existsb_exists in E as (r' & Hin & Heq).
    exists r'. split; [by apply list_elem_of_In|done].
  - right. split; [done|]. intros r' Hin.
    destruct (component_eq r' r) eqn:Heq; [|done].
    rewrite <- E. symmetry. apply existsb_exists. exists r'.
    split; [by apply list_elem_of_In|done].
Qed.

Lemma add_record_elem acc r x : x ∈ add_record acc r ↔ x ∈ acc ∨ x = r.
Proof.
  destruct (add_record_cases acc r) as [[-> (r' & Hin & Heq)]|[-> _]].
  - apply component_eq_eq in Heq as ->. split; [by left|]. intros [?| ->]; done.
  - rewrite elem_of_app, list_elem_of_singleton. done.
Qed.

Lemma foldl_add_record_elem recs acc x :
  x ∈ foldl add_record acc recs ↔ x ∈ acc ∨ x ∈ recs.
Proof.
  revert acc. induction recs as [|r recs IH]; intros acc; simpl.
  - rewrite elem_of_nil. naive_solver.
  - rewrite IH, add_record_elem, elem_of_cons. naive_solver.
Qed.

Lemma occurrences_notin r l : r ∉ l → occurrences r l = 0.
Proof.
  unfold occurrences. induction l as [|x l IH]; intros Hr; [done|].
  rewrite filter_cons. apply not_elem_of_cons in Hr as [Hx Hl].
  case_decide; [by subst|]. by apply IH.
Qed.

Lemma occurrences_nil r : occurrences r [] = 0.
Proof. done. Qed.

Lemma occurrences_app r l k : occurrences r (l ++ k) = occurrences r l + occurrences r k.
Proof. unfold occurrences. by rewrite filter_app, length_app. Qed.

Lemma occurrences_elem r l : r ∈ l → 1 ≤ occurrences r l.
Proof.
  intros H. apply list_elem_of_split in H as (l1 & l2 & ->).
  rewrite occurrences_app. unfold occurrences at 2. rewrite filter_cons.
  rewrite decide_True by done. simpl. lia.
Qed.

(** A record without a NaN is never appended a second time. *)
Lemma add_record_once acc r x :
  nan_free x = true → occurrences x acc ≤ 1 → occurrences x (add_record acc r) ≤ 1.
Proof.
  intros Hx Hacc. destruct (add_record_cases acc r) as [[-> _]|[-> Hnone]]; [done|].
  rewrite occurrences_app. unfold occurrences at 2. rewrite filter_cons, filter_nil.
  case_decide as Hr; simpl; [|lia]. subst r.
  rewrite occurrences_notin; [lia|]. intros Hin.
  apply Hnone in Hin. by rewrite component_eq_refl in Hin.
Qed.

Lemma foldl_add_record_once recs acc x :
  nan_free x = true → occurrences x acc ≤ 1 →
  occurrences x (foldl add_record acc recs) ≤ 1.
Proof.
  intros Hx. revert acc. induction recs as [|r recs IH]; intros acc H; simpl; [done|].
  by apply IH, add_record_once.
Qed.

(** No two entries of the list compare equal. *)
Lemma add_record_distinct acc r : distinct_records acc → distinct_records (add_record acc r).
Proof.
  intros Hacc. destruct (add_record_cases acc r) as [[-> _]|[-> Hnone]]; [done|].
  intros i j ri rj Hij Hi Hj.
  apply lookup_app_Some in Hj as [Hj|[Hlen Hj]].
  - pose proof (lookup_lt_Some _ _ _ Hj) as Hlt.
    rewrite lookup_app_l in Hi by lia. exact (Hacc i j ri rj Hij Hi Hj).
  - apply list_lookup_singleton_Some in Hj as [Hj ->].
    rewrite lookup_app_l in Hi by lia.
    apply Hnone. by eapply list_elem_of_lookup_2.
Qed.

Lemma foldl_add_record_distinct recs acc :
  distinct_records acc → distinct_records (foldl add_record acc recs).
Proof.
  revert acc. induction recs as [|r recs IH]; intros acc H; simpl; [done|].
  by apply IH, add_record_distinct.
Qed.

(** The serialisation loop of [models_to_dict] reads the state only; it
    produces one record per model and folds them with [add_record]. *)
Lemma serialise_loop sel models acc σ out σ' :
  foldM (λ models_data model,
      model_data ← _model_to_dict model sel;
      ret (add_record models_data model_data)) acc models σ = (inr out, σ') →
  σ' = σ ∧
  ∃ recs, Forall2 (λ m r, _model_to_dict m sel σ = (inr r, σ)) models recs ∧
          out = foldl add_record acc recs.
Proof.
  revert acc σ. induction models as [|m models IH]; intros acc σ; simpl.
  - intros [= <- <-]. split; [done|]. by exists [].
  - intros H. apply bind_inr in H as (acc' & σ1 & H1 & H).
    apply bind_inr in H1 as (r & σ2 & Hr & [= <- <-]).
    pose proof (reader_inr _ _ _ _ (reader__model_to_dict m sel) Hr) as ->.
    apply IH in H as (-> & recs & Hrecs & ->). split; [done|].
    exists (r :: recs). split; [|done]. by constructor.
Qed.

Lemma models_to_dict_inv models sel σ out σ' :
  models_to_dict models sel σ = (inr out, σ') →
  ∃ recs,
    (_rename_shared_parameters models σ).1 = inr tt ∧
    Forall2 (λ m r, _model_to_dict m sel (renamed models σ) = (inr r, renamed models σ))
      models recs ∧
    components out = foldl add_record [] recs ∧
    _restore_shared_parameters models (renamed models σ) = (inr tt, σ').
Proof.
  unfold models_to_dict. intros H.
  apply bind_inr in H as ([] & σ1 & Hren & H).
  apply bind_inr in H as (data & σ2 & Hser & H).
  apply bind_inr in H as ([] & σ3 & Hres & [= <- <-]).
  apply serialise_loop in Hser as (-> & recs & Hrecs & ->).
  unfold renamed. rewrite Hren. simpl. by exists recs.
Qed.

(** The record of a model of the list is in the output, and exactly once
    when it holds no NaN. *)
Lemma models_to_dict_once models sel σ out σ' m rec :
  models_to_dict models sel σ = (inr out, σ') →
  m ∈ models →
  record_of models sel σ m = inr rec →
  nan_free rec = true →
  occurrences rec (components out) = 1.
Proof.
  intros H Hm Hrec Hfree. apply models_to_dict_inv in H as (recs & _ & Hrecs & -> & _).
  apply list_elem_of_lookup in Hm as [i Hi].
  destruct (Forall2_lookup_l _ _ _ _ _ Hrecs Hi) as (rec' & Hrec' & Hmr).
  unfold record_of in Hrec. rewrite Hmr in Hrec. injection Hrec as ->.
  assert (occurrences rec (foldl add_record [] recs) ≤ 1) as Hle.
  { apply foldl_add_record_once; [done|]. rewrite occurrences_nil. lia. }
  assert (1 ≤ occurrences rec (foldl add_record [] recs)) as Hge.
  { apply occurrences_elem, foldl_add_record_elem. right.
    by eapply list_elem_of_lookup_2. }
  lia.
Qed.

Lemma run_fst {A} (c : M A) σ x : (c σ).1 = inr x → ∃ σ', c σ = (inr x, σ').
Proof. destruct (c σ) as [r σ'] eqn:E. simpl. intros ->. by exists σ'. Qed.




(** C10 (as the code has it). De-duplication compares records, not objects:
    two distinct model objects whose records compare equal under [==] leave
    one record in the output. *)
Theorem equal_records_serialised_once models sel σ out m1 m2 i j rec1 rec2 :
  (models_to_dict models sel σ).1 = inr out →
  m1 ≠ m2 → models !! i = Some m1 → models !! j = Some m2 →
  record_of models sel σ m1 = inr rec1 →
  record_of models sel σ m2 = inr rec2 →
  component_eq rec1 rec2 = true →
  rec2 = rec1 ∧ occurrences rec1 (components out) = 1.
Proof.
  intros H _ Hi _ H1 _ Heq. apply run_fst in H as [σ' H].
  pose proof (component_eq_eq _ _ Heq) as <-. split; [done|].
  apply models_to_dict_inv in H as (recs & _ & Hrecs & -> & _).
  destruct (Forall2_lookup_l _ _ _ _ _ Hrecs Hi) as (rec' & Hrec' & Hmr).
  unfold record_of in H1. rewrite Hmr in H1. injection H1 as ->.
  assert (1 ≤ occurrences rec1 (foldl add_record [] recs)) as Hge.
  { apply occurrences_elem, foldl_add_record_elem. right.
    by eapply list_elem_of_lookup_2. }
  assert (∀ acc, occurrences rec1 acc ≤ 1 →
            occurrences rec1 (foldl add_record acc recs) ≤ 1) as Hle.
  { clear -Heq. induction recs as [|r recs IH]; intros acc Hacc; simpl; [done|].
    apply IH. destruct (add_record_cases acc r) as [[-> _]|[-> Hnone]]; [done|].
    rewrite occurrences_app. unfold occurrences at 2. rewrite filter_cons, filter_nil.
    case_decide as Hr; simpl; [|lia]. subst r.
    rewrite occurrences_notin; [lia|]. intros Hin.
    apply Hnone in Hin. by rewrite Heq in Hin. }
  specialize (Hle []). rewrite occurrences_nil in Hle. lia.
Qed.

Lemma equal_records_serialised_once_witness :
  bkg_record = bkg_record
  ∧ occurrences bkg_record
      (components (returned no_components (models_to_dict [6; 7] "simple") demo_store)) = 1.
Proof.
  apply (equal_records_serialised_once [6; 7] "simple" demo_store _ 6 7 0 1).
  - vm_compute. reflexivity.
  - lia.
  - reflexivity.
  - reflexivity.
  - vm_compute. reflexivity.
  - vm_compute. reflexivity.
  - vm_compute. reflexivity.
Defined.

(** C10 fails as stated: two distinct background models with the same name,
    type and parameters, the norm being NaN, serialise to one and the same
    record, and the output keeps it twice. *)
Lemma equal_records_with_nan_kept :
  ∃ rec,
    record_of [0; 1] "all" nan_store 0 = inr rec
    ∧ record_of [0; 1] "all" nan_store 1 = inr rec
    ∧ (models_to_dict [0; 1] "all" nan_store).1 = inr {| components := [rec; rec] |}
    ∧ occurrences rec [rec; rec] = 2.
Proof. eexists. split_and!; vm_compute; reflexivity. Qed.

(** ** Names and the at-sign *)

Lemma strip_at_app n s : strip_at (n +:+ "@" +:+ s) = strip_at n.
Proof.
  induction n as [|c n IH]; simpl; [done|].
  destruct (Ascii.eqb c "@"%char); [done|]. by rewrite IH.
Qed.

Lemma strip_at_no_at n : has_at n = false → strip_at n = n.
Proof.
  induction n as [|c n IH]; simpl; [done|].
  destruct (Ascii.eqb c "@"%char); [done|]. intros H. by rewrite IH.
Qed.

Lemma has_at_strip_at n : has_at (strip_at n) = false.
Proof.
  induction n as [|c n IH]; simpl; [done|].
  destruct (Ascii.eqb c "@"%char) eqn:E; simpl; [done|]. by rewrite E, IH.
Qed.

Lemma strip_at_idemp n : strip_at (strip_at n) = strip_at n.
Proof. apply strip_at_no_at, has_at_strip_at. Qed.

Lemma has_at_app n s : has_at (n +:+ "@" +:+ s) = true.
Proof. induction n as [|c n IH]; simpl; [done|]. by destruct (Ascii.eqb c "@"%char). Qed.

Lemma stripped_idemp p : stripped (stripped p) = stripped p.
Proof. unfold stripped, rename. simpl. by rewrite strip_at_idemp. Qed.

Lemma rename_rename n n' p : rename n (rename n' p) = rename n p.
Proof. done. Qed.

Lemma rename_self p : rename (par_name p) p = p.
Proof. by destruct p. Qed.

(** ** Frames: what the renaming loops leave alone *)

Lemma with_pars_id σ : with_pars (λ _, pars σ) σ = σ.
Proof. by destruct σ. Qed.

Lemma with_pars_with_pars h1 h2 σ :
  with_pars (λ _, h2) (with_pars (λ _, h1) σ) = with_pars (λ _, h2) σ.
Proof. done. Qed.

Lemma pars_frame_refl σ : pars_frame σ σ.
Proof. unfold pars_frame. by rewrite with_pars_id. Qed.

Lemma pars_frame_trans σ1 σ2 σ3 : pars_frame σ1 σ2 → pars_frame σ2 σ3 → pars_frame σ1 σ3.
Proof. unfold pars_frame. intros H12 H23. rewrite H23 at 1. rewrite H12. done. Qed.

Lemma pars_frame_params_of σ σ' m : pars_frame σ σ' → params_of σ' m = params_of σ m.
Proof. intros ->. done. Qed.

Lemma pars_frame_all_params σ σ' ms : pars_frame σ σ' → all_params σ' ms = all_params σ ms.
Proof. intros ->. done. Qed.

Lemma get_par_inr a σ p σ' : get_par a σ = (inr p, σ') ↔ pars σ !! a = Some p ∧ σ' = σ.
Proof.
  unfold get_par. rewrite bind_inr. split.
  - intros (σ0 & σ1 & [= <- <-] & H).
    destruct (pars σ !! a); unfold lift_option, ret, raise in H; by simplify_eq.
  - intros [H ->]. exists σ, σ. split; [done|]. by rewrite H.
Qed.

Lemma get_col_inr c σ l σ' : get_col c σ = (inr l, σ') ↔ cols σ !! c = Some l ∧ σ' = σ.
Proof.
  unfold get_col. rewrite bind_inr. split.
  - intros (σ0 & σ1 & [= <- <-] & H).
    destruct (cols σ !! c); unfold lift_option, ret, raise in H; by simplify_eq.
  - intros [H ->]. exists σ, σ. split; [done|]. by rewrite H.
Qed.

Lemma get_mod_inr m σ o σ' : get_mod m σ = (inr o, σ') ↔ mods σ !! m = Some o ∧ σ' = σ.
Proof.
  unfold get_mod. rewrite bind_inr. split.
  - intros (σ0 & σ1 & [= <- <-] & H).
    destruct (mods σ !! m); unfold lift_option, ret, raise in H; by simplify_eq.
  - intros [H ->]. exists σ, σ. split; [done|]. by rewrite H.
Qed.

Lemma model_parameters_inr m σ ps σ' :
  model_parameters m σ = (inr ps, σ') →
  σ' = σ ∧ params_of σ m = ps ∧
  ∃ o, mods σ !! m = Some o ∧ cols σ !! m_parameters o = Some ps.
Proof.
  unfold model_parameters. rewrite bind_inr. intros (o & σ1 & Ho & Hc).
  apply get_mod_inr in Ho as [Ho ->]. apply get_col_inr in Hc as [Hc ->].
  split; [done|]. unfold params_of. rewrite Ho, Hc. eauto.
Qed.

Lemma set_par_name_inr a n σ σ' :
  set_par_name a n σ = (inr tt, σ') ↔
  ∃ p, pars σ !! a = Some p ∧ σ' = with_pars (λ _, <[a := rename n p]> (pars σ)) σ.
Proof.
  unfold set_par_name. rewrite bind_inr. split.
  - intros (p & σ1 & Hp & [= <-]). apply get_par_inr in Hp as [Hp ->]. eauto.
  - intros (p & Hp & ->). exists p, σ. split; [by apply get_par_inr|done].
Qed.

(** ** [list.index] *)

Lemma list_index_None {A} `{EqDecision A} (x : A) l : list_index x l = None ↔ x ∉ l.
Proof.
  induction l as [|y l IH]; simpl.
  - split; [intros _; apply not_elem_of_nil|done].
  - rewrite not_elem_of_cons. case_decide.
    + split; [done|]. intros [? _]. done.
    + destruct (list_index x l); simpl.
      * split; [done|]. intros [_ Hl]. by apply IH in Hl.
      * split; [|done]. intros _. split; [done|]. by apply IH.
Qed.

Lemma list_index_Some {A} `{EqDecision A} (x : A) l i :
  list_index x l = Some i ↔ l !! i = Some x ∧ ∀ j, j < i → l !! j ≠ Some x.
Proof.
  revert i. induction l as [|y l IH]; intros i; simpl.
  - split; [done|]. intros [? _]. done.
  - case_decide as Hxy.
    + subst y. split.
      * intros [= <-]. split; [done|]. lia.
      * intros [Hi Hlt]. destruct i as [|i]; [done|].
        exfalso. apply (Hlt 0); [lia|done].
    + destruct i as [|i].
      * split; [by destruct (list_index x l)|]. intros [[= ->] _]. done.
      * assert (S <$> list_index x l = Some (S i) ↔ list_index x l = Some i) as ->.
        { destruct (list_index x l); simpl; split; congruence. }
        rewrite IH. simpl. split.
        -- intros [E1 E2]. split; [done|].
           intros [|j] Hj; simpl; [congruence|]. apply E2. lia.
        -- intros [Hi Hlt]. split; [done|].
           intros j Hj. apply (Hlt (S j)). lia.
Qed.

Lemma list_index_elem {A} `{EqDecision A} (x : A) l : x ∈ l → is_Some (list_index x l).
Proof.
  intros H. destruct (list_index x l) eqn:E; [by eexists|].
  by apply list_index_None in E.
Qed.

(** ** The scan of [_rename_shared_parameters] *)

Lemma scan_shared_app ps1 ps2 seen shared :
  scan_shared (ps1 ++ ps2) seen shared =
  scan_shared ps2 (scan_shared ps1 seen shared).1 (scan_shared ps1 seen shared).2.
Proof.
  revert seen shared. induction ps1 as [|a ps1 IH]; intros seen shared; simpl; [done|].
  repeat case_decide; apply IH.
Qed.

Lemma scan_shared_seen ps seen shared a :
  a ∈ (scan_shared ps seen shared).1 ↔ a ∈ seen ∨ a ∈ ps.
Proof.
  revert seen shared. induction ps as [|x ps IH]; intros seen shared; simpl.
  - set_solver.
  - repeat case_decide; rewrite IH; set_solver.
Qed.

Lemma twice_cons a x ps : twice a (x :: ps) ↔ (a = x ∧ a ∈ ps) ∨ twice a ps.
Proof.
  split.
  - intros (i & j & Hij & Hi & Hj). destruct j as [|j]; [lia|]. simpl in Hj.
    destruct i as [|i]; simpl in Hi.
    + left. split; [congruence|]. by eapply list_elem_of_lookup_2.
    + right. exists i, j. split_and!; [lia|done..].
  - intros [[-> Hps]|(i & j & Hij & Hi & Hj)].
    + apply list_elem_of_lookup in Hps as [j Hj]. exists 0, (S j).
      split_and!; [lia|done..].
    + exists (S i), (S j). split_and!; [lia|done..].
Qed.

Lemma twice_nil a : ¬ twice a [].
Proof. intros (i & j & _ & Hi & _). done. Qed.

Lemma scan_shared_shared ps seen shared a :
  a ∈ (scan_shared ps seen shared).2 ↔
  a ∈ shared ∨ (a ∈ seen ∧ a ∈ ps) ∨ twice a ps.
Proof.
  revert seen shared. induction ps as [|x ps IH]; intros seen shared; simpl.
  - pose proof (twice_nil a). set_solver.
  - rewrite twice_cons. repeat case_decide; rewrite IH; set_solver.
Qed.

Lemma scan_shared_NoDup ps seen shared :
  NoDup shared → NoDup (scan_shared ps seen shared).2.
Proof.
  revert seen shared. induction ps as [|x ps IH]; intros seen shared H; simpl; [done|].
  repeat case_decide; apply IH; try done.
  apply NoDup_app. split_and!; [done| |apply NoDup_singleton].
  intros y Hy Hy'. apply list_elem_of_singleton in Hy'. by subst.
Qed.

Lemma scan_models_inr models seen shared σ r σ' :
  scan_models models seen shared σ = (inr r, σ') →
  σ' = σ ∧ r = scan_shared (all_params σ models) seen shared.
Proof.
  revert seen shared. induction models as [|m models IH]; intros seen shared; simpl.
  - intros [= <- <-]. done.
  - rewrite bind_inr. intros (ps & σ1 & Hps & H).
    apply model_parameters_inr in Hps as (-> & Hps & _).
    destruct (scan_shared ps seen shared) as [seen' shared'] eqn:E.
    apply IH in H as [-> ->]. split; [done|].
    unfold all_params. simpl. rewrite scan_shared_app, Hps, E. done.
Qed.

(** ** Renaming and restoring *)

Lemma rename_from_spec k shared σ σ' :
  NoDup shared →
  rename_from k shared σ = (inr tt, σ') →
  pars_frame σ σ' ∧
  ∀ a, pars σ' !! a =
       match list_index a shared with
       | Some i => (λ p, rename (shared_name (k + i) (par_name p)) p) <$> pars σ !! a
       | None => pars σ !! a
       end.
Proof.
  intros Hnd. revert k σ. induction Hnd as [|a0 r Ha0 Hr IH]; intros k σ; simpl.
  - intros [= <-]. split; [apply pars_frame_refl|done].
  - rewrite bind_inr. intros (p0 & σ0 & Hp0 & H).
    apply get_par_inr in Hp0 as [Hp0 ->].
    apply bind_inr in H as ([] & σ1 & Hset & H).
    apply set_par_name_inr in Hset as (p0' & Hp0' & ->).
    rewrite Hp0 in Hp0'. injection Hp0' as <-.
    apply IH in H as [Hfr Hpars]. split.
    { eapply pars_frame_trans; [|done]. done. }
    intros a. rewrite Hpars. simpl. case_decide as Haa0.
    + subst a0. apply list_index_None in Ha0. rewrite Ha0.
      rewrite list_lookup_insert_eq by (by eapply lookup_lt_Some).
      rewrite Hp0. simpl. unfold shared_name. by rewrite Nat.add_0_r.
    + rewrite list_lookup_insert_ne by done.
      destruct (list_index a r) as [i|]; simpl; [|done].
      by rewrite Nat.add_succ_r.
Qed.

Lemma _rename_shared_parameters_spec models σ σ' :
  _rename_shared_parameters models σ = (inr tt, σ') →
  let shared := (scan_shared (all_params σ models) [] []).2 in
  pars_frame σ σ' ∧
  ∀ a, pars σ' !! a =
       match list_index a shared with
       | Some i => (λ p, rename (shared_name i (par_name p)) p) <$> pars σ !! a
       | None => pars σ !! a
       end.
Proof.
  unfold _rename_shared_parameters. rewrite bind_inr.
  intros ([seen shared] & σ1 & Hscan & H).
  apply scan_models_inr in Hscan as [-> Hscan]. rewrite <- Hscan. simpl.
  apply rename_from_spec in H; [done|].
  replace shared with (scan_shared (all_params σ models) [] []).2 by by rewrite <- Hscan.
  apply scan_shared_NoDup, NoDup_nil_2.
Qed.

Lemma restore_params_spec ps σ σ' :
  forM_ ps (λ param, p ← get_par param; set_par_name param (strip_at (par_name p))) σ
    = (inr tt, σ') →
  pars_frame σ σ' ∧
  ∀ a, pars σ' !! a = if decide (a ∈ ps) then stripped <$> pars σ !! a else pars σ !! a.
Proof.
  revert σ. induction ps as [|a0 r IH]; intros σ; simpl.
  - intros [= <-]. split; [apply pars_frame_refl|done].
  - rewrite bind_inr. intros ([] & σ1 & Hset & H).
    apply bind_inr in Hset as (p0 & σ0 & Hp0 & Hset).
    apply get_par_inr in Hp0 as [Hp0 ->].
    apply set_par_name_inr in Hset as (p0' & Hp0' & ->).
    rewrite Hp0 in Hp0'. injection Hp0' as <-.
    apply IH in H as [Hfr Hpars]. split.
    { eapply pars_frame_trans; [|done]. done. }
    intros a. rewrite Hpars. simpl.
    destruct (decide (a = a0)) as [-> |Hne].
    + rewrite list_lookup_insert_eq by (by eapply lookup_lt_Some).
      rewrite Hp0. simpl.
      destruct (decide (a0 ∈ a0 :: r)) as [_|Hn]; [|exfalso; apply Hn; left].
      case_decide; [|done]. f_equal. apply stripped_idemp.
    + rewrite list_lookup_insert_ne by done.
      repeat case_decide; set_solver.
Qed.

Lemma _restore_shared_parameters_spec models σ σ' :
  _restore_shared_parameters models σ = (inr tt, σ') →
  pars_frame σ σ' ∧
  ∀ a, pars σ' !! a =
       if decide (a ∈ all_params σ models) then stripped <$> pars σ !! a
       else pars σ !! a.
Proof.
  unfold _restore_shared_parameters.
  revert σ. induction models as [|m models IH]; intros σ; simpl.
  - intros [= <-]. split; [apply pars_frame_refl|done].
  - rewrite bind_inr. intros ([] & σ1 & Hm & H).
    apply bind_inr in Hm as (ps & σ0 & Hps & Hm).
    apply model_parameters_inr in Hps as (-> & Hps & _).
    apply restore_params_spec in Hm as [Hfr1 Hp1].
    apply IH in H as [Hfr2 Hp2]. split.
    { by eapply pars_frame_trans. }
    intros a. rewrite Hp2, Hp1, (pars_frame_all_params σ σ1) by done.
    subst ps. unfold all_params. simpl.
    repeat case_decide; try set_solver.
    destruct (pars σ !! a); simpl; [|done]. by rewrite stripped_idemp.
Qed.

Lemma strip_at_shared_name i n : strip_at (shared_name i n) = strip_at n.
Proof. apply (strip_at_app n ("shared_" +:+ pretty i)). Qed.

Lemma has_at_shared_name i n : has_at (shared_name i n) = true.
Proof. apply (has_at_app n ("shared_" +:+ pretty i)). Qed.

Lemma twice_elem a l : twice a l → a ∈ l.
Proof. intros (i & j & _ & Hi & _). by eapply list_elem_of_lookup_2. Qed.

Lemma shared_in_all_params σ models a :
  a ∈ (scan_shared (all_params σ models) [] []).2 → a ∈ all_params σ models.
Proof.
  rewrite scan_shared_shared. intros [H|[[H _]|H]].
  - by apply elem_of_nil in H.
  - by apply elem_of_nil in H.
  - by apply twice_elem.
Qed.

Lemma at_free_spec σ models a p :
  at_free σ models = true → a ∈ all_params σ models → pars σ !! a = Some p →
  has_at (par_name p) = false.
Proof.
  unfold at_free. rewrite forallb_forall. intros H Ha Hp.
  apply list_elem_of_In in Ha. specialize (H a Ha). rewrite Hp in H.
  by apply negb_true_iff in H.
Qed.

(** On a normal return, with no at-sign in the names, [models_to_dict]
    leaves the whole state as it found it. *)
Lemma models_to_dict_restores models sel σ out σ' :
  models_to_dict models sel σ = (inr out, σ') →
  at_free σ models = true →
  σ' = σ.
Proof.
  intros H Hfree. apply models_to_dict_inv in H as (recs & Hren & _ & _ & Hres).
  assert (_rename_shared_parameters models σ = (inr tt, renamed models σ)) as Hren'.
  { unfold renamed. destruct (_rename_shared_parameters models σ) as [r σ1].
    simpl in *. by subst. }
  apply _rename_shared_parameters_spec in Hren' as [Hfr1 Hp1].
  apply _restore_shared_parameters_spec in Hres as [Hfr2 Hp2].
  rewrite (pars_frame_all_params σ) in Hp2 by done.
  assert (pars σ' = pars σ) as Hpars.
  { apply list_eq. intros a. rewrite Hp2, Hp1. case_decide as Ha.
    - destruct (pars σ !! a) as [p|] eqn:Hp.
      + pose proof (at_free_spec _ _ _ _ Hfree Ha Hp) as Hat.
        destruct (list_index a _); simpl; f_equal; unfold stripped; simpl.
        * rewrite strip_at_shared_name, strip_at_no_at by done. by destruct p.
        * rewrite strip_at_no_at by done. by destruct p.
      + by destruct (list_index a _).
    - destruct (list_index a _) as [i|] eqn:E; [|done].
      exfalso. apply Ha, shared_in_all_params.
      apply list_index_Some in E as [E _]. by eapply list_elem_of_lookup_2. }
  pose proof (pars_frame_trans _ _ _ Hfr1 Hfr2) as Hfr. unfold pars_frame in Hfr.
  rewrite Hfr, Hpars. apply with_pars_id.
Qed.

(** C3 (as the code has it). When [models_to_dict] returns normally on
    models whose parameter names hold no at-sign, every parameter object has
    the name it had before the call. *)
Theorem names_restored_on_return models sel σ out :
  (models_to_dict models sel σ).1 = inr out →
  at_free σ models = true →
  names (models_to_dict models sel σ).2 = names σ.
Proof.
  intros H Hfree. apply run_fst in H as [σ' H]. rewrite H. simpl.
  by rewrite (models_to_dict_restores _ _ _ _ _ H Hfree).
Qed.

Lemma names_restored_on_return_witness :
  names (models_to_dict [2; 5; 6] "all" demo_store).2 = names demo_store.
Proof.
  apply (names_restored_on_return [2; 5; 6] "all" demo_store
           (returned no_components (models_to_dict [2; 5; 6] "all") demo_store)).
  - vm_compute. reflexivity.
  - vm_compute. reflexivity.
Defined.

(** C3 fails as stated, twice over: a name that holds an at-sign of its own
    is cut short by a call that returns normally, and a call that raises
    while the records are produced leaves the shared suffix in place. *)
Lemma names_not_restored :
  ((∃ out, (models_to_dict [8] "all" demo_store).1 = inr out)
   ∧ names demo_store !! 11 = Some "norm@obs1"
   ∧ names (models_to_dict [8] "all" demo_store).2 !! 11 = Some "norm")
  ∧ ((models_to_dict [2; 5] "every" demo_store).1 = inl ValueError
     ∧ names demo_store !! 2 = Some "index"
     ∧ names (models_to_dict [2; 5] "every" demo_store).2 !! 2 = Some "index@shared_0").
Proof.
  split; split_and!; try (vm_compute; reflexivity).
  eexists. vm_compute. reflexivity.
Qed.

(** ** Reading a components dict *)

Lemma dict_to_models_loop_app W pre rest acc σ :
  dict_to_models_loop W (pre ++ rest) acc σ =
  (ms ← dict_to_models_loop W pre acc; dict_to_models_loop W rest ms) σ.
Proof.
  revert acc σ. induction pre as [|c pre IH]; intros acc σ; simpl.
  - done.
  - destruct (c_model c) as [sub|].
    + case_decide; [apply IH|done].
    + unfold mbind, M_bind, bind.
      destruct (_dict_to_skymodel W c σ) as [[e|m] σ1]; [done|].
      apply IH.
Qed.

(** C4 (as the code has it). A components dict that holds a ["model"]
    record of a type other than ["BackgroundModel"] never makes
    [dict_to_models] return normally; the error is the not-implemented one
    whenever the records before the offending one can be read. *)
Theorem unsupported_model_raises W data link σ pre c post sub :
  components data = pre ++ c :: post →
  c_model c = Some sub →
  sd_type sub ≠ "BackgroundModel" →
  (∃ e, (dict_to_models W data link σ).1 = inl e)
  ∧ ((∃ ms, (dict_to_models_loop W pre [] σ).1 = inr ms) →
     (dict_to_models W data link σ).1 = inl NotImplementedError).
Proof.
  intros Hdata Hc Hty.
  assert (∀ ms σ1, dict_to_models_loop W (c :: post) ms σ1 = (inl NotImplementedError, σ1))
    as Hc'.
  { intros ms σ1. simpl. rewrite Hc. by rewrite decide_False. }
  unfold dict_to_models. rewrite Hdata.
  destruct (dict_to_models_loop W pre [] σ) as [[e|ms] σ1] eqn:Hpre.
  - assert (dict_to_models_loop W (pre ++ c :: post) [] σ = (inl e, σ1)) as Hall.
    { rewrite dict_to_models_loop_app. by apply bind_fail. }
    rewrite (bind_fail _ _ _ _ _ Hall). split; [by exists e|].
    intros [ms [=]].
  - assert (dict_to_models_loop W (pre ++ c :: post) [] σ = (inl NotImplementedError, σ1))
      as Hall.
    { rewrite dict_to_models_loop_app. rewrite (bind_run _ _ _ _ _ Hpre). apply Hc'. }
    rewrite (bind_fail _ _ _ _ _ Hall). split; [by eexists|done].
Qed.

Lemma unsupported_model_raises_witness :
  (∃ e, (dict_to_models demo_world unsupported_components true empty_state).1 = inl e)
  ∧ ((∃ ms, (dict_to_models_loop demo_world (components src_components) [] empty_state).1
            = inr ms) →
     (dict_to_models demo_world unsupported_components true empty_state).1
     = inl NotImplementedError).
Proof.
  apply (unsupported_model_raises demo_world unsupported_components true empty_state
           (components src_components)
           {| c_name := "diffuse"; c_filename := None;
              c_model := Some (sub_record "SkyDiffuseCube" []);
              c_spatial := None; c_spectral := None |}
           [] (sub_record "SkyDiffuseCube" [])).
  - reflexivity.
  - reflexivity.
  - vm_compute. intros [=].
Defined.

(** C4 fails as stated: a record that cannot be read and stands before the
    unsupported one makes the call raise that record's error, here the key
    error for the missing ["spatial"] entry. *)
Lemma unsupported_model_other_error :
  (∃ c sub, c ∈ components broken_components ∧ c_model c = Some sub
            ∧ sd_type sub ≠ "BackgroundModel")
  ∧ (dict_to_models demo_world broken_components true empty_state).1
    = inl (KeyError "spatial")
  ∧ (dict_to_models demo_world broken_components true empty_state).1
    ≠ inl NotImplementedError.
Proof.
  split_and!.
  - eexists _, (sub_record "SkyDiffuseCube" []). split_and!.
    + apply elem_of_cons. right. apply elem_of_cons. by left.
    + reflexivity.
    + vm_compute. intros [=].
  - vm_compute. reflexivity.
  - vm_compute. intros [=].
Qed.

(** C9 (as the code has it). A background record without a file whose name
    matches no background of the freshly read dataset, neither stripped and
    in upper case nor as it is, makes [add_background] fail: there is no
    guard and no named error.  On a dataset whose background is a
    [BackgroundModels] container, as [update_dataset] hands it over, the
    error is the one of the index variable that neither branch assigned; on
    a bare background model the attribute [models] fails before the variable
    is read. *)
Theorem add_background_unbound W dataset component bkg_prev σ :
  c_filename component = None →
  str_upper W (str_strip W (c_name component)) ∉ bkg_prev →
  c_name component ∉ bkg_prev →
  add_background W dataset component bkg_prev σ
  = (inl (match d_background_model dataset with
          | BkgMulti _ => UnboundLocalError "BGind"
          | BkgSingle _ => AttributeError "models"
          end), σ).
Proof.
  intros Hf Hup Hex. unfold add_background. rewrite Hf.
  rewrite decide_False by done. rewrite decide_False by done.
  unfold container_models. by destruct (d_background_model dataset).
Qed.

Lemma add_background_unbound_witness :
  add_background demo_world demo_dataset stray_background ["bkg"] demo_store
  = (inl (UnboundLocalError "BGind"), demo_store).
Proof.
  apply (add_background_unbound demo_world demo_dataset stray_background ["bkg"] demo_store).
  - reflexivity.
  - apply (proj1 (bool_decide_eq_false _)). vm_compute. reflexivity.
  - apply (proj1 (bool_decide_eq_false _)). vm_compute. reflexivity.
Defined.

(** C9 fails as stated: the error is not an out-of-bounds or lookup error. *)
Lemma add_background_not_lookup_error :
  c_filename stray_background = None
  ∧ (str_upper demo_world (str_strip demo_world (c_name stray_background)) ∉ ["bkg"])
  ∧ (c_name stray_background ∉ ["bkg"])
  ∧ ∃ e, (add_background demo_world demo_dataset stray_background ["bkg"] demo_store).1
         = inl e ∧ is_lookup_error e = false.
Proof.
  split_and!.
  - reflexivity.
  - apply (proj1 (bool_decide_eq_false _)). vm_compute. reflexivity.
  - apply (proj1 (bool_decide_eq_false _)). vm_compute. reflexivity.
  - eexists. split; [vm_compute; reflexivity|reflexivity].
Qed.

(** ** Symbolic execution of the store primitives *)

Lemma ret_inr {A} (x y : A) σ σ' : ret x σ = (inr y, σ') ↔ y = x ∧ σ' = σ.
Proof. unfold ret. split; [by intros [= -> ->]|by intros [-> ->]]. Qed.

Lemma lift_option_inr {A} e (o : option A) x σ σ' :
  lift_option e o σ = (inr x, σ') ↔ o = Some x ∧ σ' = σ.
Proof.
  destruct o as [y|]; unfold lift_option, ret, raise; split.
  - by intros [= -> ->].
  - by intros [[= ->] ->].
  - intros [=].
  - by intros [[=] _].
Qed.

Lemma guard_inr b e σ σ' : guard b e σ = (inr tt, σ') ↔ b = true ∧ σ' = σ.
Proof.
  destruct b; unfold guard, ret, raise; split.
  - by intros [= ->].
  - by intros [_ ->].
  - intros [=].
  - by intros [[=] _].
Qed.

Lemma alloc_par_run p σ :
  alloc_par p σ = (inr (length (pars σ)), with_pars (λ h, h ++ [p]) σ).
Proof. done. Qed.

Lemma alloc_col_run l σ :
  alloc_col l σ = (inr (length (cols σ)), with_cols (λ h, h ++ [l]) σ).
Proof. done. Qed.

Lemma alloc_mod_run o σ :
  alloc_mod o σ = (inr (length (mods σ)), with_mods (λ h, h ++ [o]) σ).
Proof. done. Qed.

Lemma emit_run ev σ : emit ev σ = (inr tt, with_trace (λ t, t ++ [ev]) σ).
Proof. done. Qed.

Lemma set_mod_inr m o σ σ' :
  set_mod m o σ = (inr tt, σ') ↔
  is_Some (mods σ !! m) ∧ σ' = with_mods (λ h, <[m := o]> h) σ.
Proof.
  unfold set_mod. rewrite bind_inr. split.
  - intros (o0 & σ1 & Ho & [= <-]). apply get_mod_inr in Ho as [Ho ->]. eauto.
  - intros [[o0 Ho] ->]. exists o0, σ. split; [by apply get_mod_inr|done].
Qed.

Lemma set_slot_inr c i a σ σ' :
  set_slot c i a σ = (inr tt, σ') ↔
  ∃ l, cols σ !! c = Some l ∧ i < length l
       ∧ σ' = with_cols (λ h, <[c := <[i := a]> l]> h) σ.
Proof.
  unfold set_slot. rewrite bind_inr. split.
  - intros (l & σ1 & Hl & H). apply get_col_inr in Hl as [Hl ->].
    case_decide; [|done]. injection H as <-. eauto.
  - intros (l & Hl & Hi & ->). exists l, σ. split; [by apply get_col_inr|].
    by rewrite decide_True.
Qed.

Ltac st :=
  cbn [id pars cols mods cubes trace params_register cube_register self_models
       self_backgrounds self_datasets with_pars with_cols with_mods with_cubes
       with_trace with_params_register with_cube_register with_self_models
       with_self_backgrounds with_self_datasets] in *.

(** Invert one primitive run. *)
Ltac inv_prim H :=
  first
    [ apply get_par_inr in H as [H ->]
    | apply get_col_inr in H as [H ->]
    | apply get_mod_inr in H as [H ->]
    | apply lift_option_inr in H as [H ->]
    | apply guard_inr in H as [H ->]
    | apply ret_inr in H as [-> ->]
    | rewrite alloc_par_run in H; injection H as <- <-
    | rewrite alloc_col_run in H; injection H as <- <-
    | rewrite alloc_mod_run in H; injection H as <- <-
    | rewrite emit_run in H; injection H as <-
    | progress (unfold gets, modify, mret, M_ret, ret in H); injection H as <- <-
    | progress (unfold gets, modify, mret, M_ret, ret in H); injection H as <-
    | idtac ];
  try unfold id in *.

(** Invert a successful run of a sequence, one bind at a time. *)
Ltac inv_run H :=
  repeat
    (let x := fresh "x" in
     let σ := fresh "σ" in
     let H1 := fresh "Hrun" in
     apply bind_inr in H as (x & σ & H1 & H);
     try (match type of x with unit => destruct x end);
     inv_prim H1);
  inv_prim H.

Lemma Parameters_alloc_spec (W : World) pds σ ps σ' :
  traverse (λ par, guard (unit_ok W (pd_unit par)) ValueError ;;
                   alloc_par (new_parameter par)) pds σ = (inr ps, σ') →
  Forall (λ par, unit_ok W (pd_unit par) = true) pds
  ∧ ps = seq (length (pars σ)) (length pds)
  ∧ σ' = with_pars (λ h, h ++ map new_parameter pds) σ.
Proof.
  revert σ ps. induction pds as [|pd pds IH]; intros σ ps; simpl.
  - intros H. inv_prim H. split_and!; [done..|].
    destruct σ. unfold with_pars. simpl. by rewrite app_nil_r.
  - intros H. apply bind_inr in H as (a & σ1 & Ha & H). inv_run Ha.
    apply bind_inr in H as (ps' & σ2 & Hps & H). inv_prim H.
    apply IH in Hps as (Hall & -> & ->).
    split_and!; [by constructor| |].
    + st. rewrite length_app. simpl. by rewrite Nat.add_1_r.
    + unfold with_pars. st. by rewrite <- app_assoc.
Qed.

Lemma Parameters_from_dict_spec W item σ col σ' :
  Parameters_from_dict W item σ = (inr col, σ') →
  Forall (λ par, unit_ok W (pd_unit par) = true) (sd_parameters item)
  ∧ col = length (cols σ)
  ∧ σ' = with_cols (λ h, h ++ [seq (length (pars σ)) (length (sd_parameters item))])
           (with_pars (λ h, h ++ map new_parameter (sd_parameters item)) σ).
Proof.
  unfold Parameters_from_dict. intros H. inv_run H.
  apply Parameters_alloc_spec in Hrun as (Hall & -> & ->). done.
Qed.

(** ** One background resolution *)

Lemma add_background_spec W d c prev σ bm σ' :
  add_background W d c prev σ = (inr bm, σ') →
  ∃ o,
    mods σ' !! bm = Some o ∧ m_name o = Some (c_name c)
    ∧ length (mods σ) ≤ length (mods σ')
    ∧ (∀ b, b ≠ bm → b < length (mods σ) → mods σ' !! b = mods σ !! b)
    ∧ pars σ' = pars σ
    ∧ params_register σ' = params_register σ
    ∧ self_backgrounds σ' = self_backgrounds σ
    ∧ self_models σ' = self_models σ
    ∧ self_datasets σ' = self_datasets σ
    ∧ match c_filename c with
      | Some f =>
          bm = length (mods σ)
          ∧ ∃ cb, m_cube o = Some cb
                  ∧ cube_register σ' !! c_name c = Some cb
                  ∧ ((cube_register σ !! c_name c = Some cb
                      ∧ cube_register σ' = cube_register σ
                      ∧ trace σ' = trace σ)
                     ∨ (cube_register σ !! c_name c = None
                        ∧ cube_register σ' = <[c_name c := cb]> (cube_register σ)
                        ∧ trace σ' = trace σ ++ [ReadCube f]))
      | None =>
          bm ∈ background_models d
          ∧ bm < length (mods σ)
          ∧ cube_register σ' = cube_register σ
          ∧ trace σ' = trace σ
          ∧ cols σ' = cols σ
          ∧ ∃ o0, mods σ !! bm = Some o0 ∧ o = set_name (Some (c_name c)) o0
      end.
Proof.
  unfold add_background. intros H.
  apply bind_inr in H as (b & σ1 & Hb & H).
  apply bind_inr in H as (o0 & σ2 & Ho0 & H). apply get_mod_inr in Ho0 as [Ho0 ->].
  apply bind_inr in H as ([] & σ3 & Hset & H). apply ret_inr in H as [-> ->].
  apply set_mod_inr in Hset as [_ ->].
  pose proof (lookup_lt_Some _ _ _ Ho0) as Hlt.
  exists (set_name (Some (c_name c)) o0). st.
  rewrite list_lookup_insert_eq by done.
  destruct (c_filename c) as [f|].
  - apply bind_inr in Hb as (σ0 & σ0' & Hg & Hb). inv_prim Hg.
    apply bind_inr in Hb as (cube & σ4 & Hcube & Hb).
    unfold BackgroundModel_from_skymodel in Hb. inv_run Hb. st.
    rewrite lookup_app_r in Ho0 by (st; lia). st.
    rewrite Nat.sub_diag in Ho0. injection Ho0 as <-. st.
    destruct (cube_register σ !! c_name c) as [cb|] eqn:Hreg.
    + inv_prim Hcube. split_and!; try done.
      * rewrite length_insert, length_app. lia.
      * intros b Hb Hlt'. rewrite list_lookup_insert_ne by done.
        by rewrite lookup_app_l.
      * exists cb. split_and!; [done..|]. by left.
    + apply bind_inr in Hcube as (cb & σ5 & Hread & Hcube). inv_run Hcube.
      unfold SkyDiffuseCube_read in Hread. inv_run Hread. st.
      split_and!; try done.
      * rewrite length_insert, length_app. lia.
      * intros b Hb Hlt'. rewrite list_lookup_insert_ne by done.
        by rewrite lookup_app_l.
      * exists (length (cubes σ)). split_and!; [done| |].
        -- by rewrite lookup_insert_eq.
        -- by right.
  - apply bind_inr in Hb as (BGind & σ4 & Hind & Hb).
    assert (σ4 = σ) as ->.
    { repeat case_decide;
        [apply bind_inr in Hind as (ind & σ5 & Hind & Hr);
         apply lift_option_inr in Hind as [_ ->]; by apply ret_inr in Hr as [_ ->]..|].
      by apply ret_inr in Hind as [_ ->]. }
    apply bind_inr in Hb as (ms & σ5 & Hms & Hb).
    unfold container_models in Hms.
    destruct (d_background_model d) as [m|ms'] eqn:Hd; [done|].
    apply ret_inr in Hms as [-> ->].
    apply bind_inr in Hb as (ind & σ5 & Hsome & Hb).
    apply lift_option_inr in Hsome as [_ ->]. apply lift_option_inr in Hb as [Hb ->].
    split_and!; try done.
    + by rewrite length_insert.
    + intros b' Hb' _. by rewrite list_lookup_insert_ne.
    + unfold background_models. rewrite Hd. by eapply list_elem_of_lookup_2.
    + eauto.
Qed.

Lemma link_background_parameters_spec W c bm σ σ' :
  link_background_parameters W c bm σ = (inr tt, σ') →
  ∃ o p,
    mods σ !! bm = Some o
    ∧ mods σ' = <[bm := set_parameters p o]> (mods σ)
    ∧ params_register σ' !! c_name c = Some p
    ∧ cube_register σ' = cube_register σ
    ∧ trace σ' = trace σ
    ∧ self_backgrounds σ' = self_backgrounds σ
    ∧ self_models σ' = self_models σ
    ∧ self_datasets σ' = self_datasets σ
    ∧ ((params_register σ !! c_name c = Some p
        ∧ params_register σ' = params_register σ
        ∧ pars σ' = pars σ ∧ cols σ' = cols σ)
       ∨ (params_register σ !! c_name c = None
          ∧ params_register σ' = <[c_name c := p]> (params_register σ)
          ∧ ∃ sub, c_model c = Some sub
                   ∧ p = length (cols σ)
                   ∧ pars σ' = pars σ ++ map new_parameter (sd_parameters sub)
                   ∧ cols σ' = cols σ ++ [seq (length (pars σ))
                                            (length (sd_parameters sub))])).
Proof.
  unfold link_background_parameters. intros H.
  apply bind_inr in H as (σ0 & σ0' & Hg & H). inv_prim Hg.
  apply bind_inr in H as (p & σ1 & Hp & H).
  apply bind_inr in H as (o & σ2 & Ho & H). apply get_mod_inr in Ho as [Ho ->].
  apply set_mod_inr in H as [_ ->].
  destruct (params_register σ !! c_name c) as [p0|] eqn:Hreg.
  - inv_prim Hp. exists o, p0. st. split_and!; try done. by left.
  - apply bind_inr in Hp as (sub & σ3 & Hsub & Hp). inv_prim Hsub.
    apply bind_inr in Hp as (p' & σ4 & Hfd & Hp). inv_run Hp.
    apply Parameters_from_dict_spec in Hfd as (_ & -> & ->). st.
    exists o, (length (cols σ)). st. split_and!; try done.
    + by rewrite lookup_insert_eq.
    + right. split_and!; try done. by exists sub.
Qed.

(** What one turn of the loop of [update_dataset] does to the model heap:
    it appends objects and rewrites the one it returns, whose name becomes
    the component's. *)
Lemma update_background_names W d names prev acc c σ acc' σ' :
  update_background W d names prev acc c σ = (inr acc', σ') →
  (is_background_of names c = false ∧ acc' = acc ∧ σ' = σ)
  ∨ (is_background_of names c = true
     ∧ ∃ bm o, acc' = acc ++ [bm]
               ∧ mods σ' !! bm = Some o ∧ m_name o = Some (c_name c)
               ∧ length (mods σ) ≤ length (mods σ')
               ∧ ∀ b, b ≠ bm → b < length (mods σ) → mods σ' !! b = mods σ !! b).
Proof.
  unfold update_background. destruct (is_background_of names c).
  - intros H. right. split; [done|].
    apply bind_inr in H as (bm & σ1 & Hadd & H).
    apply bind_inr in H as ([] & σ2 & Hlink & H).
    apply bind_inr in H as (σ3 & σ3' & Hg & H). inv_prim Hg.
    apply bind_inr in H as ([] & σ4 & Hself & H). inv_prim H.
    apply add_background_spec in Hadd
      as (o & Ho & Hname & Hlen & Hother & _).
    apply link_background_parameters_spec in Hlink
      as (o' & p & Ho' & Hmods & _).
    rewrite Ho in Ho'. injection Ho' as <-.
    assert (mods σ4 = mods σ2) as Hσ'.
    { case_decide; inv_prim Hself; done. }
    exists bm, (set_parameters p o). rewrite Hσ', Hmods. split_and!.
    + done.
    + apply list_lookup_insert_eq. by eapply lookup_lt_Some.
    + done.
    + by rewrite length_insert.
    + intros b Hb Hlt. rewrite list_lookup_insert_ne by done. by apply Hother.
  - intros H. inv_prim H. by left.
Qed.

(** ** Background names that match no record *)

Lemma bind_ext {A B} (c : M A) (k1 k2 : A → M B) σ :
  (∀ x σ1, k1 x σ1 = k2 x σ1) → (c ≫= k1) σ = (c ≫= k2) σ.
Proof.
  intros Hk. unfold mbind, M_bind, bind. destruct (c σ) as [[e|x] σ1]; [done|]. apply Hk.
Qed.

Lemma bind_ext_l {A B} (c1 c2 : M A) (k : A → M B) σ :
  c1 σ = c2 σ → (c1 ≫= k) σ = (c2 ≫= k) σ.
Proof. intros Hc. unfold mbind, M_bind, bind. by rewrite Hc. Qed.

Lemma foldM_ext {A B} (f g : B → A → M B) l :
  (∀ acc x σ, x ∈ l → f acc x σ = g acc x σ) →
  ∀ acc σ, foldM f acc l σ = foldM g acc l σ.
Proof.
  induction l as [|x l IH]; intros Hfg acc σ; simpl; [done|].
  unfold mbind, M_bind, bind. rewrite Hfg by (apply elem_of_cons; by left).
  destruct (g acc x σ) as [[e|acc'] σ1]; [done|].
  apply IH. intros acc0 y σ0 Hy. apply Hfg. apply elem_of_cons. by right.
Qed.

Lemma is_background_of_skip n l1 l2 c :
  is_background_of [n] c = false →
  is_background_of (l1 ++ n :: l2) c = is_background_of (l1 ++ l2) c.
Proof.
  unfold is_background_of. destruct (c_model c) as [sub|]; [|done].
  destruct (bool_decide (sd_type sub = "BackgroundModel")); simpl; [|done].
  intros H. apply bool_decide_eq_false in H.
  apply bool_decide_ext. rewrite !elem_of_app, elem_of_cons.
  rewrite list_elem_of_singleton in H. tauto.
Qed.

Lemma is_background_of_name n names c :
  is_background_of [n] c = false → is_background_of names c = true → c_name c ≠ n.
Proof.
  unfold is_background_of. destruct (c_model c) as [sub|]; [|done].
  destruct (bool_decide (sd_type sub = "BackgroundModel")); simpl; [|done].
  intros H _. apply bool_decide_eq_false in H.
  by rewrite list_elem_of_singleton in H.
Qed.

Lemma no_background_named_spec n data c :
  no_background_named n data = true → c ∈ components data →
  is_background_of [n] c = false.
Proof.
  unfold no_background_named. rewrite forallb_forall. intros H Hc.
  apply list_elem_of_In in Hc. apply H in Hc. by apply negb_true_iff in Hc.
Qed.

Lemma update_fold_names W d names prev n cs acc σ acc' σ' :
  (∀ c, c ∈ cs → is_background_of names c = true → c_name c ≠ n) →
  foldM (update_background W d names prev) acc cs σ = (inr acc', σ') →
  (∀ b, b ∈ acc → b < length (mods σ) ∧ mods σ !! b ≫= m_name ≠ Some n) →
  ∀ b, b ∈ acc' → b < length (mods σ') ∧ mods σ' !! b ≫= m_name ≠ Some n.
Proof.
  revert acc σ. induction cs as [|c cs IH]; intros acc σ Hcs; simpl.
  - intros H. inv_prim H. done.
  - intros H Hacc. apply bind_inr in H as (acc1 & σ1 & Hstep & H).
    eapply IH; [|done|].
    { intros c' Hc'. apply Hcs. apply elem_of_cons. by right. }
    apply update_background_names in Hstep
      as [(_ & -> & ->)|(Hc & bm & o & -> & Ho & Hname & Hlen & Hother)]; [done|].
    intros b Hb. destruct (decide (b = bm)) as [-> |Hne].
    + split; [by eapply lookup_lt_Some|]. rewrite Ho. simpl. rewrite Hname.
      intros [= Heq]. eapply Hcs; [|done..]. apply elem_of_cons. by left.
    + apply elem_of_app in Hb as [Hb|Hb]; [|by apply list_elem_of_singleton in Hb].
      apply Hacc in Hb as [Hlt Hn]. split; [lia|]. by rewrite Hother.
Qed.

Lemma reader_select_models names models : reader (select_models names models).
Proof.
  apply reader_foldM. intros acc m. apply reader_bind; [|done].
  apply reader_bind; [apply reader_get_mod|]. intros. apply reader_lift_option.
Qed.

(** C8. A background name that a dataset records but that no
    ["BackgroundModel"] record of the components dict carries is passed over
    in silence: [update_dataset] does exactly what it does without that name,
    and when it returns, no background of the dataset has that name. *)
Theorem missing_background_skipped W dataset data l1 l2 n model_names σ :
  no_background_named n data = true →
  update_dataset W dataset data (l1 ++ n :: l2) model_names σ
  = update_dataset W dataset data (l1 ++ l2) model_names σ
  ∧ ∀ d' σ',
      update_dataset W dataset data (l1 ++ n :: l2) model_names σ = (inr d', σ') →
      Some n ∉ background_names σ' d'.
Proof.
  intros Hn. split.
  - unfold update_dataset. apply bind_ext. intros ms σ1.
    apply bind_ext. intros prev σ2.
    apply bind_ext_l. apply foldM_ext.
    intros acc c σ0 Hc. unfold update_background.
    rewrite is_background_of_skip; [done|]. by eapply no_background_named_spec.
  - intros d' σ' H. unfold update_dataset in H.
    apply bind_inr in H as (ms & σ1 & Hms & H).
    apply bind_inr in H as (prev & σ2 & Hprev & H).
    apply bind_inr in H as (bs & σ3 & Hfold & H).
    apply bind_inr in H as (σ4 & σ4' & Hg & H). inv_prim Hg.
    apply bind_inr in H as (sel & σ5 & Hsel & H). inv_prim H.
    pose proof (reader_inr _ _ _ _ (reader_select_models _ _) Hsel) as ->.
    unfold background_names. simpl. intros Hin.
    apply list_elem_of_fmap in Hin as (b & Hb & Hin).
    eapply update_fold_names in Hfold as [_ Hfold]; [by apply Hfold| | |done].
    + intros c Hc Hbg. eapply is_background_of_name; [|done].
      by eapply no_background_named_spec.
    + intros b' Hb'. by apply elem_of_nil in Hb'.
Qed.

Lemma missing_background_skipped_witness :
  update_dataset demo_world demo_dataset diffuse_components
    (["diffuse"] ++ "missing" :: []) [] demo_store
  = update_dataset demo_world demo_dataset diffuse_components
      (["diffuse"] ++ []) [] demo_store
  ∧ ∀ d' σ',
      update_dataset demo_world demo_dataset diffuse_components
        (["diffuse"] ++ "missing" :: []) [] demo_store = (inr d', σ') →
      Some "missing" ∉ background_names σ' d'.
Proof.
  apply (missing_background_skipped demo_world demo_dataset diffuse_components
           ["diffuse"] [] "missing" [] demo_store).
  vm_compute. reflexivity.
Defined.

(** On the session's dataset the run does return, with the one background the dict
    has a record for. *)
Example missing_background_run :
  ∃ d' σ',
    update_dataset demo_world demo_dataset diffuse_components
      ["diffuse"; "missing"] [] demo_store = (inr d', σ')
    ∧ background_names σ' d' = [Some "diffuse"].
Proof. eexists _, _. split; vm_compute; reflexivity. Qed.

(** ** The linking pass: names and first bearers *)

Section FirstNamed.
Variable N : nat → string.

Lemma first_named_app l1 l2 nm :
  first_named N (l1 ++ l2) nm =
  match first_named N l1 nm with
  | Some a => Some a
  | None => first_named N l2 nm
  end.
Proof. induction l1 as [|a l1 IH]; simpl; [done|]. by case_decide. Qed.

Lemma first_named_Some l nm a : first_named N l nm = Some a → a ∈ l ∧ N a = nm.
Proof.
  induction l as [|x l IH]; simpl; [done|]. case_decide.
  - intros [= <-]. split; [by left|done].
  - intros H'. apply IH in H' as [? ?]. split; [by right|done].
Qed.

Lemma first_named_elem l a : a ∈ l → is_Some (first_named N l (N a)).
Proof.
  induction l as [|x l IH]; simpl.
  - intros H. by apply elem_of_nil in H.
  - intros H. case_decide; [by eexists|].
    apply elem_of_cons in H as [-> |H]; [done|]. by apply IH.
Qed.

Lemma first_named_snoc_other l a nm :
  N a ≠ nm → first_named N (l ++ [a]) nm = first_named N l nm.
Proof.
  intros H. rewrite first_named_app. simpl. rewrite decide_False by done.
  by destruct (first_named N l nm).
Qed.

Lemma first_named_snoc_Some l a nm :
  is_Some (first_named N l nm) → first_named N (l ++ [a]) nm = first_named N l nm.
Proof. intros [x Hx]. rewrite first_named_app. by rewrite Hx. Qed.

Lemma first_named_snoc_None l a :
  first_named N l (N a) = None → first_named N (l ++ [a]) (N a) = Some a.
Proof. intros H. rewrite first_named_app, H. simpl. by rewrite decide_True. Qed.

Lemma final_in_notin done a : a ∉ done → final_in N done a = a.
Proof. intros H. unfold final_in. by rewrite decide_False. Qed.

Lemma final_in_snoc_other done a x :
  x ≠ a → final_in N (done ++ [a]) x = final_in N done x.
Proof.
  intros Hne. unfold final_in. destruct (decide (x ∈ done)) as [Hx|Hx].
  - rewrite decide_True by (apply elem_of_app; by left).
    by rewrite first_named_snoc_Some by by apply first_named_elem.
  - rewrite decide_False; [done|]. rewrite elem_of_app, list_elem_of_singleton. tauto.
Qed.

Lemma final_in_snoc_self done a :
  a ∉ done →
  final_in N (done ++ [a]) a =
  if has_at (N a) then default a (first_named N done (N a)) else a.
Proof.
  intros Ha. unfold final_in.
  rewrite decide_True by (apply elem_of_app; right; by apply list_elem_of_singleton).
  destruct (has_at (N a)); [|done]. rewrite first_named_app.
  destruct (first_named N done (N a)); [done|]. simpl. by rewrite decide_True.
Qed.

Lemma map_final_in_snoc_notin done a l :
  a ∉ l → map (final_in N (done ++ [a])) l = map (final_in N done) l.
Proof.
  intros Ha. apply map_ext_in. intros x Hx. apply final_in_snoc_other.
  intros ->. by apply Ha, list_elem_of_In.
Qed.

Lemma map_final_in_snoc_at done a l i :
  NoDup l → l !! i = Some a →
  map (final_in N (done ++ [a])) l =
  <[i := final_in N (done ++ [a]) a]> (map (final_in N done) l).
Proof.
  intros Hnd Hi. apply list_eq. intros j.
  destruct (decide (j = i)) as [-> |Hne].
  - rewrite list_lookup_insert_eq.
    + by rewrite list_lookup_fmap, Hi.
    + rewrite length_map. by eapply lookup_lt_Some.
  - rewrite list_lookup_insert_ne by done. rewrite !list_lookup_fmap.
    destruct (l !! j) as [x|] eqn:Hj; [|done]. simpl. f_equal.
    apply final_in_snoc_other. intros ->. apply Hne.
    by eapply NoDup_lookup.
Qed.
End FirstNamed.

Lemma traverse_names_run σ l :
  Forall (λ x, is_Some (pars σ !! x)) l →
  traverse (λ a, p ← get_par a; ret (par_name p)) l σ = (inr (map (name_in σ) l), σ).
Proof.
  induction 1 as [|x l [p Hp] Hl IH]; simpl; [done|].
  assert (get_par x σ = (inr p, σ)) as Hg by by apply get_par_inr.
  rewrite (bind_run _ _ _ _ _ (bind_run _ _ _ _ _ Hg)).
  unfold ret at 1. rewrite (bind_run _ _ _ _ _ IH).
  unfold name_in. by rewrite Hp.
Qed.

Lemma col_names_run σ c l :
  cols σ !! c = Some l →
  Forall (λ x, is_Some (pars σ !! x)) l →
  col_names c σ = (inr (map (name_in σ) l), σ).
Proof.
  intros Hc Hl. unfold col_names.
  assert (get_col c σ = (inr l, σ)) as Hg by by apply get_col_inr.
  rewrite (bind_run _ _ _ _ _ Hg). by apply traverse_names_run.
Qed.

Lemma get_par_run a σ p : pars σ !! a = Some p → get_par a σ = (inr p, σ).
Proof. intros H. by apply get_par_inr. Qed.

Lemma get_col_run c σ l : cols σ !! c = Some l → get_col c σ = (inr l, σ).
Proof. intros H. by apply get_col_inr. Qed.

Lemma get_mod_run m σ o : mods σ !! m = Some o → get_mod m σ = (inr o, σ).
Proof. intros H. by apply get_mod_inr. Qed.

Lemma set_par_name_run a n σ p :
  pars σ !! a = Some p →
  set_par_name a n σ = (inr tt, with_pars (λ _, <[a := rename n p]> (pars σ)) σ).
Proof. intros H. apply set_par_name_inr. eauto. Qed.

Lemma set_slot_run c i a σ l :
  cols σ !! c = Some l → i < length l →
  set_slot c i a σ = (inr tt, with_cols (λ _, <[c := <[i := a]> l]> (cols σ)) σ).
Proof. intros Hl Hi. apply set_slot_inr. eauto. Qed.

Lemma replace_by_name_run c nm new σ l ind :
  cols σ !! c = Some l →
  Forall (λ x, is_Some (pars σ !! x)) l →
  list_index nm (map (name_in σ) l) = Some ind →
  replace_by_name c nm new σ
  = (inr tt, with_cols (λ _, <[c := <[ind := new]> l]> (cols σ)) σ).
Proof.
  intros Hc Hl Hind. unfold replace_by_name.
  rewrite (bind_run _ _ _ _ _ (col_names_run _ _ _ Hc Hl)).
  rewrite Hind. simpl. unfold lift_option. rewrite (bind_run _ _ _ _ _ (ret_run _ _)).
  apply set_slot_run; [done|].
  apply list_index_Some in Hind as [Hind _]. apply lookup_lt_Some in Hind.
  by rewrite length_map in Hind.
Qed.

(** The position [list.index] finds when the slots before [i] bear other
    names. *)
Lemma list_index_at {A} `{EqDecision A} (x : A) l i :
  l !! i = Some x → (∀ j y, j < i → l !! j = Some y → y ≠ x) →
  list_index x l = Some i.
Proof.
  intros Hi Hlt. apply list_index_Some. split; [done|].
  intros j Hj Hx. by eapply Hlt.
Qed.

Lemma elem_of_concat_map {A B} (f : A → list B) (l : list A) b :
  b ∈ concat (map f l) ↔ ∃ x, x ∈ l ∧ b ∈ f x.
Proof.
  induction l as [|z l IH]; simpl.
  - split; [intros H; by apply elem_of_nil in H|]. intros (x & Hx & _).
    by apply elem_of_nil in Hx.
  - rewrite elem_of_app, IH. split.
    + intros [Hb|(x & Hx & Hb)].
      * exists z. split; [by left|done].
      * exists x. split; [by right|done].
    + intros (x & Hx & Hb). apply elem_of_cons in Hx as [-> |Hx]; [by left|].
      right. eauto.
Qed.

Lemma NoDup_concat_unique {A B} (f : A → list B) (l : list A) x y b :
  NoDup (concat (map f l)) → x ∈ l → y ∈ l → b ∈ f x → b ∈ f y → x = y.
Proof.
  induction l as [|z l IH]; simpl; intros Hnd Hx Hy Hbx Hby.
  - by apply elem_of_nil in Hx.
  - apply NoDup_app in Hnd as (Hz & Hdisj & Hl).
    assert (∀ w, w ∈ l → b ∈ f w → b ∈ concat (map f l)) as Hin.
    { intros w Hw Hbw. apply elem_of_concat_map. eauto. }
    apply elem_of_cons in Hx as [-> |Hx]; apply elem_of_cons in Hy as [-> |Hy].
    + done.
    + exfalso. eapply Hdisj; [done|]. by eapply Hin.
    + exfalso. eapply Hdisj; [done|]. by eapply Hin.
    + by apply IH.
Qed.

Lemma NoDup_concat_elem {A B} (f : A → list B) (l : list A) x :
  NoDup (concat (map f l)) → x ∈ l → NoDup (f x).
Proof.
  induction l as [|z l IH]; cbn [concat map]; intros Hnd Hx.
  - by apply elem_of_nil in Hx.
  - apply NoDup_app in Hnd as (Hz & _ & Hl).
    apply elem_of_cons in Hx as [-> |Hx]; [done|]. by apply IH.
Qed.

Section LinkStep.
Variables (σ0 : State) (Ls : list Layout).
Hypothesis Hcols : NoDup (layouts_cols Ls).
Hypothesis Hpars : NoDup (layouts_params Ls).
Hypothesis Hvalid : ∀ a, a ∈ layouts_params Ls → is_Some (pars σ0 !! a).
Hypothesis Hlay : ∀ L, L ∈ Ls →
  cols σ0 !! l_top L = Some (layout_params L)
  ∧ cols σ0 !! l_spatial L = Some (l_ps L)
  ∧ cols σ0 !! l_spectral L = Some (l_pe L).

Abbreviation N := (name_in σ0).

Lemma layout_cols_in L c : L ∈ Ls → c ∈ layout_cols L → c ∈ layouts_cols Ls.
Proof. intros HL Hc. apply elem_of_concat_map. eauto. Qed.

Lemma layout_params_in L a : L ∈ Ls → a ∈ layout_params L → a ∈ layouts_params Ls.
Proof. intros HL Ha. apply elem_of_concat_map. eauto. Qed.

Lemma layout_cols_distinct L :
  L ∈ Ls → l_top L ≠ l_spatial L ∧ l_top L ≠ l_spectral L ∧ l_spatial L ≠ l_spectral L.
Proof.
  intros HL. unfold layouts_cols in Hcols.
  assert (NoDup (layout_cols L)) as Hnd by by eapply NoDup_concat_elem.
  unfold layout_cols in Hnd. apply NoDup_cons in Hnd as [H1 Hnd].
  apply NoDup_cons in Hnd as [H2 _].
  rewrite !elem_of_cons in H1. rewrite elem_of_cons in H2. naive_solver.
Qed.

Lemma layout_params_NoDup L : L ∈ Ls → NoDup (layout_params L).
Proof.
  intros HL. by eapply NoDup_concat_elem.
Qed.

(** What the invariant says about the parameter heap. *)
Lemma inv_pars_notin done reg σ a :
  link_inv σ0 Ls done reg σ → a ∉ done → pars σ !! a = pars σ0 !! a.
Proof.
  intros (_ & _ & HP & _) Ha. rewrite HP. rewrite decide_False; [done|]. tauto.
Qed.

Lemma inv_valid done reg σ a :
  link_inv σ0 Ls done reg σ → is_Some (pars σ0 !! a) → is_Some (pars σ !! a).
Proof.
  intros (_ & _ & HP & _) [p Hp]. rewrite HP, Hp. case_decide; by eexists.
Qed.

Lemma inv_name_notin done reg σ a :
  link_inv σ0 Ls done reg σ → a ∉ done → name_in σ a = N a.
Proof. intros Hinv Ha. unfold name_in. by erewrite inv_pars_notin. Qed.

Lemma final_in_elem done x :
  final_in N done x = x ∨ final_in N done x ∈ done.
Proof.
  unfold final_in. case_decide; [|by left]. destruct (has_at (N x)); [|by left].
  destruct (first_named N done (N x)) as [y|] eqn:E; [|by left].
  right. simpl. by apply first_named_Some in E as [? _].
Qed.

Lemma inv_no_at done reg σ x :
  link_inv σ0 Ls done reg σ →
  (∀ y, y ∈ done → y ∈ layouts_params Ls) →
  x ∈ done →
  has_at (name_in σ (final_in N done x)) = false.
Proof.
  intros (_ & _ & HP & _) Hsub Hx. unfold final_in. rewrite decide_True by done.
  destruct (has_at (N x)) eqn:Hat.
  - destruct (first_named_elem N done x Hx) as [y Hy]. rewrite Hy. simpl.
    pose proof (first_named_Some _ _ _ _ Hy) as [Hyd HNy].
    destruct (Hvalid y (Hsub y Hyd)) as [p Hp].
    unfold name_in at 1. rewrite HP, Hp. rewrite decide_True.
    + simpl. apply has_at_strip_at.
    + rewrite HNy. done.
  - unfold name_in at 1. rewrite HP. rewrite decide_False by (rewrite Hat; naive_solver).
    apply Hat.
Qed.

Lemma inv_cols done reg σ L :
  link_inv σ0 Ls done reg σ → L ∈ Ls →
  cols σ !! l_top L = Some (map (final_in N done) (layout_params L))
  ∧ cols σ !! l_spatial L = Some (map (final_in N done) (l_ps L))
  ∧ cols σ !! l_spectral L = Some (map (final_in N done) (l_pe L)).
Proof.
  intros (_ & _ & _ & HC) HL. destruct (Hlay L HL) as (H1 & H2 & H3).
  rewrite !HC, H1, H2, H3.
  rewrite !decide_True; [done|..]; eapply layout_cols_in; try done;
    unfold layout_cols; set_solver.
Qed.

(** Visiting an object whose name has no at-sign changes nothing. *)
Lemma final_in_snoc_same done a x :
  a ∉ done →
  (has_at (N a) = true → first_named N done (N a) = None) →
  final_in N (done ++ [a]) x = final_in N done x.
Proof.
  intros Ha Hfirst. destruct (decide (x = a)) as [-> |Hne].
  - rewrite final_in_snoc_self, final_in_notin by done.
    destruct (has_at (N a)); [|done]. by rewrite Hfirst.
  - by apply final_in_snoc_other.
Qed.

Lemma inv_condition_snoc done a x :
  x ≠ a →
  (x ∈ done ++ [a] ∧ has_at (N x) = true
   ∧ first_named N (done ++ [a]) (N x) = Some x)
  ↔ (x ∈ done ∧ has_at (N x) = true ∧ first_named N done (N x) = Some x).
Proof.
  intros Hne. rewrite elem_of_app, list_elem_of_singleton. split.
  - intros ([Hx|Hx] & Hat & Hf); [|done]. split_and!; [done..|].
    by rewrite first_named_snoc_Some in Hf by by apply first_named_elem.
  - intros (Hx & Hat & Hf). split_and!; [by left|done|].
    rewrite first_named_snoc_Some; [done|]. by apply first_named_elem.
Qed.

Lemma inv_step_plain done reg σ a :
  link_inv σ0 Ls done reg σ → a ∉ done → has_at (N a) = false →
  link_inv σ0 Ls (done ++ [a]) reg σ.
Proof.
  intros (HF & HR & HP & HC) Ha Hat. split_and!.
  - done.
  - intros nm. rewrite HR. destruct (has_at nm) eqn:Hnm; [|done].
    rewrite first_named_snoc_other; [done|]. intros <-. congruence.
  - intros x. rewrite HP. destruct (decide (x = a)) as [-> |Hne].
    + rewrite !decide_False; [done|rewrite Hat; naive_solver|tauto].
    + apply decide_ext. symmetry. by apply inv_condition_snoc.
  - intros c. rewrite HC. case_decide; [|done].
    destruct (cols σ0 !! c) as [l|]; [|done]. simpl. f_equal.
    apply map_ext. intros x. symmetry. apply final_in_snoc_same; [done|].
    intros Hat'. congruence.
Qed.

Lemma inv_step_register done reg σ a p0 :
  link_inv σ0 Ls done reg σ → a ∉ done → pars σ0 !! a = Some p0 →
  has_at (N a) = true → reg !! N a = None →
  link_inv σ0 Ls (done ++ [a]) (<[N a := a]> reg)
    (with_pars (λ _, <[a := rename (strip_at (N a)) p0]> (pars σ)) σ).
Proof.
  intros (HF & HR & HP & HC) Ha Hp0 Hat Hreg.
  assert (first_named N done (N a) = None) as Hfirst.
  { specialize (HR (N a)). rewrite Hreg, Hat in HR. done. }
  split_and!.
  - st. rewrite HF at 1. done.
  - intros nm. destruct (decide (N a = nm)) as [<- |Hne].
    + rewrite lookup_insert_eq, Hat. by rewrite first_named_snoc_None.
    + rewrite lookup_insert_ne by done. rewrite HR.
      destruct (has_at nm); [|done]. by rewrite first_named_snoc_other.
  - intros x. st. destruct (decide (x = a)) as [-> |Hne].
    + rewrite list_lookup_insert_eq.
      2:{ eapply lookup_lt_is_Some. rewrite HP, Hp0. case_decide; by eexists. }
      rewrite decide_True.
      * rewrite Hp0. simpl. unfold stripped. f_equal. f_equal.
        unfold name_in. by rewrite Hp0.
      * split_and!; [|done|by apply first_named_snoc_None].
        apply elem_of_app. right. by apply list_elem_of_singleton.
    + rewrite list_lookup_insert_ne by done. rewrite HP.
      apply decide_ext. symmetry. by apply inv_condition_snoc.
  - intros c. st. rewrite HC. case_decide; [|done].
    destruct (cols σ0 !! c) as [l|]; [|done]. simpl. f_equal.
    apply map_ext. intros x. symmetry. by apply final_in_snoc_same.
Qed.

(** Where an object of the layouts can stand. *)
Lemma layout_occurrence L L' c l a :
  L ∈ Ls → L' ∈ Ls → a ∈ layout_params L →
  c ∈ layout_cols L' → cols σ0 !! c = Some l → a ∈ l →
  L' = L ∧ (c = l_top L
            ∨ (c = l_spatial L ∧ a ∈ l_ps L)
            ∨ (c = l_spectral L ∧ a ∈ l_pe L)).
Proof.
  intros HL HL' Ha Hc Hl Hal. destruct (Hlay L' HL') as (H1 & H2 & H3).
  assert (a ∈ layout_params L') as Ha'.
  { unfold layout_cols in Hc. rewrite !elem_of_cons, elem_of_nil in Hc.
    unfold layout_params in *.
    destruct Hc as [-> |[-> |[-> |[]]]]; simplify_eq; set_solver. }
  assert (L' = L) as -> by by eapply (NoDup_concat_unique layout_params).
  split; [done|].
  unfold layout_cols in Hc. rewrite !elem_of_cons, elem_of_nil in Hc.
  destruct Hc as [-> |[-> |[-> |[]]]]; simplify_eq; tauto.
Qed.

Lemma inv_step_replace done reg σ a a0 L i cn ln jn :
  link_inv σ0 Ls done reg σ → a ∉ done →
  has_at (N a) = true → reg !! N a = Some a0 →
  L ∈ Ls → layout_params L !! i = Some a →
  ((cn = l_spatial L ∧ ln = l_ps L) ∨ (cn = l_spectral L ∧ ln = l_pe L)) →
  ln !! jn = Some a →
  link_inv σ0 Ls (done ++ [a]) reg
    (with_cols (λ _,
       <[cn := <[jn := a0]> (map (final_in N done) ln)]>
         (<[l_top L := <[i := a0]> (map (final_in N done) (layout_params L))]>
            (cols σ))) σ).
Proof.
  intros Hinv Ha Hat Hreg HL Hi Hcn Hjn.
  destruct (inv_cols _ _ _ L Hinv HL) as (Hct & Hcs & Hce).
  destruct Hinv as (HF & HR & HP & HC).
  destruct (layout_cols_distinct L HL) as (Hd1 & Hd2 & Hd3).
  pose proof (layout_params_NoDup L HL) as Hnd. unfold layout_params in Hnd.
  apply NoDup_app in Hnd as (Hnps & Hdisj & Hnpe).
  assert (first_named N done (N a) = Some a0) as Hfirst.
  { specialize (HR (N a)). rewrite Hreg, Hat in HR. done. }
  assert (final_in N (done ++ [a]) a = a0) as Hfin.
  { rewrite final_in_snoc_self by done. by rewrite Hat, Hfirst. }
  assert (a0 ∈ done) as Ha0 by by apply first_named_Some in Hfirst as [? _].
  assert (cn ≠ l_top L ∧ NoDup ln ∧ is_Some (cols σ !! cn)
          ∧ cols σ0 !! cn = Some ln) as (Hcnt & Hndn & Hcnv & Hcn0).
  { destruct (Hlay L HL) as (_ & H2 & H3).
    destruct Hcn as [[-> ->]|[-> ->]]; split_and!; by eauto. }
  split_and!.
  - st. rewrite HF at 1. done.
  - intros nm. rewrite HR. destruct (has_at nm); [|done].
    destruct (decide (N a = nm)) as [<- |Hne].
    + rewrite first_named_snoc_Some; [done|]. by rewrite Hfirst.
    + by rewrite first_named_snoc_other.
  - intros x. st. rewrite HP. destruct (decide (x = a)) as [-> |Hne].
    + rewrite !decide_False; [done| |tauto].
      intros (_ & _ & Hf). rewrite first_named_snoc_Some in Hf by by rewrite Hfirst.
      rewrite Hfirst in Hf. injection Hf as ->. done.
    + apply decide_ext. symmetry. by apply inv_condition_snoc.
  - intros c. st. destruct (decide (c = cn)) as [-> |Hcne].
    + rewrite list_lookup_insert_eq.
      2:{ rewrite length_insert. by apply lookup_lt_is_Some. }
      rewrite decide_True.
      2:{ eapply layout_cols_in; [done|]. unfold layout_cols.
          destruct Hcn as [[-> _]|[-> _]]; set_solver. }
      rewrite Hcn0. simpl. f_equal.
      rewrite (map_final_in_snoc_at N done a ln jn) by done. by rewrite Hfin.
    + rewrite list_lookup_insert_ne by done.
      destruct (decide (c = l_top L)) as [-> |Hcnt'].
      * rewrite list_lookup_insert_eq by (apply lookup_lt_is_Some; by rewrite Hct).
        rewrite decide_True.
        2:{ eapply layout_cols_in; [done|]. unfold layout_cols. set_solver. }
        destruct (Hlay L HL) as (-> & _). simpl. f_equal.
        rewrite (map_final_in_snoc_at N done a (layout_params L) i); [|by apply layout_params_NoDup|done].
        by rewrite Hfin.
      * rewrite list_lookup_insert_ne by done. rewrite HC.
        case_decide as Hc; [|done].
        destruct (cols σ0 !! c) as [l|] eqn:Hl; [|done]. simpl. f_equal.
        symmetry. apply map_final_in_snoc_notin. intros Hal.
        apply elem_of_concat_map in Hc as (L' & HL' & Hc).
        destruct (layout_occurrence L L' c l a HL HL') as (-> & Hocc); try done.
        { by eapply list_elem_of_lookup_2. }
        apply list_elem_of_lookup_2 in Hjn.
        destruct Hocc as [-> |[[-> Hps]|[-> Hpe]]]; [done|..];
          destruct Hcn as [[-> ->]|[-> ->]]; try done.
        -- by eapply Hdisj.
        -- by eapply Hdisj.
Qed.

Lemma inv_mods done reg σ : link_inv σ0 Ls done reg σ → mods σ = mods σ0.
Proof. intros (HF & _). rewrite HF. done. Qed.

(** The slots before [i] of a visited collection bear names without
    at-sign, so [index] finds slot [i]. *)
Lemma index_of_visited done reg σ l i a :
  link_inv σ0 Ls done reg σ →
  (∀ y, y ∈ done → y ∈ layouts_params Ls) →
  a ∉ done → has_at (N a) = true →
  l !! i = Some a → (∀ j y, j < i → l !! j = Some y → y ∈ done) →
  list_index (N a) (map (name_in σ) (map (final_in N done) l)) = Some i.
Proof.
  intros Hinv Hsub Ha Hat Hi Hbefore. apply list_index_at.
  - rewrite !list_lookup_fmap, Hi. simpl. rewrite final_in_notin by done.
    by erewrite inv_name_notin.
  - intros j nm Hj Hnm. rewrite !list_lookup_fmap in Hnm.
    destruct (l !! j) as [y|] eqn:Hy; [|done]. simpl in Hnm. injection Hnm as <-.
    intros Heq. pose proof (inv_no_at _ _ _ y Hinv Hsub (Hbefore _ _ Hj Hy)) as Hno.
    rewrite Heq in Hno. congruence.
Qed.

Lemma names_of_visited done reg σ l :
  link_inv σ0 Ls done reg σ →
  (∀ y, y ∈ done → y ∈ layouts_params Ls) →
  (∀ y, y ∈ l → y ∈ done) →
  ∀ nm, has_at nm = true → nm ∉ map (name_in σ) (map (final_in N done) l).
Proof.
  intros Hinv Hsub Hl nm Hat Hin.
  apply list_elem_of_fmap in Hin as (x & -> & Hx).
  apply list_elem_of_fmap in Hx as (y & -> & Hy).
  pose proof (inv_no_at _ _ _ y Hinv Hsub (Hl _ Hy)). congruence.
Qed.

Lemma visited_valid done reg σ l :
  link_inv σ0 Ls done reg σ →
  (∀ y, y ∈ done → y ∈ layouts_params Ls) →
  (∀ y, y ∈ l → y ∈ layouts_params Ls) →
  Forall (λ x, is_Some (pars σ !! x)) (map (final_in N done) l).
Proof.
  intros Hinv Hsub Hl. apply Forall_forall. intros x Hx.
  apply list_elem_of_fmap in Hx as (y & -> & Hy).
  eapply inv_valid; [done|]. apply Hvalid.
  destruct (final_in_elem done y) as [-> |Hd]; [by apply Hl|by apply Hsub].
Qed.

Lemma link_slot_spec o L F1 F2 i a reg σ :
  L ∈ Ls → composite σ0 o L →
  layouts_params Ls = F1 ++ layout_params L ++ F2 →
  layout_params L !! i = Some a →
  link_inv σ0 Ls (F1 ++ take i (layout_params L)) reg σ →
  ∃ reg' σ',
    link_slot o i reg σ = (inr reg', σ')
    ∧ link_inv σ0 Ls (F1 ++ take (S i) (layout_params L)) reg' σ'.
Proof.
  intros HL Hobj Hflat Hi Hinv.
  destruct Hobj as (sp & so & se & eo & Hcls & Hpo & Hsp & Hso & Hpso
                    & Hse & Heo & Hpeo & _).
  pose proof (layout_params_NoDup L HL) as Hndtop.
  assert (∀ y, y ∈ layout_params L → y ∈ layouts_params Ls) as Htopsub.
  { intros y Hy. by eapply layout_params_in. }
  assert (∀ y, y ∈ F1 ++ take i (layout_params L) → y ∈ layouts_params Ls) as Hsub.
  { intros y Hy. rewrite Hflat. apply elem_of_app in Hy as [Hy|Hy].
    - apply elem_of_app. by left.
    - apply elem_of_app. right. apply elem_of_app. left.
      by eapply subseteq_take. }
  assert (a ∉ F1 ++ take i (layout_params L)) as Ha.
  { intros Hin. apply elem_of_app in Hin as [Hin|Hin].
    - pose proof Hpars as Hnd. rewrite Hflat in Hnd.
      apply NoDup_app in Hnd as (_ & Hdisj & _). eapply Hdisj; [done|].
      apply elem_of_app. left. by eapply list_elem_of_lookup_2.
    - apply elem_of_take in Hin as (j & Hj & Hlt).
      pose proof (NoDup_lookup _ _ _ _ Hndtop Hi Hj). lia. }
  assert (∀ j y, j < i → layout_params L !! j = Some y →
                 y ∈ F1 ++ take i (layout_params L)) as Hbefore.
  { intros j y Hj Hy. apply elem_of_app. right. apply elem_of_take. eauto. }
  rewrite (take_S_r _ _ _ Hi), app_assoc.
  set (done := F1 ++ take i (layout_params L)) in *.
  destruct (inv_cols _ _ _ L Hinv HL) as (Hct & Hcs & Hce).
  destruct (Hvalid a (Htopsub a (list_elem_of_lookup_2 _ _ _ Hi))) as [p0 Hp0].
  assert (pars σ !! a = Some p0) as Hpa by by erewrite inv_pars_notin.
  assert (par_name p0 = N a) as Hname by (unfold name_in; by rewrite Hp0).
  pose proof (inv_mods _ _ _ Hinv) as Hmods.
  unfold link_slot. rewrite Hpo, Hsp, Hse. cbn [lift_option].
  rewrite (bind_run _ _ _ _ _ (get_col_run _ _ _ Hct)).
  rewrite list_lookup_fmap, Hi. cbn [fmap option_fmap option_map lift_option].
  rewrite final_in_notin by done.
  rewrite (bind_run (ret a) _ σ a σ) by done.
  rewrite (bind_run _ _ _ _ _ (get_par_run _ _ _ Hpa)).
  rewrite Hname. destruct (has_at (N a)) eqn:Hat.
  2:{ exists reg, σ. split; [done|]. by apply inv_step_plain. }
  destruct (reg !! N a) as [a0|] eqn:Hreg.
  2:{ eexists _, _. rewrite (bind_run _ _ _ _ _ (set_par_name_run _ _ _ _ Hpa)).
      split; [done|]. by apply inv_step_register. }
  assert (list_index (N a) (map (name_in σ) (map (final_in N done) (layout_params L)))
          = Some i) as Hidx by by eapply index_of_visited.
  assert (Forall (λ x, is_Some (pars σ !! x)) (map (final_in N done) (layout_params L)))
    as Hvt by by eapply visited_valid.
  rewrite (bind_run _ _ _ _ _ (replace_by_name_run _ _ _ _ _ _ Hct Hvt Hidx)).
  rewrite decide_True by done.
  set (σ1 := with_cols _ σ).
  destruct (layout_cols_distinct L HL) as (Hd1 & Hd2 & Hd3).
  assert (cols σ1 !! l_spatial L = Some (map (final_in N done) (l_ps L))) as Hcs1.
  { subst σ1. st. by rewrite list_lookup_insert_ne. }
  assert (cols σ1 !! l_spectral L = Some (map (final_in N done) (l_pe L))) as Hce1.
  { subst σ1. st. by rewrite list_lookup_insert_ne. }
  assert (∀ l, (∀ y, y ∈ l → y ∈ layout_params L) →
               Forall (λ x, is_Some (pars σ1 !! x)) (map (final_in N done) l)) as Hv1.
  { intros l Hl. subst σ1. st. eapply visited_valid; [done..|]. naive_solver. }
  assert (∀ l, map (name_in σ1) l = map (name_in σ) l) as Hn1 by done.
  rewrite bind_assoc, (bind_run (ret sp) _ σ1 sp σ1) by done.
  assert (mods σ1 = mods σ0) as Hmods1 by done.
  rewrite bind_assoc, (bind_run (get_mod sp) _ σ1 so σ1)
    by (apply get_mod_run; by rewrite Hmods1).
  rewrite bind_assoc, (bind_run (ret se) _ σ1 se σ1) by done.
  rewrite bind_assoc, (bind_run (get_mod se) _ σ1 eo σ1)
    by (apply get_mod_run; by rewrite Hmods1).
  rewrite Hpso, Hpeo.
  assert (Forall (λ x, is_Some (pars σ1 !! x)) (map (final_in N done) (l_ps L))) as Hvps.
  { apply Hv1. intros y Hy. unfold layout_params. apply elem_of_app. by left. }
  assert (Forall (λ x, is_Some (pars σ1 !! x)) (map (final_in N done) (l_pe L))) as Hvpe.
  { apply Hv1. intros y Hy. unfold layout_params. apply elem_of_app. by right. }
  rewrite bind_assoc, (bind_run _ _ _ _ _ (col_names_run _ _ _ Hcs1 Hvps)). rewrite Hn1.
  destruct (decide (i < length (l_ps L))) as [Hlt|Hge].
  - assert (l_ps L !! i = Some a) as Hips.
    { unfold layout_params in Hi. by rewrite lookup_app_l in Hi. }
    assert (list_index (N a) (map (name_in σ) (map (final_in N done) (l_ps L))) = Some i)
      as Hidx2.
    { eapply index_of_visited; try done. intros j y Hj Hy. eapply Hbefore; [done|].
      unfold layout_params. rewrite lookup_app_l; [done|]. lia. }
    rewrite decide_True.
    2:{ apply list_index_Some in Hidx2 as [Hidx2 _]. by eapply list_elem_of_lookup_2. }
    eexists _, _.
    rewrite (bind_run _ _ _ _ _ (replace_by_name_run _ _ _ _ _ _ Hcs1 Hvps Hidx2)).
    split; [done|]. subst σ1. st.
    eapply (inv_step_replace done reg σ a a0 L i (l_spatial L) (l_ps L) i); try done.
    by left.
  - assert (l_pe L !! (i - length (l_ps L)) = Some a) as Hipe.
    { unfold layout_params in Hi. rewrite lookup_app_r in Hi by lia. done. }
    rewrite decide_False.
    2:{ eapply names_of_visited; try done. intros y Hy.
        apply list_elem_of_lookup in Hy as [j Hj].
        eapply (Hbefore j).
        - apply lookup_lt_Some in Hj. lia.
        - unfold layout_params. by rewrite lookup_app_l by by eapply lookup_lt_Some. }
    rewrite bind_assoc, (bind_run _ _ _ _ _ (col_names_run _ _ _ Hce1 Hvpe)). rewrite Hn1.
    assert (list_index (N a) (map (name_in σ) (map (final_in N done) (l_pe L)))
            = Some (i - length (l_ps L))) as Hidx2.
    { eapply index_of_visited; try done. intros j y Hj Hy.
      eapply (Hbefore (length (l_ps L) + j)); [lia|].
      unfold layout_params. rewrite lookup_app_r by lia.
      by replace (length (l_ps L) + j - length (l_ps L)) with j by lia. }
    rewrite decide_True.
    2:{ apply list_index_Some in Hidx2 as [Hidx2 _]. by eapply list_elem_of_lookup_2. }
    eexists _, _.
    rewrite (bind_run _ _ _ _ _ (replace_by_name_run _ _ _ _ _ _ Hce1 Hvpe Hidx2)).
    split; [done|]. subst σ1. st.
    eapply (inv_step_replace done reg σ a a0 L i (l_spectral L) (l_pe L)
              (i - length (l_ps L))); try done.
    by right.
Qed.

Lemma link_slots_spec o L F1 F2 n i reg σ :
  L ∈ Ls → composite σ0 o L →
  layouts_params Ls = F1 ++ layout_params L ++ F2 →
  i + n = length (layout_params L) →
  link_inv σ0 Ls (F1 ++ take i (layout_params L)) reg σ →
  ∃ reg' σ',
    link_slots o n i reg σ = (inr reg', σ')
    ∧ link_inv σ0 Ls (F1 ++ layout_params L) reg' σ'.
Proof.
  intros HL Hobj Hflat. revert i reg σ.
  induction n as [|n IH]; intros i reg σ Hlen Hinv; simpl.
  - exists reg, σ. split; [done|]. rewrite take_ge in Hinv by lia. done.
  - destruct (lookup_lt_is_Some_2 (layout_params L) i) as [a Ha]; [lia|].
    destruct (link_slot_spec o L F1 F2 i a reg σ) as (reg1 & σ1 & Hrun & Hinv1);
      try done.
    rewrite (bind_run _ _ _ _ _ Hrun). apply IH; [lia|done].
Qed.

Lemma link_model_spec m L F1 F2 reg σ :
  L ∈ Ls → sky_layout σ0 m L →
  layouts_params Ls = F1 ++ layout_params L ++ F2 →
  link_inv σ0 Ls F1 reg σ →
  ∃ reg' σ',
    link_model reg m σ = (inr reg', σ')
    ∧ link_inv σ0 Ls (F1 ++ layout_params L) reg' σ'.
Proof.
  intros HL (o & Ho & Hobj) Hflat Hinv. unfold link_model.
  rewrite (bind_run (get_mod m) _ σ o σ)
    by (apply get_mod_run; by rewrite (inv_mods _ _ _ Hinv)).
  destruct (inv_cols _ _ _ L Hinv HL) as (Hct & _).
  pose proof Hobj as (sp & so & se & eo & _ & Hpo & _).
  rewrite Hpo. rewrite (bind_run _ _ _ _ _ (get_col_run _ _ _ Hct)).
  rewrite length_map. eapply link_slots_spec; try done.
  by rewrite take_0, app_nil_r.
Qed.

Lemma link_fold_spec ms Ls' F1 reg σ :
  Forall2 (sky_layout σ0) ms Ls' →
  (∀ L, L ∈ Ls' → L ∈ Ls) →
  layouts_params Ls = F1 ++ layouts_params Ls' →
  link_inv σ0 Ls F1 reg σ →
  ∃ reg' σ',
    foldM link_model reg ms σ = (inr reg', σ')
    ∧ link_inv σ0 Ls (layouts_params Ls) reg' σ'.
Proof.
  intros Hall. revert F1 reg σ.
  induction Hall as [|m L ms Ls' Hm Hall IH]; intros F1 reg σ Hsub Hflat Hinv; simpl.
  - exists reg, σ. split; [done|]. unfold layouts_params in Hflat at 2.
    simpl in Hflat. rewrite app_nil_r in Hflat. by rewrite Hflat.
  - unfold layouts_params in Hflat at 2. cbn [map concat] in Hflat.
    destruct (link_model_spec m L F1 (layouts_params Ls') reg σ)
      as (reg1 & σ1 & Hrun & Hinv1); try done.
    { apply Hsub. by left. }
    rewrite (bind_run _ _ _ _ _ Hrun). apply (IH (F1 ++ layout_params L)).
    + intros L' HL'. apply Hsub. by right.
    + by rewrite <- app_assoc.
    + done.
Qed.

Lemma link_inv_init : link_inv σ0 Ls [] ∅ σ0.
Proof.
  split_and!.
  - by destruct σ0.
  - intros nm. rewrite lookup_empty. by destruct (has_at nm).
  - intros a. rewrite decide_False; [done|]. intros (H & _). by apply elem_of_nil in H.
  - intros c. case_decide; [|done]. destruct (cols σ0 !! c) as [l|]; [|done].
    simpl. f_equal. rewrite <- (map_id l) at 1. apply map_ext. intros x.
    symmetry. apply final_in_notin. apply not_elem_of_nil.
Qed.
End LinkStep.

(** The linking pass on freshly read models cannot fail, and leaves every
    slot with the first bearer of its object's name when that name has an
    at-sign. *)
Lemma link_separate σ0 ms Ls :
  separate σ0 ms Ls →
  ∃ reg σ',
    _link_shared_parameters ms σ0 = (inr tt, σ')
    ∧ link_inv σ0 Ls (layouts_params Ls) reg σ'.
Proof.
  intros (Hall & Hcols & Hpars & Hvalid).
  assert (∀ L, L ∈ Ls →
            cols σ0 !! l_top L = Some (layout_params L)
            ∧ cols σ0 !! l_spatial L = Some (l_ps L)
            ∧ cols σ0 !! l_spectral L = Some (l_pe L)) as Hlay.
  { intros L HL. apply list_elem_of_lookup in HL as [k Hk].
    destruct (Forall2_lookup_r _ _ _ _ _ Hall Hk) as (m & _ & o & _ & Hobj).
    destruct Hobj as (sp & so & se & eo & _ & _ & _ & _ & _ & _ & _ & _ & H1 & H2 & H3).
    done. }
  destruct (link_fold_spec σ0 Ls Hcols Hpars Hvalid Hlay ms Ls [] ∅ σ0)
    as (reg & σ' & Hrun & Hinv); try done.
  { by apply link_inv_init. }
  exists reg, σ'. split; [|done].
  unfold _link_shared_parameters. by rewrite (bind_run _ _ _ _ _ Hrun).
Qed.

(** ** Reading one composite model *)

Lemma reader_guard b e : reader (guard b e).
Proof. by destruct b. Qed.

Lemma reader_forM_ {A} (f : A → M unit) l : (∀ x, reader (f x)) → reader (forM_ l f).
Proof.
  intros Hf. induction l as [|x l IH]; simpl; [done|]. by apply reader_bind.
Qed.

Lemma reader_keyword_params W pds : reader (keyword_params W pds).
Proof.
  apply reader_bind; [|done]. apply reader_forM_. intros x. apply reader_guard.
Qed.

Lemma _dict_to_spatial_spec W item σ s σ' :
  _dict_to_spatial W item σ = (inr s, σ') →
  s = length (mods σ)
  ∧ pars σ' = pars σ ++ map new_parameter (sd_parameters item)
  ∧ cols σ' = cols σ ++ [seq (length (pars σ)) (length (sd_parameters item))]
  ∧ ∃ so, mods σ' = mods σ ++ [so]
          ∧ m_class so = sd_type item ∧ m_parameters so = length (cols σ).
Proof.
  unfold _dict_to_spatial. intros H. destruct (sd_filename item) as [f|].
  - apply bind_inr in H as ([] & σ1 & Hg1 & H). inv_prim Hg1.
    apply bind_inr in H as ([] & σ2 & Hg0 & H). inv_prim Hg0.
    apply bind_inr in H as ([] & σ2 & Hg2 & H). inv_prim Hg2.
    apply bind_inr in H as ([] & σ3 & He & H). inv_prim He.
    apply bind_inr in H as (col & σ4 & Hfd & H). inv_prim H.
    apply Parameters_from_dict_spec in Hfd as (_ & -> & ->). st.
    split_and!; try done. eexists. split_and!; done.
  - apply bind_inr in H as (params & σ1 & Hkw & H).
    pose proof (reader_inr _ _ _ _ (reader_keyword_params W _) Hkw) as ->.
    apply bind_inr in H as ([] & σ2 & Hg1 & H). inv_prim Hg1.
    apply bind_inr in H as ([] & σ3 & Hg2 & H). inv_prim Hg2.
    apply bind_inr in H as (col & σ4 & Hfd & H). inv_prim H.
    apply Parameters_from_dict_spec in Hfd as (_ & -> & ->). st.
    split_and!; try done. eexists. split_and!; done.
Qed.

Lemma _dict_to_spectral_spec W item σ s σ' :
  _dict_to_spectral W item σ = (inr s, σ') →
  s = length (mods σ)
  ∧ pars σ' = pars σ ++ map new_parameter (sd_parameters item)
  ∧ cols σ' = cols σ ++ [seq (length (pars σ)) (length (sd_parameters item))]
  ∧ ∃ eo, mods σ' = mods σ ++ [eo]
          ∧ m_class eo = sd_type item ∧ m_parameters eo = length (cols σ).
Proof.
  unfold _dict_to_spectral. intros H. destruct (sd_energy item) as [e|].
  - apply bind_inr in H as ([] & σ1 & Hg1 & H). inv_prim Hg1.
    apply bind_inr in H as (v & σ2 & Hv & H). inv_prim Hv.
    apply bind_inr in H as ([] & σ3 & Hg2 & H). inv_prim Hg2.
    apply bind_inr in H as ([] & σ4 & Hg3 & H). inv_prim Hg3.
    apply bind_inr in H as ([] & σ5 & Hg4 & H). inv_prim Hg4.
    apply bind_inr in H as (col & σ6 & Hfd & H). inv_prim H.
    apply Parameters_from_dict_spec in Hfd as (_ & -> & ->). st.
    split_and!; try done. eexists. split_and!; done.
  - apply bind_inr in H as (params & σ1 & Hkw & H).
    pose proof (reader_inr _ _ _ _ (reader_keyword_params W _) Hkw) as ->.
    apply bind_inr in H as ([] & σ2 & Hg1 & H). inv_prim Hg1.
    apply bind_inr in H as ([] & σ3 & Hg2 & H). inv_prim Hg2.
    apply bind_inr in H as (col & σ4 & Hfd & H). inv_prim H.
    apply Parameters_from_dict_spec in Hfd as (_ & -> & ->). st.
    split_and!; try done. eexists. split_and!; done.
Qed.

Lemma extends_refl σ : extends σ σ.
Proof. by split_and!. Qed.

Lemma extends_trans σ1 σ2 σ3 : extends σ1 σ2 → extends σ2 σ3 → extends σ1 σ3.
Proof. intros (?&?&?) (?&?&?). split_and!; by etrans. Qed.

Lemma lookup_prefix {A} (l1 l2 : list A) i x :
  l1 `prefix_of` l2 → l1 !! i = Some x → l2 !! i = Some x.
Proof. intros [k ->] H. by apply lookup_app_l_Some. Qed.

Lemma built_extends σ σ' c m L : built σ c m L → extends σ σ' → built σ' c m L.
Proof.
  intros (sp & se & o & so & eo & s & e & H) (Hp & Hc & Hm).
  destruct H as (H1 & H2 & H3 & H4 & H5 & H6 & H7 & H8 & H9 & H10 & H11 & H12
                 & H13 & H14 & H15 & H16 & H17 & H18 & H19 & H20).
  exists sp, se, o, so, eo, s, e.
  split_and!; try done; eauto using lookup_prefix.
  - eapply Forall2_impl; [done|]. intros a pd Ha. by eapply lookup_prefix.
  - eapply Forall2_impl; [done|]. intros a pd Ha. by eapply lookup_prefix.
Qed.

Lemma built_sky_layout σ c m L : built σ c m L → sky_layout σ m L.
Proof.
  intros (sp & se & o & so & eo & s & e & H).
  destruct H as (H1 & H2 & H3 & H4 & H5 & H6 & H7 & H8 & H9 & H10 & H11 & H12
                 & H13 & H14 & H15 & H16 & H17 & H18 & H19 & H20).
  exists o. split; [done|]. exists s, so, e, eo. split_and!; done.
Qed.

Lemma lookup_tail3 {A} (h : list A) x0 x1 x2 :
  (h ++ [x0; x1; x2]) !! length h = Some x0
  ∧ (h ++ [x0; x1; x2]) !! (length h + 1) = Some x1
  ∧ (h ++ [x0; x1; x2]) !! (length h + 2) = Some x2.
Proof.
  split_and!.
  - by rewrite list_lookup_middle.
  - rewrite lookup_app_r by lia. by replace (length h + 1 - length h) with 1 by lia.
  - rewrite lookup_app_r by lia. by replace (length h + 2 - length h) with 2 by lia.
Qed.

Lemma _dict_to_skymodel_shape W c σ m σ' :
  _dict_to_skymodel W c σ = (inr m, σ') →
  ∃ sp se so eo,
    c_spatial c = Some sp ∧ c_spectral c = Some se
    ∧ m = length (mods σ) + 2
    ∧ pars σ' = pars σ ++ map new_parameter (sd_parameters sp)
                       ++ map new_parameter (sd_parameters se)
    ∧ cols σ' = cols σ ++ [l_ps (fresh_layout σ sp se); l_pe (fresh_layout σ sp se);
                           l_ps (fresh_layout σ sp se) ++ l_pe (fresh_layout σ sp se)]
    ∧ mods σ' = mods σ ++
        [so; eo;
         {| m_class := "SkyModel"; m_name := Some (c_name c); m_filename := None;
            m_parameters := length (cols σ) + 2;
            m_spatial_model := Some (length (mods σ));
            m_spectral_model := Some (length (mods σ) + 1);
            m_energy := None; m_values := None; m_cube := None |}]
    ∧ m_class so = sd_type sp ∧ m_parameters so = length (cols σ)
    ∧ m_class eo = sd_type se ∧ m_parameters eo = length (cols σ) + 1.
Proof.
  intros H. unfold _dict_to_skymodel in H.
  apply bind_inr in H as (sp & σ1 & Hsp & H). inv_prim Hsp.
  apply bind_inr in H as (s & σ2 & Hs & H).
  apply bind_inr in H as (se & σ3 & Hse & H). inv_prim Hse.
  apply bind_inr in H as (e & σ4 & He & H).
  apply _dict_to_spatial_spec in Hs as (-> & Hp2 & Hc2 & so & Hm2 & Hso1 & Hso2).
  apply _dict_to_spectral_spec in He as (-> & Hp4 & Hc4 & eo & Hm4 & Heo1 & Heo2).
  assert (length (cols σ2) = length (cols σ) + 1) as Hlc2
    by (rewrite Hc2, length_app; simpl; lia).
  assert (length (mods σ2) = length (mods σ) + 1) as Hlm2
    by (rewrite Hm2, length_app; simpl; lia).
  assert (length (pars σ2) = length (pars σ) + length (sd_parameters sp)) as Hlp2
    by (by rewrite Hp2, length_app, length_map).
  assert (mods σ4 = mods σ ++ [so; eo]) as Hm4'
    by (by rewrite Hm4, Hm2, <- app_assoc).
  assert (cols σ4 = cols σ ++ [seq (length (pars σ)) (length (sd_parameters sp));
                               seq (length (pars σ) + length (sd_parameters sp))
                                   (length (sd_parameters se))]) as Hc4'
    by (by rewrite Hc4, Hc2, Hlp2, <- app_assoc).
  unfold SkyModel in H.
  apply bind_inr in H as (ps & σ5 & Hps & H).
  apply model_parameters_inr in Hps as (-> & _ & so' & Hso' & Hps).
  apply bind_inr in H as (pe & σ6 & Hpe & H).
  apply model_parameters_inr in Hpe as (-> & _ & eo' & Heo' & Hpe).
  apply bind_inr in H as (col & σ7 & Hcol & H). inv_prim Hcol. inv_prim H. st.
  rewrite Hm4' in Hso', Heo'.
  rewrite lookup_app_r in Hso', Heo' by lia.
  rewrite Nat.sub_diag in Hso'. injection Hso' as <-.
  rewrite Hlm2 in Heo'.
  replace (length (mods σ) + 1 - length (mods σ)) with 1 in Heo' by lia.
  injection Heo' as <-.
  rewrite Hc4' in Hps, Hpe. rewrite Hso2 in Hps. rewrite Heo2, Hlc2 in Hpe.
  rewrite lookup_app_r in Hps, Hpe by lia.
  rewrite Nat.sub_diag in Hps. injection Hps as <-.
  replace (length (cols σ) + 1 - length (cols σ)) with 1 in Hpe by lia.
  injection Hpe as <-.
  exists sp, se, so, eo. unfold fresh_layout. simpl.
  split_and!; try done.
  - rewrite Hm4', length_app. simpl. done.
  - by rewrite Hp4, Hp2, <- app_assoc.
  - by rewrite Hc4', <- app_assoc.
  - rewrite Hm4', <- app_assoc. simpl. rewrite Hc4', length_app. simpl.
    by rewrite Hlm2.
  - by rewrite Heo2, Hlc2.
Qed.

Lemma Forall2_new_parameters (h : list ParameterObj) pds k :
  Forall2 (λ a pd, (h ++ map new_parameter pds ++ k) !! a = Some (new_parameter pd))
    (seq (length h) (length pds)) pds.
Proof.
  revert h. induction pds as [|pd pds IH]; intros h; simpl; [constructor|].
  constructor.
  - by rewrite list_lookup_middle.
  - specialize (IH (h ++ [new_parameter pd])). rewrite length_app in IH. simpl in IH.
    rewrite Nat.add_1_r in IH. eapply Forall2_impl; [done|].
    intros a y Ha. simpl in Ha. by rewrite <- app_assoc in Ha.
Qed.

Lemma _dict_to_skymodel_spec W c σ m σ' :
  c_model c = None →
  _dict_to_skymodel W c σ = (inr m, σ') →
  ∃ sp se,
    c_spatial c = Some sp ∧ c_spectral c = Some se
    ∧ extends σ σ'
    ∧ built σ' c m (fresh_layout σ sp se)
    ∧ length (cols σ') = length (cols σ) + 3
    ∧ length (pars σ') = length (pars σ) + length (sd_parameters sp)
                         + length (sd_parameters se).
Proof.
  intros Hsky H.
  apply _dict_to_skymodel_shape in H
    as (sp & se & so & eo & Hsp & Hse & -> & Hp & Hc & Hm & Hso1 & Hso2 & Heo1 & Heo2).
  exists sp, se.
  destruct (lookup_tail3 (mods σ) so eo
              {| m_class := "SkyModel"; m_name := Some (c_name c); m_filename := None;
                 m_parameters := length (cols σ) + 2;
                 m_spatial_model := Some (length (mods σ));
                 m_spectral_model := Some (length (mods σ) + 1);
                 m_energy := None; m_values := None; m_cube := None |})
    as (Hm0 & Hm1 & Hm2).
  destruct (lookup_tail3 (cols σ) (l_ps (fresh_layout σ sp se))
              (l_pe (fresh_layout σ sp se))
              (l_ps (fresh_layout σ sp se) ++ l_pe (fresh_layout σ sp se)))
    as (Hc0 & Hc1 & Hc2).
  rewrite <- Hm in Hm0, Hm1, Hm2. rewrite <- Hc in Hc0, Hc1, Hc2.
  split_and!; try done.
  - split_and!; [rewrite Hp|rewrite Hc|rewrite Hm]; by eexists.
  - exists sp, se. do 5 eexists. split_and!; try done.
    + rewrite Hp. apply Forall2_new_parameters.
    + rewrite Hp. simpl.
      pose proof (Forall2_new_parameters (pars σ ++ map new_parameter (sd_parameters sp))
                    (sd_parameters se) []) as HF.
      by rewrite length_app, !length_map, app_nil_r, <- app_assoc in HF.
  - rewrite Hc, length_app. simpl. lia.
  - rewrite Hp, !length_app, !length_map. lia.
Qed.

Lemma fresh_layout_cols σ sp se c :
  c ∈ layout_cols (fresh_layout σ sp se) →
  length (cols σ) ≤ c < length (cols σ) + 3.
Proof.
  unfold layout_cols, fresh_layout. simpl.
  rewrite !elem_of_cons, elem_of_nil. lia.
Qed.

Lemma fresh_layout_params_eq σ sp se :
  layout_params (fresh_layout σ sp se)
  = seq (length (pars σ)) (length (sd_parameters sp) + length (sd_parameters se)).
Proof. unfold layout_params, fresh_layout. simpl. by rewrite seq_app. Qed.

Lemma fresh_layout_params σ sp se a :
  a ∈ layout_params (fresh_layout σ sp se) →
  length (pars σ) ≤ a
  < length (pars σ) + length (sd_parameters sp) + length (sd_parameters se).
Proof.
  rewrite fresh_layout_params_eq. rewrite list_elem_of_In, in_seq. lia.
Qed.

Lemma fresh_layout_cols_NoDup σ sp se : NoDup (layout_cols (fresh_layout σ sp se)).
Proof.
  unfold layout_cols, fresh_layout. simpl.
  repeat (apply NoDup_cons; split; [rewrite ?elem_of_cons, elem_of_nil; lia|]).
  apply NoDup_nil_2.
Qed.

Lemma dict_to_models_loop_spec W cs acc σ ms σ1 :
  dict_to_models_loop W cs acc σ = (inr ms, σ1) →
  ∃ mLs : list (nat * Layout),
    ms = acc ++ mLs.*1
    ∧ extends σ σ1
    ∧ Forall2 (λ c mL, built σ1 c mL.1 mL.2) (filter is_sky cs) mLs
    ∧ NoDup (layouts_cols mLs.*2)
    ∧ NoDup (layouts_params mLs.*2)
    ∧ (∀ c, c ∈ layouts_cols mLs.*2 → length (cols σ) ≤ c)
    ∧ (∀ a, a ∈ layouts_params mLs.*2 → length (pars σ) ≤ a).
Proof.
  revert acc σ. induction cs as [|c cs IH]; intros acc σ; simpl.
  - intros H. inv_prim H. exists []. simpl. rewrite app_nil_r.
    split_and!; try done; try apply NoDup_nil_2; try apply extends_refl.
    + intros c Hc. by apply elem_of_nil in Hc.
    + intros a Ha. by apply elem_of_nil in Ha.
  - destruct (c_model c) as [sub|] eqn:Hsub.
    + case_decide; [|done]. intros Hrun. apply IH in Hrun as (mLs & Hrun).
      exists mLs. rewrite filter_cons_False; [done|].
      unfold is_sky. by rewrite Hsub.
    + intros H. apply bind_inr in H as (m & σ' & Hm & H).
      apply _dict_to_skymodel_spec in Hm
        as (sp & se & Hsp & Hse & Hext & Hbuilt & Hlc & Hlp); [|done].
      apply IH in H as (mLs & -> & Hext' & Hall & Hndc & Hndp & Hbc & Hbp).
      exists ((m, fresh_layout σ sp se) :: mLs).
      rewrite filter_cons_True by done.
      unfold layouts_cols, layouts_params in *. cbn [fmap list_fmap map concat fst snd].
      split_and!.
      * by rewrite <- app_assoc.
      * by eapply extends_trans.
      * constructor; [|done]. simpl. by eapply built_extends.
      * apply NoDup_app. split_and!; [apply fresh_layout_cols_NoDup| |done].
        intros x Hx Hx'. apply fresh_layout_cols in Hx. apply Hbc in Hx'. lia.
      * apply NoDup_app. split_and!; [|  |done].
        -- rewrite fresh_layout_params_eq. apply NoDup_ListNoDup, seq_NoDup.
        -- intros x Hx Hx'. apply fresh_layout_params in Hx. apply Hbp in Hx'. lia.
      * intros x Hx. apply elem_of_app in Hx as [Hx|Hx].
        -- apply fresh_layout_cols in Hx. lia.
        -- apply Hbc in Hx. lia.
      * intros x Hx. apply elem_of_app in Hx as [Hx|Hx].
        -- apply fresh_layout_params in Hx. lia.
        -- apply Hbp in Hx. lia.
Qed.

(** ** The record of a composite model *)

Lemma new_parameter_encode p : new_parameter (encode p) = p.
Proof. by destruct p. Qed.

Lemma Parameter_to_dict_inr sel p pd σ σ' :
  Parameter_to_dict sel p σ = (inr pd, σ') → pd = encode p ∧ σ' = σ.
Proof. unfold Parameter_to_dict. case_decide; [|done]. by intros [= <- <-]. Qed.

Lemma traverse_encode sel ps σ pds σ' :
  traverse (λ a, p ← get_par a; Parameter_to_dict sel p) ps σ = (inr pds, σ') →
  Forall2 (encodes σ) ps pds.
Proof.
  revert pds σ'. induction ps as [|a ps IH]; intros pds σ'; simpl.
  - intros H. inv_prim H. constructor.
  - intros H. apply bind_inr in H as (pd & σ1 & Hpd & H).
    apply bind_inr in Hpd as (p & σ2 & Hp & Hpd). apply get_par_inr in Hp as [Hp ->].
    apply Parameter_to_dict_inr in Hpd as [-> ->].
    apply bind_inr in H as (pds' & σ3 & Hpds & H). inv_prim H.
    constructor; [by exists p|]. by eapply IH.
Qed.

Lemma Model_to_dict_spec m sel σ d σ' :
  Model_to_dict m sel σ = (inr d, σ') →
  ∃ o ps, mods σ !! m = Some o ∧ cols σ !! m_parameters o = Some ps
          ∧ sd_type d = m_class o
          ∧ Forall2 (encodes σ) ps (sd_parameters d).
Proof.
  unfold Model_to_dict. intros H.
  apply bind_inr in H as (o & σ1 & Ho & H). apply get_mod_inr in Ho as [Ho ->].
  apply bind_inr in H as (ps & σ2 & Hps & H). apply get_col_inr in Hps as [Hps ->].
  apply bind_inr in H as (pds & σ3 & Hpds & H). inv_prim H.
  exists o, ps. split_and!; try done. by eapply traverse_encode.
Qed.

Lemma with_filename_parameters f d :
  sd_parameters (with_filename f d) = sd_parameters d
  ∧ sd_type (with_filename f d) = sd_type d.
Proof. by destruct f. Qed.

Lemma _model_to_dict_sky m sel σ rec σ' L :
  sky_layout σ m L →
  _model_to_dict m sel σ = (inr rec, σ') →
  ∃ o so eo s e sp se,
    mods σ !! m = Some o
    ∧ m_spatial_model o = Some s ∧ mods σ !! s = Some so
    ∧ m_spectral_model o = Some e ∧ mods σ !! e = Some eo
    ∧ c_model rec = None ∧ c_spatial rec = Some sp ∧ c_spectral rec = Some se
    ∧ c_name rec = default (m_class o) (m_name o)
    ∧ sd_type sp = m_class so ∧ sd_type se = m_class eo
    ∧ Forall2 (encodes σ) (l_ps L) (sd_parameters sp)
    ∧ Forall2 (encodes σ) (l_pe L) (sd_parameters se).
Proof.
  intros (o & Ho & s & so & e & eo & Hcls & Hpo & Hs & Hso & Hpso & He & Heo & Hpeo
          & Hct & Hcs & Hce) H.
  unfold _model_to_dict in H.
  apply bind_inr in H as (o' & σ1 & Ho' & H). apply get_mod_inr in Ho' as [Ho' ->].
  rewrite Ho in Ho'. injection Ho' as <-.
  rewrite decide_True in H by done. rewrite Hs, He in H.
  apply bind_inr in H as (s' & σ2 & Hs' & H). inv_prim Hs'. injection Hs' as <-.
  apply bind_inr in H as (dsp & σ3 & Hdsp & H).
  pose proof (reader_inr _ _ _ _ (reader_Model_to_dict _ _) Hdsp) as ->.
  apply bind_inr in H as (so' & σ4 & Hso' & H). apply get_mod_inr in Hso' as [Hso' ->].
  apply bind_inr in H as (e' & σ5 & He' & H). inv_prim He'. injection He' as <-.
  apply bind_inr in H as (dse & σ6 & Hdse & H).
  pose proof (reader_inr _ _ _ _ (reader_Model_to_dict _ _) Hdse) as ->.
  inv_prim H.
  apply Model_to_dict_spec in Hdsp as (o1 & ps1 & Ho1 & Hps1 & Hty1 & Hall1).
  apply Model_to_dict_spec in Hdse as (o2 & ps2 & Ho2 & Hps2 & Hty2 & Hall2).
  rewrite Hso in Ho1. injection Ho1 as <-. rewrite Heo in Ho2. injection Ho2 as <-.
  rewrite Hpso, Hcs in Hps1. injection Hps1 as <-.
  rewrite Hpeo, Hce in Hps2. injection Hps2 as <-.
  exists o, so, eo, s, e, (with_filename (m_filename so') dsp), dse. simpl.
  destruct (with_filename_parameters (m_filename so') dsp) as [-> ->].
  split_and!; done.
Qed.

(** ** Reading back and linking *)

Lemma built_valid σ c m L a :
  built σ c m L → a ∈ layout_params L → is_Some (pars σ !! a).
Proof.
  intros (sp & se & o & so & eo & s & e & H) Ha.
  destruct H as (_ & _ & _ & _ & _ & _ & _ & _ & _ & _ & _ & _
                 & _ & _ & _ & _ & _ & _ & H19 & H20).
  unfold layout_params in Ha. apply elem_of_app in Ha as [Ha|Ha].
  - apply list_elem_of_lookup in Ha as [i Hi].
    destruct (Forall2_lookup_l _ _ _ _ _ H19 Hi) as (pd & _ & Hpd). by eexists.
  - apply list_elem_of_lookup in Ha as [i Hi].
    destruct (Forall2_lookup_l _ _ _ _ _ H20 Hi) as (pd & _ & Hpd). by eexists.
Qed.

Lemma dict_to_models_link W out σ1 ms' σ2 :
  dict_to_models W out true σ1 = (inr ms', σ2) →
  ∃ σl (mLs : list (nat * Layout)) reg,
    ms' = mLs.*1
    ∧ Forall2 (λ c mL, built σl c mL.1 mL.2) (filter is_sky (components out)) mLs
    ∧ separate σl ms' mLs.*2
    ∧ link_inv σl mLs.*2 (layouts_params mLs.*2) reg σ2.
Proof.
  unfold dict_to_models. intros H.
  apply bind_inr in H as (ms & σl & Hloop & H).
  apply bind_inr in H as ([] & σ3 & Hlink & H). inv_prim H.
  apply dict_to_models_loop_spec in Hloop
    as (mLs & -> & _ & Hall & Hndc & Hndp & _ & _).
  simpl in *.
  assert (separate σl mLs.*1 mLs.*2) as Hsep.
  { split_and!; try done.
    - clear -Hall. induction Hall as [|c [m L] cs mLs Hb Hall IH]; simpl; constructor.
      + by eapply built_sky_layout.
      + done.
    - intros a Ha. apply elem_of_concat_map in Ha as (L & HL & Ha).
      apply list_elem_of_fmap in HL as ([m L'] & -> & HmL).
      apply list_elem_of_lookup in HmL as [k Hk].
      destruct (Forall2_lookup_r _ _ _ _ _ Hall Hk) as (c & _ & Hb).
      by eapply built_valid. }
  destruct (link_separate _ _ _ Hsep) as (reg & σ' & Hrun & Hinv).
  rewrite Hrun in Hlink. injection Hlink as <-.
  by exists σl, mLs, reg.
Qed.

Lemma filter_sky_index cs k c :
  cs !! k = Some c → is_sky c → filter is_sky cs !! sky_index cs k = Some c.
Proof.
  unfold sky_index. revert k. induction cs as [|x cs IH]; intros k Hk Hc; [done|].
  destruct k as [|k]; simpl in *.
  - injection Hk as ->. by rewrite filter_cons_True.
  - destruct (decide (is_sky x)).
    + rewrite !filter_cons_True by done. simpl. by apply IH.
    + rewrite !filter_cons_False by done. by apply IH.
Qed.

Lemma reconstructed_spec out (mLs : list (nat * Layout)) σl rec :
  Forall2 (λ c mL, built σl c mL.1 mL.2) (filter is_sky (components out)) mLs →
  rec ∈ components out → is_sky rec →
  ∃ r L, reconstructed out mLs.*1 rec = Some r
         ∧ (r, L) ∈ mLs ∧ built σl rec r L.
Proof.
  intros Hall Hrec Hsky.
  destruct (list_index_elem _ _ Hrec) as [k Hk].
  pose proof Hk as Hk'. apply list_index_Some in Hk' as [Hk' _].
  pose proof (filter_sky_index _ _ _ Hk' Hsky) as Hf.
  destruct (Forall2_lookup_l _ _ _ _ _ Hall Hf) as ([r L] & HmL & Hb).
  exists r, L. split_and!.
  - unfold reconstructed. rewrite Hk. simpl. by rewrite list_lookup_fmap, HmL.
  - by eapply list_elem_of_lookup_2.
  - done.
Qed.

(** ** The round trip *)

Lemma layout_of_spec σ m L : layout_of σ m = Some L → sky_layout σ m L.
Proof.
  unfold layout_of. intros H.
  destruct (mods σ !! m) as [o|] eqn:Ho; [|done]. simpl in H.
  destruct (m_spatial_model o) as [sp|] eqn:Hsp; [|done]. simpl in H.
  destruct (mods σ !! sp) as [so|] eqn:Hso; [|done]. simpl in H.
  destruct (m_spectral_model o) as [se|] eqn:Hse; [|done]. simpl in H.
  destruct (mods σ !! se) as [eo|] eqn:Heo; [|done]. simpl in H.
  destruct (cols σ !! m_parameters o) as [top|] eqn:Htop; [|done]. simpl in H.
  destruct (cols σ !! m_parameters so) as [ps|] eqn:Hps; [|done]. simpl in H.
  destruct (cols σ !! m_parameters eo) as [pe|] eqn:Hpe; [|done]. simpl in H.
  case_decide as Hd; [|done]. destruct Hd as [Hcls ->]. injection H as <-.
  exists o. split; [done|]. exists sp, so, se, eo. simpl. split_and!; done.
Qed.

Lemma view_intro σ m o s so e eo top ps pe tops pss pes :
  mods σ !! m = Some o →
  m_spatial_model o = Some s → mods σ !! s = Some so →
  m_spectral_model o = Some e → mods σ !! e = Some eo →
  cols σ !! m_parameters o = Some top →
  Forall2 (λ a p, pars σ !! a = Some p) top tops →
  cols σ !! m_parameters so = Some ps →
  Forall2 (λ a p, pars σ !! a = Some p) ps pss →
  cols σ !! m_parameters eo = Some pe →
  Forall2 (λ a p, pars σ !! a = Some p) pe pes →
  view σ m = Some {| v_class := m_class o; v_name := default (m_class o) (m_name o);
                     v_spatial := m_class so; v_spectral := m_class eo;
                     v_parameters := tops; v_spatial_parameters := pss;
                     v_spectral_parameters := pes |}.
Proof.
  intros Ho Hs Hso He Heo Htop Htops Hps Hpss Hpe Hpes. unfold view.
  rewrite Ho. simpl. rewrite Hs. simpl. rewrite Hso. simpl. rewrite He. simpl.
  rewrite Heo. simpl. rewrite Htop. simpl.
  rewrite (mapM_Some_2 _ _ _ Htops). simpl. rewrite Hps. simpl.
  rewrite (mapM_Some_2 _ _ _ Hpss). simpl. rewrite Hpe. simpl.
  rewrite (mapM_Some_2 _ _ _ Hpes). done.
Qed.

Lemma scan_unshared flat : NoDup flat → (scan_shared flat [] []).2 = [].
Proof.
  intros Hnd. destruct (scan_shared flat [] []).2 as [|a l] eqn:E; [done|].
  assert (a ∈ (scan_shared flat [] []).2) as Ha by (rewrite E; by left).
  apply scan_shared_shared in Ha as [Ha|[[Ha _]|(i & j & Hij & Hi & Hj)]].
  - by apply elem_of_nil in Ha.
  - by apply elem_of_nil in Ha.
  - pose proof (NoDup_lookup _ _ _ _ Hnd Hi Hj). lia.
Qed.

Lemma renamed_unshared models σ :
  NoDup (all_params σ models) →
  (_rename_shared_parameters models σ).1 = inr tt →
  renamed models σ = σ.
Proof.
  intros Hnd H. unfold renamed. unfold _rename_shared_parameters in *.
  destruct (scan_models models [] [] σ) as [[e|[seen shared]] σ1] eqn:Hscan.
  - rewrite (bind_fail _ _ _ _ _ Hscan) in H. done.
  - rewrite (bind_run _ _ _ _ _ Hscan).
    apply scan_models_inr in Hscan as [-> Hscan].
    assert (shared = []) as ->.
    { replace shared with (scan_shared (all_params σ models) [] []).2
        by by rewrite <- Hscan. by apply scan_unshared. }
    done.
Qed.

Lemma link_inv_unlinked σl Ls done reg σ2 a :
  link_inv σl Ls done reg σ2 →
  has_at (name_in σl a) = false →
  pars σ2 !! a = pars σl !! a ∧ final_in (name_in σl) done a = a.
Proof.
  intros (_ & _ & HP & _) Hat. split.
  - rewrite HP. rewrite decide_False; [done|]. rewrite Hat. naive_solver.
  - unfold final_in. rewrite Hat. by case_decide.
Qed.

Lemma encodes_new_parameter σ l pds :
  Forall2 (encodes σ) l pds →
  Forall2 (λ a p, pars σ !! a = Some p) l (map new_parameter pds).
Proof.
  induction 1 as [|a pd l pds (p & Hp & ->) Hall IH]; simpl; constructor; [|done].
  by rewrite new_parameter_encode.
Qed.

Lemma encodes_names σ l pds (P : string → Prop) :
  Forall2 (encodes σ) l pds →
  (∀ a p, a ∈ l → pars σ !! a = Some p → P (par_name p)) →
  Forall (λ pd, P (pd_name pd)) pds.
Proof.
  induction 1 as [|a pd l pds (p & Hp & ->) Hall IH]; intros HP; constructor.
  - simpl. eapply HP; [by left|done].
  - apply IH. intros a' p' Ha'. apply HP. by right.
Qed.

Lemma all_params_elem σ models m a :
  m ∈ models → a ∈ params_of σ m → a ∈ all_params σ models.
Proof. intros Hm Ha. apply elem_of_concat_map. eauto. Qed.

Lemma sky_layout_params_of σ m L : sky_layout σ m L → params_of σ m = l_ps L ++ l_pe L.
Proof.
  intros (o & Ho & sp & so & se & eo & _ & Hpo & _ & _ & _ & _ & _ & _ & Htop & _).
  unfold params_of. by rewrite Ho, Hpo, Htop.
Qed.

(** Slots whose objects bear names without at-sign are left alone by the
    linking pass. *)
Lemma linked_plain σl Ls reg σ2 c l pds :
  link_inv σl Ls (layouts_params Ls) reg σ2 →
  cols σl !! c = Some l →
  Forall2 (λ a pd, pars σl !! a = Some (new_parameter pd)) l pds →
  Forall (λ pd, has_at (pd_name pd) = false) pds →
  cols σ2 !! c = Some l
  ∧ Forall2 (λ a p, pars σ2 !! a = Some p) l (map new_parameter pds).
Proof.
  intros Hinv Hc Hall Hfree.
  assert (∀ a, a ∈ l → has_at (name_in σl a) = false) as Hno.
  { intros a Ha. apply list_elem_of_lookup in Ha as [i Hi].
    destruct (Forall2_lookup_l _ _ _ _ _ Hall Hi) as (pd & Hpd & Hp).
    unfold name_in. rewrite Hp. simpl.
    eapply (Forall_lookup_1 _ _ _ _ Hfree Hpd). }
  split.
  - destruct Hinv as (_ & _ & _ & HC). rewrite HC, Hc. case_decide; [|done].
    simpl. f_equal. rewrite <- (map_id l) at 2. apply map_ext_in. intros a Ha.
    unfold final_in. rewrite Hno by by apply list_elem_of_In. by case_decide.
  - clear Hc. induction Hall as [|a pd l pds Hp Hall IH]; simpl; constructor.
    + destruct (link_inv_unlinked _ _ _ _ _ a Hinv) as [-> _]; [|done].
      apply Hno. by left.
    + apply IH.
      * by eapply Forall_inv_tail.
      * intros a' Ha'. apply Hno. by right.
Qed.

Lemma cycle_inv W models sel σ out ms' :
  (cycle W models sel σ).1 = inr (out, ms') →
  ∃ σ1,
    models_to_dict models sel σ = (inr out, σ1)
    ∧ dict_to_models W out true σ1 = (inr ms', (cycle W models sel σ).2).
Proof.
  intros H. apply run_fst in H as [σ2 H]. rewrite H. simpl. unfold cycle in H.
  apply bind_inr in H as (out' & σ1 & Hout & H).
  apply bind_inr in H as (ms & σ3 & Hms & H). apply ret_inr in H as [[= <- <-] ->].
  by exists σ1.
Qed.

Lemma record_in_output models sel σ out σ1 i m :
  models_to_dict models sel σ = (inr out, σ1) →
  models !! i = Some m →
  ∃ rec,
    _model_to_dict m sel (renamed models σ) = (inr rec, renamed models σ)
    ∧ record_of models sel σ m = inr rec
    ∧ rec ∈ components out.
Proof.
  intros H Hi. apply models_to_dict_inv in H as (recs & _ & Hrecs & -> & _).
  destruct (Forall2_lookup_l _ _ _ _ _ Hrecs Hi) as (rec & Hrec & Hmr).
  exists rec. split_and!; [done| |].
  - unfold record_of. by rewrite Hmr.
  - apply foldl_add_record_elem. right. by eapply list_elem_of_lookup_2.
Qed.

(** C2 (as the code has it). For a list of models with no shared parameter
    object and no at-sign in a parameter name, whenever serialising and
    reading back return normally, every composite model of the list whose
    own collection lists the parameters of its spatial part followed by
    those of its spectral part (as the constructor of [SkyModel] builds it)
    is read back as a model with the same class, name, part types and parameters
    (name, value, unit, frozen flag), slot by slot. *)
Theorem roundtrip_composite W models sel σ out ms' i m L :
  (cycle W models sel σ).1 = inr (out, ms') →
  unshared σ models = true →
  at_free σ models = true →
  models !! i = Some m →
  layout_of σ m = Some L →
  ∃ rec r v,
    record_of models sel σ m = inr rec
    ∧ reconstructed out ms' rec = Some r
    ∧ view σ m = Some v
    ∧ view (cycle W models sel σ).2 r = Some v.
Proof.
  intros Hcycle Hun Hfree Hi HL.
  apply cycle_inv in Hcycle as (σ1 & Hser & Hread).
  set (σ2 := (cycle W models sel σ).2) in *. clearbody σ2.
  apply layout_of_spec in HL.
  pose proof (sky_layout_params_of _ _ _ HL) as Hparams.
  assert (renamed models σ = σ) as Hσ.
  { apply renamed_unshared; [by apply bool_decide_eq_true in Hun|].
    by apply models_to_dict_inv in Hser as (_ & ? & _). }
  destruct (record_in_output _ _ _ _ _ _ _ Hser Hi) as (rec & Hrec & Hrecof & Hin).
  rewrite Hσ in Hrec.
  destruct (_model_to_dict_sky _ _ _ _ _ _ HL Hrec)
    as (o & so & eo & s & e & sp & se & Ho & Hs & Hso & He & Heo & Hcm & Hcsp & Hcse
        & Hname & Htsp & Htse & Hesp & Hese).
  destruct HL as (o_ & Ho_ & s_ & so_ & e_ & eo_ & Hcls & Hpo & Hs_ & Hso_ & Hpso
                  & He_ & Heo_ & Hpeo & Hct & Hcs & Hce).
  rewrite Ho in Ho_. injection Ho_ as <-.
  rewrite Hs in Hs_. injection Hs_ as <-. rewrite Hso in Hso_. injection Hso_ as <-.
  rewrite He in He_. injection He_ as <-. rewrite Heo in Heo_. injection Heo_ as <-.
  apply dict_to_models_link in Hread as (σl & mLs & reg & -> & Hall & Hsep & Hinv).
  destruct (reconstructed_spec _ _ _ _ Hall Hin Hcm) as (r & L' & Hr & HrL & Hb).
  destruct Hb as (sp' & se' & o' & so' & eo' & s' & e' & _ & Hcsp' & Hcse' & Ho' & Hcls'
                  & Hname' & Hpo' & Hs' & Hso' & Htsp' & Hpso' & He' & Heo' & Htse'
                  & Hpeo' & Hct' & Hcs' & Hce' & Hbsp & Hbse).
  rewrite Hcsp in Hcsp'. injection Hcsp' as <-.
  rewrite Hcse in Hcse'. injection Hcse' as <-.
  assert (∀ a p, a ∈ l_ps L ++ l_pe L → pars σ !! a = Some p →
                 has_at (par_name p) = false) as Hnoat.
  { intros a p Ha Hp. eapply at_free_spec; [done| |done].
    eapply all_params_elem; [by eapply list_elem_of_lookup_2|]. by rewrite Hparams. }
  assert (Forall (λ pd, has_at (pd_name pd) = false) (sd_parameters sp)) as Hfsp.
  { eapply (encodes_names _ _ _ (λ n, has_at n = false)); [done|].
    intros a p Ha. apply Hnoat. apply elem_of_app. by left. }
  assert (Forall (λ pd, has_at (pd_name pd) = false) (sd_parameters se)) as Hfse.
  { eapply (encodes_names _ _ _ (λ n, has_at n = false)); [done|].
    intros a p Ha. apply Hnoat. apply elem_of_app. by right. }
  destruct (linked_plain _ _ _ _ _ _ _ Hinv Hcs' Hbsp Hfsp) as (Hcs2 & Hps2).
  destruct (linked_plain _ _ _ _ _ _ _ Hinv Hce' Hbse Hfse) as (Hce2 & Hpe2).
  destruct (linked_plain _ _ _ _ _ (l_ps L' ++ l_pe L')
              (sd_parameters sp ++ sd_parameters se) Hinv Hct') as (Hct2 & Hpt2).
  { by apply Forall2_app. }
  { by apply Forall_app. }
  pose proof (inv_mods _ _ _ _ _ Hinv) as Hmods.
  exists rec, r. eexists. split_and!; [done..| |].
  - eapply (view_intro σ m o s so e eo (l_ps L ++ l_pe L) (l_ps L) (l_pe L)
              _ _ _ Ho Hs Hso He Heo).
    + rewrite Hpo. exact Hct.
    + apply Forall2_app; by apply encodes_new_parameter.
    + rewrite Hpso. exact Hcs.
    + by apply encodes_new_parameter.
    + rewrite Hpeo. exact Hce.
    + by apply encodes_new_parameter.
  - rewrite (view_intro σ2 r o' s' so' e' eo' (l_ps L' ++ l_pe L') (l_ps L') (l_pe L')
               (map new_parameter (sd_parameters sp ++ sd_parameters se))
               (map new_parameter (sd_parameters sp))
               (map new_parameter (sd_parameters se)));
      try (rewrite Hmods; done); try done.
    + rewrite Hcls', Hname', Hname, Htsp', Htse', Htsp, Htse, map_app. simpl.
      by rewrite Hcls.
    + by rewrite Hpo'.
    + by rewrite Hpso'.
    + by rewrite Hpeo'.
Qed.

Lemma roundtrip_composite_witness :
  ∃ rec r v,
    record_of [2; 6] "all" demo_store 2 = inr rec
    ∧ reconstructed
        (returned (no_components, []) (cycle demo_world [2; 6] "all") demo_store).1
        (returned (no_components, []) (cycle demo_world [2; 6] "all") demo_store).2
        rec = Some r
    ∧ view demo_store 2 = Some v
    ∧ view (cycle demo_world [2; 6] "all" demo_store).2 r = Some v.
Proof.
  apply (roundtrip_composite demo_world [2; 6] "all" demo_store _ _ 0 2
           {| l_top := 2; l_spatial := 0; l_spectral := 1;
              l_ps := [0; 1]; l_pe := [2; 3; 4] |}).
  - vm_compute. reflexivity.
  - vm_compute. reflexivity.
  - vm_compute. reflexivity.
  - reflexivity.
  - vm_compute. reflexivity.
Defined.

(** C2 fails as stated, twice over.  A background model of the list is not
    read back at all.  And two composite models whose spectral indices are
    distinct objects bearing one name with an at-sign are read back sharing
    the first model's index: the second comes back with index 2, not 3. *)
Lemma roundtrip_fails :
  (unshared demo_store [6] = true
   ∧ ∃ out, (cycle demo_world [6] "all" demo_store).1 = inr (out, []))
  ∧ (unshared at_store [2; 5] = true
     ∧ ∃ out rec,
         (cycle demo_world [2; 5] "all" at_store).1 = inr (out, [8; 11])
         ∧ record_of [2; 5] "all" at_store 5 = inr rec
         ∧ reconstructed out [8; 11] rec = Some 11
         ∧ value_at at_store 5 2 = Some (num 3)
         ∧ value_at (cycle demo_world [2; 5] "all" at_store).2 11 2
           = Some (num 2)).
Proof.
  split.
  - split; [vm_compute; reflexivity|]. eexists. vm_compute. reflexivity.
  - split; [vm_compute; reflexivity|]. eexists _, _.
    split_and!; vm_compute; reflexivity.
Qed.

(** ** Shared parameters through the cycle *)

Lemma twice_app_l a l1 l2 : twice a l1 → twice a (l1 ++ l2).
Proof.
  intros (i & j & Hij & Hi & Hj). exists i, j.
  split_and!; [done|by apply lookup_app_l_Some..].
Qed.

Lemma twice_app_r a l1 l2 : twice a l2 → twice a (l1 ++ l2).
Proof.
  intros (i & j & Hij & Hi & Hj). exists (length l1 + i), (length l1 + j).
  split_and!; [lia|by rewrite lookup_app_r, Nat.add_sub' by lia..].
Qed.

Lemma twice_app_both a l1 l2 : a ∈ l1 → a ∈ l2 → twice a (l1 ++ l2).
Proof.
  intros H1 H2. apply list_elem_of_lookup in H1 as [i Hi].
  apply list_elem_of_lookup in H2 as [j Hj]. exists i, (length l1 + j).
  split_and!.
  - apply lookup_lt_Some in Hi. lia.
  - by apply lookup_app_l_Some.
  - by rewrite lookup_app_r, Nat.add_sub' by lia.
Qed.

Lemma twice_concat (ls : list (list nat)) i j l1 l2 a b p :
  ls !! i = Some l1 → ls !! j = Some l2 →
  l1 !! a = Some p → l2 !! b = Some p →
  (i, a) ≠ (j, b) →
  twice p (concat ls).
Proof.
  revert i j. induction ls as [|l ls IH]; intros i j Hi Hj Ha Hb Hne; [done|].
  assert (∀ k l', ls !! k = Some l' → p ∈ l' → p ∈ concat ls) as Hin.
  { intros k l' Hk Hp. rewrite <- (map_id ls). apply (elem_of_concat_map id ls p).
    exists l'. split; [by eapply list_elem_of_lookup_2|done]. }
  simpl. destruct i as [|i], j as [|j]; simpl in *.
  - simplify_eq. apply twice_app_l.
    destruct (Nat.lt_total a b) as [Hlt|[-> |Hlt]]; [|done|].
    + by exists a, b.
    + by exists b, a.
  - simplify_eq. apply twice_app_both.
    + by eapply list_elem_of_lookup_2.
    + eapply Hin; [done|]. by eapply list_elem_of_lookup_2.
  - simplify_eq. apply twice_app_both.
    + by eapply list_elem_of_lookup_2.
    + eapply Hin; [done|]. by eapply list_elem_of_lookup_2.
  - apply twice_app_r. eapply (IH i j); try done. intros [= -> ->]. done.
Qed.

Lemma shared_after_rename models σ σr i j mi mj a b p :
  _rename_shared_parameters models σ = (inr tt, σr) →
  models !! i = Some mi → models !! j = Some mj →
  params_of σ mi !! a = Some p → params_of σ mj !! b = Some p →
  (i, a) ≠ (j, b) →
  is_Some (pars σr !! p) →
  has_at (name_in σr p) = true.
Proof.
  intros Hren Hi Hj Ha Hb Hne [pr Hpr].
  apply _rename_shared_parameters_spec in Hren as [_ Hp]. simpl in Hp.
  assert (twice p (all_params σ models)) as Htw.
  { unfold all_params.
    eapply (twice_concat _ i j (params_of σ mi) (params_of σ mj) a b);
      [| |done|done|done].
    - change (map (params_of σ) models) with (params_of σ <$> models).
      by rewrite list_lookup_fmap, Hi.
    - change (map (params_of σ) models) with (params_of σ <$> models).
      by rewrite list_lookup_fmap, Hj. }
  assert (p ∈ (scan_shared (all_params σ models) [] []).2) as Hsh.
  { apply scan_shared_shared. by right; right. }
  destruct (list_index_elem _ _ Hsh) as [t Ht].
  unfold name_in. rewrite Hp, Ht in Hpr |- *.
  destruct (pars σ !! p) as [p0|]; [|done]. simpl. apply has_at_shared_name.
Qed.

Lemma set_value_lookup q v σ p :
  pars σ !! q = Some p →
  par_value <$> pars (set_value q v σ) !! q = Some v.
Proof.
  intros Hp. unfold set_value. st. rewrite Hp.
  rewrite list_lookup_insert_eq by by eapply lookup_lt_Some. done.
Qed.

Lemma linked_cols σl Ls done reg σ2 L c l :
  link_inv σl Ls done reg σ2 → L ∈ Ls → c ∈ layout_cols L →
  cols σl !! c = Some l →
  cols σ2 !! c = Some (map (final_in (name_in σl) done) l).
Proof.
  intros (_ & _ & _ & HC) HL Hc Hl. rewrite HC, Hl.
  rewrite decide_True; [done|]. apply elem_of_concat_map. eauto.
Qed.

Lemma final_in_shared N flat a nm :
  a ∈ flat → N a = nm → has_at nm = true →
  ∃ q, first_named N flat nm = Some q ∧ final_in N flat a = q ∧ q ∈ flat.
Proof.
  intros Ha HN Hat. destruct (first_named_elem N flat a Ha) as [q Hq].
  rewrite HN in Hq. exists q. split_and!; [done| |].
  - unfold final_in. rewrite decide_True by done. by rewrite HN, Hat, Hq.
  - by apply first_named_Some in Hq as [? _].
Qed.

Lemma sky_layout_frame σ σ' m L : pars_frame σ σ' → sky_layout σ m L → sky_layout σ' m L.
Proof. intros ->. done. Qed.

Lemma relinked_slot models sel σ out σ1 i m L a p σl (mLs : list (nat * Layout)) reg σ2 :
  models_to_dict models sel σ = (inr out, σ1) →
  models !! i = Some m → layout_of σ m = Some L →
  params_of σ m !! a = Some p →
  has_at (name_in (renamed models σ) p) = true →
  Forall2 (λ c mL, built σl c mL.1 mL.2) (filter is_sky (components out)) mLs →
  separate σl mLs.*1 mLs.*2 →
  link_inv σl mLs.*2 (layouts_params mLs.*2) reg σ2 →
  ∃ rec r q,
    record_of models sel σ m = inr rec
    ∧ reconstructed out mLs.*1 rec = Some r
    ∧ params_of σ2 r !! a = Some q
    ∧ nested_slot σ2 r a = Some q
    ∧ first_named (name_in σl) (layouts_params mLs.*2)
        (name_in (renamed models σ) p) = Some q
    ∧ is_Some (pars σ2 !! q).
Proof.
  intros Hser Hi HL Ha Hat Hall Hsep Hinv.
  apply layout_of_spec in HL.
  pose proof (sky_layout_params_of _ _ _ HL) as Hparams. rewrite Hparams in Ha.
  assert (pars_frame σ (renamed models σ)) as Hfr.
  { pose proof Hser as Hser'.
    apply models_to_dict_inv in Hser' as (_ & Hren & _).
    assert (_rename_shared_parameters models σ = (inr tt, renamed models σ)) as Hren'.
    { unfold renamed. destruct (_rename_shared_parameters models σ) as [x σ'].
      simpl in *. by subst. }
    by apply _rename_shared_parameters_spec in Hren' as [? _]. }
  pose proof (sky_layout_frame _ _ _ _ Hfr HL) as HLr.
  destruct (record_in_output _ _ _ _ _ _ _ Hser Hi) as (rec & Hrec & Hrecof & Hin).
  destruct (_model_to_dict_sky _ _ _ _ _ _ HLr Hrec)
    as (o & so & eo & s & e & sp & se & _ & _ & _ & _ & _ & Hcm & Hcsp & Hcse
        & _ & _ & _ & Hesp & Hese).
  pose proof (Forall2_app Hesp Hese) as Hetop.
  destruct (Forall2_lookup_l _ _ _ _ _ Hetop Ha) as (pd & Hpd & (pr & Hpr & ->)).
  destruct (reconstructed_spec _ _ _ _ Hall Hin Hcm) as (r & L' & Hr & HrL & Hb).
  destruct Hb as (sp' & se' & o' & so' & eo' & s' & e' & _ & Hcsp' & Hcse' & Ho' & Hcls'
                  & Hname' & Hpo' & Hs' & Hso' & Htsp' & Hpso' & He' & Heo' & Htse'
                  & Hpeo' & Hct' & Hcs' & Hce' & Hbsp & Hbse).
  rewrite Hcsp in Hcsp'. injection Hcsp' as <-.
  rewrite Hcse in Hcse'. injection Hcse' as <-.
  pose proof (Forall2_app Hbsp Hbse) as Hbtop.
  destruct (Forall2_lookup_r _ _ _ _ _ Hbtop Hpd) as (a' & Ha' & Hpa').
  assert (L' ∈ mLs.*2) as HL'.
  { apply list_elem_of_fmap. by exists (r, L'). }
  assert (a' ∈ layouts_params mLs.*2) as Hflat.
  { apply elem_of_concat_map. exists L'. split; [done|].
    unfold layout_params. by eapply list_elem_of_lookup_2. }
  assert (name_in σl a' = name_in (renamed models σ) p) as Hnm.
  { unfold name_in. by rewrite Hpa', Hpr. }
  destruct (final_in_shared (name_in σl) _ a' _ Hflat Hnm Hat) as (q & Hq & Hfin & Hqflat).
  pose proof (inv_mods _ _ _ _ _ Hinv) as Hmods.
  assert (∀ c l, c ∈ layout_cols L' → cols σl !! c = Some l →
                 cols σ2 !! c = Some (map (final_in (name_in σl) (layouts_params mLs.*2)) l))
    as Hcols.
  { intros c l Hc Hl. by eapply linked_cols. }
  assert (cols σ2 !! l_top L' = Some (map (final_in (name_in σl) (layouts_params mLs.*2))
                                       (l_ps L' ++ l_pe L'))) as Hct2.
  { apply Hcols; [|done]. unfold layout_cols. set_solver. }
  assert (cols σ2 !! l_spatial L' = Some (map (final_in (name_in σl) (layouts_params mLs.*2))
                                           (l_ps L'))) as Hcs2.
  { apply Hcols; [|done]. unfold layout_cols. set_solver. }
  assert (cols σ2 !! l_spectral L' = Some (map (final_in (name_in σl) (layouts_params mLs.*2))
                                            (l_pe L'))) as Hce2.
  { apply Hcols; [|done]. unfold layout_cols. set_solver. }
  exists rec, r, q. split_and!; try done.
  - unfold params_of. rewrite Hmods, Ho', Hpo', Hct2. simpl.
    by rewrite list_lookup_fmap, Ha', <- Hfin.
  - unfold nested_slot. rewrite Hmods, Ho'. simpl. rewrite Hs'. simpl.
    rewrite Hso'. simpl. rewrite He'. simpl. rewrite Heo'. simpl.
    rewrite Hpso', Hcs2. simpl. rewrite Hpeo', Hce2. simpl.
    rewrite length_map. case_decide as Hlt.
    + rewrite lookup_app_l in Ha' by done.
      by rewrite list_lookup_fmap, Ha', <- Hfin.
    + rewrite lookup_app_r in Ha' by lia.
      by rewrite list_lookup_fmap, Ha', <- Hfin.
  - destruct Hsep as (_ & _ & _ & Hvalid). eapply inv_valid; [done|]. by apply Hvalid.
Qed.

Lemma renamed_run models sel σ out σ1 :
  models_to_dict models sel σ = (inr out, σ1) →
  _rename_shared_parameters models σ = (inr tt, renamed models σ).
Proof.
  intros H. apply models_to_dict_inv in H as (_ & Hren & _).
  unfold renamed. destruct (_rename_shared_parameters models σ) as [x σ'].
  simpl in *. by subst.
Qed.

Lemma serialised_param_valid models sel σ out σ1 i m L a p :
  models_to_dict models sel σ = (inr out, σ1) →
  models !! i = Some m → layout_of σ m = Some L →
  params_of σ m !! a = Some p →
  is_Some (pars (renamed models σ) !! p).
Proof.
  intros Hser Hi HL Ha. apply layout_of_spec in HL.
  rewrite (sky_layout_params_of _ _ _ HL) in Ha.
  pose proof (renamed_run _ _ _ _ _ Hser) as Hren.
  apply _rename_shared_parameters_spec in Hren as [Hfr _].
  pose proof (sky_layout_frame _ _ _ _ Hfr HL) as HLr.
  destruct (record_in_output _ _ _ _ _ _ _ Hser Hi) as (rec & Hrec & _ & _).
  destruct (_model_to_dict_sky _ _ _ _ _ _ HLr Hrec)
    as (o & so & eo & s & e & sp & se & _ & _ & _ & _ & _ & _ & _ & _
        & _ & _ & _ & Hesp & Hese).
  pose proof (Forall2_app Hesp Hese) as Hetop.
  destruct (Forall2_lookup_l _ _ _ _ _ Hetop Ha) as (pd & _ & (pr & Hpr & _)).
  by eexists.
Qed.

Lemma value_at_set_value σ r a q v :
  params_of σ r !! a = Some q → is_Some (pars σ !! q) →
  value_at (set_value q v σ) r a = Some v.
Proof.
  intros Ha [p Hp]. unfold value_at.
  change (params_of (set_value q v σ) r) with (params_of σ r). rewrite Ha.
  pose proof (set_value_lookup q v σ p Hp) as Hv.
  set (h := pars (set_value q v σ)) in *.
  cbn [mbind option_bind]. destruct (h !! q) as [p'|]; simpl in *; congruence.
Qed.




(** ** What a run leaves untouched *)

Section Keeps.
Variable P : State → State → Prop.
Hypothesis P_refl : ∀ σ, P σ σ.
Hypothesis P_trans : ∀ σ1 σ2 σ3, P σ1 σ2 → P σ2 σ3 → P σ1 σ3.

Lemma keeps_reader {A} (c : M A) : reader c → keeps P c.
Proof. intros Hc σ. by rewrite Hc. Qed.

Lemma keeps_ret {A} (x : A) : keeps P (ret x).
Proof. intros σ. apply P_refl. Qed.

Lemma keeps_mret {A} (x : A) : keeps P (mret (M := M) x).
Proof. intros σ. apply P_refl. Qed.

Lemma keeps_raise {A} e : keeps P (raise (A := A) e).
Proof. intros σ. apply P_refl. Qed.

Lemma keeps_gets {A} (f : State → A) : keeps P (gets f).
Proof. intros σ. apply P_refl. Qed.

Lemma keeps_modify f : (∀ σ, P σ (f σ)) → keeps P (modify f).
Proof. intros Hf σ. apply Hf. Qed.

Lemma keeps_bind {A B} (c : M A) (k : A → M B) :
  keeps P c → (∀ x, keeps P (k x)) → keeps P (c ≫= k).
Proof.
  intros Hc Hk σ. unfold mbind, M_bind, bind.
  specialize (Hc σ). destruct (c σ) as [[e|x] σ1]; simpl in *; [done|].
  eapply P_trans; [done|]. apply Hk.
Qed.

Lemma keeps_lift_option {A} e (o : option A) : keeps P (lift_option e o).
Proof. apply keeps_reader, reader_lift_option. Qed.

Lemma keeps_guard b e : keeps P (guard b e).
Proof. apply keeps_reader, reader_guard. Qed.

Lemma keeps_traverse {A B} (f : A → M B) l :
  (∀ x, keeps P (f x)) → keeps P (traverse f l).
Proof.
  intros Hf. induction l as [|x l IH]; simpl; [apply keeps_ret|].
  apply keeps_bind; [done|]. intros y. apply keeps_bind; [done|].
  intros ys. apply keeps_ret.
Qed.

Lemma keeps_forM_ {A} (f : A → M unit) l : (∀ x, keeps P (f x)) → keeps P (forM_ l f).
Proof.
  intros Hf. induction l as [|x l IH]; simpl; [apply keeps_ret|].
  by apply keeps_bind.
Qed.

Lemma keeps_foldM {A B} (f : B → A → M B) l acc :
  (∀ acc x, keeps P (f acc x)) → keeps P (foldM f acc l).
Proof.
  intros Hf. revert acc. induction l as [|x l IH]; intros acc; simpl; [apply keeps_ret|].
  by apply keeps_bind.
Qed.

Lemma keeps_inr {A} (c : M A) σ x σ' : keeps P c → c σ = (inr x, σ') → P σ σ'.
Proof. intros Hc H. specialize (Hc σ). by rewrite H in Hc. Qed.
End Keeps.

(** Walk through a sequence of steps, given that the relation is reflexive
    ([Hr]) and transitive ([Ht]); what is left are the writes. *)
Ltac keeps_with Hr Ht :=
  repeat first
    [ apply (keeps_bind _ Ht); [|intros ?]
    | apply (keeps_ret _ Hr)
    | apply (keeps_mret _ Hr)
    | apply (keeps_raise _ Hr)
    | apply (keeps_gets _ Hr)
    | apply (keeps_lift_option _ Hr)
    | apply (keeps_guard _ Hr)
    | apply (keeps_reader _ Hr);
      first [ apply reader_get_par | apply reader_get_col | apply reader_get_mod
            | apply reader_model_parameters | apply reader_keyword_params
            | apply reader_select_models ]
    | apply (keeps_traverse _ Hr Ht); intros ?
    | apply (keeps_forM_ _ Hr Ht); intros ?
    | apply (keeps_foldM _ Hr Ht); intros ? ?
    | match goal with
      | |- keeps ?P (modify _) => apply (keeps_modify P); intros ?
      | |- keeps ?P (emit _) => apply (keeps_modify P); intros ?
      end
    | match goal with
      | |- keeps _ (match ?x with _ => _ end) => destruct x
      end ].

Lemma params_frame_refl σ : params_frame σ σ.
Proof. by split_and!. Qed.

Lemma params_frame_trans σ1 σ2 σ3 :
  params_frame σ1 σ2 → params_frame σ2 σ3 → params_frame σ1 σ3.
Proof. unfold params_frame. intros ? ?. split_and!; destruct_and!; congruence. Qed.

Lemma quiet_refl σ : quiet σ σ.
Proof. by split_and!. Qed.

Lemma quiet_trans σ1 σ2 σ3 : quiet σ1 σ2 → quiet σ2 σ3 → quiet σ1 σ3.
Proof.
  unfold quiet. intros (H1 & Ha & Hb & Hc & Hd & He & Hf) (H2 & Ha' & Hb' & Hc' & Hd' & He' & Hf').
  split_and!; [|congruence..|by etrans].
  intros f. by rewrite H2, H1.
Qed.

Ltac step_frame := keeps_with params_frame_refl params_frame_trans.
Ltac step_quiet := keeps_with quiet_refl quiet_trans.

Lemma keeps_frame_link_slot o i reg : keeps params_frame (link_slot o i reg).
Proof. unfold link_slot. step_frame; by split_and!. Qed.

Lemma keeps_frame_link_slots o n i reg : keeps params_frame (link_slots o n i reg).
Proof.
  revert i reg. induction n as [|n IH]; intros i reg; simpl.
  - apply keeps_ret, params_frame_refl.
  - apply keeps_bind; [apply params_frame_trans|apply keeps_frame_link_slot|].
    intros reg'. apply IH.
Qed.

Lemma keeps_frame_link_shared_parameters ms :
  keeps params_frame (_link_shared_parameters ms).
Proof.
  unfold _link_shared_parameters.
  apply keeps_bind; [apply params_frame_trans| |intros; apply keeps_ret, params_frame_refl].
  apply keeps_foldM; [apply params_frame_refl|apply params_frame_trans|].
  intros reg m. unfold link_model.
  apply keeps_bind; [apply params_frame_trans| |intros o].
  { apply keeps_reader; [apply params_frame_refl|apply reader_get_mod]. }
  apply keeps_bind; [apply params_frame_trans| |intros ps].
  { apply keeps_reader; [apply params_frame_refl|apply reader_get_col]. }
  apply keeps_frame_link_slots.
Qed.

(** ** Reading the components and a dataset file leaves the registers alone *)

Lemma cube_reads_emit f ev σ :
  is_cube_read f ev = false →
  cube_reads f (with_trace (λ t, t ++ [ev]) σ) = cube_reads f σ.
Proof.
  intros H. unfold cube_reads. st. rewrite filter_app, length_app.
  rewrite filter_cons_False by (by rewrite H). simpl. lia.
Qed.

Lemma quiet_pars f σ : quiet σ (with_pars f σ).
Proof. by split_and!. Qed.

Lemma quiet_cols f σ : quiet σ (with_cols f σ).
Proof. by split_and!. Qed.

Lemma quiet_alloc_mod o σ : quiet σ (with_mods (λ h, h ++ [o]) σ).
Proof. split_and!; try done. st. by apply prefix_app_r. Qed.

Lemma quiet_emit ev σ :
  (∀ f, is_cube_read f ev = false) → quiet σ (with_trace (λ t, t ++ [ev]) σ).
Proof. intros H. split_and!; try done. intros f. by apply cube_reads_emit. Qed.

Lemma keeps_quiet_Parameters_from_dict W item : keeps quiet (Parameters_from_dict W item).
Proof.
  unfold Parameters_from_dict. step_quiet; first [apply quiet_pars|apply quiet_cols].
Qed.

Lemma keeps_quiet_dict_to_skymodel W c : keeps quiet (_dict_to_skymodel W c).
Proof.
  unfold _dict_to_skymodel, _dict_to_spatial, _dict_to_spectral, SkyModel.
  step_quiet;
    first [ apply quiet_pars | apply quiet_cols | apply quiet_alloc_mod
          | by apply quiet_emit ].
Qed.

Lemma keeps_quiet_dict_to_models_loop W cs acc :
  keeps quiet (dict_to_models_loop W cs acc).
Proof.
  revert acc. induction cs as [|c cs IH]; intros acc; simpl.
  - apply keeps_ret, quiet_refl.
  - destruct (c_model c) as [sub|].
    + case_decide; [apply IH|apply keeps_raise, quiet_refl].
    + apply keeps_bind; [apply quiet_trans|apply keeps_quiet_dict_to_skymodel|].
      intros m. apply IH.
Qed.

Lemma keeps_quiet_MapDataset_read W filename name :
  keeps quiet (MapDataset_read W filename name).
Proof.
  unfold MapDataset_read.
  step_quiet; first [ apply quiet_pars | apply quiet_cols | apply quiet_alloc_mod
               | by apply quiet_emit ].
Qed.

(** The model object [MapDataset.read] makes for one stored background. *)
Lemma fresh_background_spec (b : string * list ParDict) σ m σ' :
  (ps ← traverse (λ par, alloc_par (new_parameter par)) b.2;
   col ← alloc_col ps;
   alloc_mod (background_object b.1 col)) σ = (inr m, σ') →
  m = length (mods σ) ∧ length (mods σ') = S (length (mods σ)).
Proof.
  intros H. apply bind_inr in H as (ps & σ1 & Hps & H).
  assert (params_frame σ σ1) as (Hm & _).
  { eapply keeps_inr; [|done].
    apply keeps_traverse; [apply params_frame_refl|apply params_frame_trans|].
    intros par. unfold alloc_par. step_frame. by split_and!. }
  inv_run H. st. rewrite Hm, length_app. simpl. lia.
Qed.

Lemma fresh_backgrounds_spec (bs : list (string * list ParDict)) σ ms σ' :
  traverse (λ b : string * list ParDict,
      ps ← traverse (λ par, alloc_par (new_parameter par)) b.2;
      col ← alloc_col ps;
      alloc_mod (background_object b.1 col)) bs σ = (inr ms, σ') →
  length (mods σ) ≤ length (mods σ')
  ∧ ∀ m, m ∈ ms → length (mods σ) ≤ m < length (mods σ').
Proof.
  revert σ ms. induction bs as [|b bs IH]; intros σ ms; simpl.
  - intros H. inv_prim H. split; [done|]. intros m Hm. by apply elem_of_nil in Hm.
  - intros H. apply bind_inr in H as (m0 & σ1 & Hm0 & H).
    apply bind_inr in H as (ms' & σ2 & Hms & H). inv_prim H.
    apply fresh_background_spec in Hm0 as [-> Hlen].
    apply IH in Hms as [Hle Hms]. split; [lia|].
    intros m [-> |Hm]%elem_of_cons; [lia|]. apply Hms in Hm. lia.
Qed.

Lemma MapDataset_read_spec W filename name σ d σ' :
  MapDataset_read W filename name σ = (inr d, σ') →
  quiet σ σ'
  ∧ ∀ b, b ∈ background_models d → length (mods σ) ≤ b < length (mods σ').
Proof.
  intros H. split.
  { eapply keeps_inr; [apply keeps_quiet_MapDataset_read|done]. }
  unfold MapDataset_read in H.
  apply bind_inr in H as (dd & σ1 & Hdd & H). inv_prim Hdd.
  apply bind_inr in H as ([] & σ2 & Hev & H). inv_prim Hev.
  apply bind_inr in H as (bkg & σ3 & Hbkg & H). inv_prim H.
  unfold background_models. simpl.
  destruct (dd_background dd) as [n pds|bs].
  - apply bind_inr in Hbkg as (m & σ4 & Hm & Hbkg). inv_prim Hbkg.
    apply (fresh_background_spec (n, pds)) in Hm as [-> Hlen]. st.
    intros b ->%list_elem_of_singleton. lia.
  - apply bind_inr in Hbkg as (ms & σ4 & Hms & Hbkg). inv_prim Hbkg.
    apply fresh_backgrounds_spec in Hms as [_ Hms]. st. done.
Qed.

(** ** One background component held by several datasets *)

Lemma is_background_of_spec names c :
  is_background_of names c = true ↔ is_background c = true ∧ c_name c ∈ names.
Proof.
  unfold is_background, is_background_of. destruct (c_model c) as [sub|]; [|naive_solver].
  rewrite !andb_true_iff, !bool_decide_eq_true, list_elem_of_singleton. naive_solver.
Qed.

Lemma only_record_spec c data c' :
  only_record c data = true → c' ∈ components data → is_background c' = true →
  c_name c' = c_name c ∨ c_filename c' = c_filename c → c' = c.
Proof.
  unfold only_record. rewrite forallb_forall. intros H Hc' Hbg Heq.
  apply list_elem_of_In in Hc'. apply H in Hc'. rewrite Hbg in Hc'. simpl in Hc'.
  apply orb_true_iff in Hc' as [Hc'|Hc']; [|by apply bool_decide_eq_true in Hc'].
  apply negb_true_iff, orb_false_iff in Hc' as [H1 H2].
  apply bool_decide_eq_false in H1, H2. tauto.
Qed.

Lemma cube_reads_snoc f g σ σ' :
  trace σ' = trace σ ++ [ReadCube g] →
  cube_reads f σ' = if decide (g = f) then S (cube_reads f σ) else cube_reads f σ.
Proof.
  intros H. unfold cube_reads. rewrite H, filter_app, length_app.
  case_decide.
  - rewrite filter_cons_True by (simpl; by apply bool_decide_eq_true). simpl. lia.
  - rewrite filter_cons_False; [simpl; lia|]. simpl. rewrite bool_decide_eq_true. done.
Qed.

Lemma cube_reads_trace f σ σ' : trace σ' = trace σ → cube_reads f σ' = cube_reads f σ.
Proof. unfold cube_reads. by intros ->. Qed.

Section SharedBackground.
Variables (W : World) (data : Components) (c : Component) (f : string) (r : nat).
Hypothesis Hfile : c_filename c = Some f.
Hypothesis Hbkg : is_background c = true.
Hypothesis Honly : only_record c data = true.

Lemma served_lt σ b : served σ (c_name c) b → b < length (mods σ).
Proof. intros (o & cb & Ho & _). by eapply lookup_lt_Some. Qed.

(** One turn of the loop of [update_dataset]. *)
Lemma update_background_shared d names prev acc c' σ acc' σ' :
  c' ∈ components data →
  update_background W d names prev acc c' σ = (inr acc', σ') →
  (∀ b, b ∈ background_models d → b < length (mods σ)) →
  counted f (c_name c) r σ →
  counted f (c_name c) r σ'
  ∧ length (mods σ) ≤ length (mods σ')
  ∧ self_datasets σ' = self_datasets σ
  ∧ self_models σ' = self_models σ
  ∧ (∀ b, served σ (c_name c) b → b ∉ background_models d → served σ' (c_name c) b)
  ∧ (∀ b, b ∈ acc → b ∈ acc')
  ∧ (c' = c → c_name c ∈ names →
     ∃ b, b ∈ acc' ∧ served σ' (c_name c) b ∧ b ∉ background_models d
          ∧ length (mods σ) ≤ b).
Proof.
  intros Hin H Hd [Hcnt0 Hcnt1]. unfold update_background in H.
  destruct (is_background_of names c') eqn:Hof.
  2:{ inv_prim H. split_and!; try done. intros -> Hn.
      assert (is_background_of names c = true) as Ht by by apply is_background_of_spec.
      by rewrite Ht in Hof. }
  apply is_background_of_spec in Hof as [Hbg' Hnames].
  apply bind_inr in H as (bm & σ1 & Hadd & H).
  apply bind_inr in H as ([] & σ2 & Hlink & H).
  apply bind_inr in H as (σ3 & σ3' & Hg & H). inv_prim Hg.
  apply bind_inr in H as ([] & σ4 & Hself & H). inv_prim H.
  apply add_background_spec in Hadd
    as (o & Ho & Hname & Hlen & Hother & Hp1 & Hpr1 & Hsb1 & Hsm1 & Hsd1 & Hcase).
  apply link_background_parameters_spec in Hlink
    as (o' & p & Ho' & Hmods2 & Hpr2 & Hcr2 & Htr2 & Hsb2 & Hsm2 & Hsd2 & Hcase2).
  rewrite Ho in Ho'. injection Ho' as <-.
  assert (mods σ4 = mods σ2 ∧ trace σ4 = trace σ2
          ∧ cube_register σ4 = cube_register σ2
          ∧ params_register σ4 = params_register σ2
          ∧ self_datasets σ4 = self_datasets σ2
          ∧ self_models σ4 = self_models σ2) as (Hm4 & Ht4 & Hc4 & Hp4 & Hd4 & Hs4).
  { case_decide; inv_prim Hself; done. }
  assert (length (mods σ) ≤ length (mods σ4)) as Hlen4.
  { rewrite Hm4, Hmods2, length_insert. done. }
  assert (∀ b, b ≠ bm → b < length (mods σ) → mods σ4 !! b = mods σ !! b) as Hfr.
  { intros b Hne Hlt. rewrite Hm4, Hmods2, list_lookup_insert_ne by done.
    by apply Hother. }
  assert (mods σ4 !! bm = Some (set_parameters p o)) as Hbm.
  { rewrite Hm4, Hmods2. apply list_lookup_insert_eq. by eapply lookup_lt_Some. }
  assert (params_register σ4 !! c_name c' = Some p) as Hreg4 by by rewrite Hp4.
  assert (∀ n, n ≠ c_name c' → params_register σ4 !! n = params_register σ !! n)
    as Hpne.
  { intros n Hn. rewrite Hp4, <- Hpr1.
    destruct Hcase2 as [(_ & -> & _)|(_ & -> & _)]; [done|].
    by rewrite lookup_insert_ne. }
  assert (∀ n q, params_register σ !! n = Some q → params_register σ4 !! n = Some q)
    as Hpmono.
  { intros n q Hq. rewrite Hp4. rewrite <- Hpr1 in Hq.
    destruct Hcase2 as [(_ & -> & _)|(Hnone & -> & _)]; [done|].
    rewrite lookup_insert_ne; [done|]. intros <-. by rewrite Hnone in Hq. }
  split_and!; [| |congruence|congruence| | |].
  - (* the read count *)
    destruct (decide (c_name c' = c_name c)) as [Heq|Hne].
    + assert (c' = c) as -> by (eapply only_record_spec; eauto).
      rewrite Hfile in Hcase. destruct Hcase as (-> & cb & Hcb & Hreg & Hhit).
      rewrite <- Hcr2, <- Hc4 in Hreg. split; [by rewrite Hreg|]. intros _.
      rewrite (cube_reads_trace f σ2 σ4), (cube_reads_trace f σ1 σ2) by done.
      destruct Hhit as [(Hs & _ & Htr)|(Hn & _ & Htr)].
      * rewrite (cube_reads_trace f σ σ1) by done. apply Hcnt1. by eexists.
      * rewrite (cube_reads_snoc f f σ σ1) by done. rewrite decide_True by done.
        by rewrite Hcnt0.
    + assert (cube_register σ4 !! c_name c = cube_register σ !! c_name c
              ∧ cube_reads f σ4 = cube_reads f σ) as [Hcr Hrd].
      { rewrite Hc4, Hcr2.
        rewrite (cube_reads_trace f σ2 σ4), (cube_reads_trace f σ1 σ2) by done.
        destruct (c_filename c') as [g|] eqn:Hg.
        - destruct Hcase as (_ & cb & _ & _ & [(_ & -> & Htr)|(_ & -> & Htr)]).
          + split; [done|]. by apply cube_reads_trace.
          + split; [by rewrite lookup_insert_ne|].
            rewrite (cube_reads_snoc f g σ σ1) by done.
            rewrite decide_False; [done|]. intros ->. apply Hne.
            f_equal. eapply only_record_spec; eauto. right. by rewrite Hg, Hfile.
        - destruct Hcase as (_ & _ & -> & Htr & _). split; [done|].
          by apply cube_reads_trace. }
      unfold counted. rewrite Hcr, Hrd. done.
  - done.
  - (* the models served so far *)
    intros b Hb Hnot. pose proof (served_lt _ _ Hb) as Hlt.
    destruct Hb as (ob & cb & Hob & Hnb & Hcb & Hregc & Hregp).
    assert (b ≠ bm) as Hbne.
    { destruct (c_filename c') as [g|].
      - destruct Hcase as (-> & _). lia.
      - destruct Hcase as (Hbmd & _). intros ->. done. }
    exists ob, cb. rewrite Hfr by done. split_and!; try done.
    + rewrite Hc4, Hcr2.
      destruct (c_filename c') as [g|].
      * destruct Hcase as (_ & cb' & _ & _ & [(_ & -> & _)|(Hn & -> & _)]); [done|].
        rewrite lookup_insert_ne; [done|]. intros Heq. rewrite Heq in Hn.
        by rewrite Hn in Hregc.
      * by destruct Hcase as (_ & _ & -> & _).
    + by apply Hpmono.
  - intros b Hb. apply elem_of_app. by left.
  - (* the component itself *)
    intros -> Hn. rewrite Hfile in Hcase. destruct Hcase as (-> & cb & Hcb & Hreg & _).
    exists (length (mods σ)). split_and!.
    + apply elem_of_app. right. by apply list_elem_of_singleton.
    + exists (set_parameters p o), cb. split_and!; try done.
      by rewrite Hc4, Hcr2.
    + intros Hd'. apply Hd in Hd'. lia.
    + done.
Qed.

(** The loop of [update_dataset] over a stretch [cs] of the records. *)
Lemma update_fold_shared d names prev cs acc σ acc' σ' :
  (∀ c', c' ∈ cs → c' ∈ components data) →
  foldM (update_background W d names prev) acc cs σ = (inr acc', σ') →
  (∀ b, b ∈ background_models d → b < length (mods σ)) →
  counted f (c_name c) r σ →
  counted f (c_name c) r σ'
  ∧ length (mods σ) ≤ length (mods σ')
  ∧ self_datasets σ' = self_datasets σ
  ∧ self_models σ' = self_models σ
  ∧ (∀ b, served σ (c_name c) b → b ∉ background_models d → served σ' (c_name c) b)
  ∧ (∀ b, b ∈ acc → b ∈ acc')
  ∧ (c ∈ cs → c_name c ∈ names →
     ∃ b, b ∈ acc' ∧ served σ' (c_name c) b ∧ length (mods σ) ≤ b).
Proof.
  revert acc σ. induction cs as [|c' cs IH]; intros acc σ Hcs; simpl.
  - intros H _ Hcnt. inv_prim H. split_and!; try done.
    intros Hc. by apply elem_of_nil in Hc.
  - intros H Hd Hcnt. apply bind_inr in H as (acc1 & σ1 & Hstep & H).
    eapply update_background_shared in Hstep
      as (Hcnt1 & Hlen1 & Hsd1 & Hsm1 & Hserved1 & Hacc1 & Hc1); [|set_solver|done..].
    apply IH in H as (Hcnt2 & Hlen2 & Hsd2 & Hsm2 & Hserved2 & Hacc2 & Hc2);
      [|set_solver| |done].
    2:{ intros b Hb. apply Hd in Hb. lia. }
    split_and!; [done|lia|congruence|congruence| | |].
    + intros b Hb Hnot. apply Hserved2; [|done]. by apply Hserved1.
    + intros b Hb. by apply Hacc2, Hacc1.
    + intros [Heq|Hin]%elem_of_cons Hn.
      * destruct Hc1 as (b & Hb & Hs & Hnot & Hle); [done..|].
        exists b. split_and!; [by apply Hacc2|by apply Hserved2|done].
      * destruct (Hc2 Hin Hn) as (b & Hb & Hs & Hle).
        exists b. split_and!; [done..|lia].
Qed.

Lemma update_dataset_shared d names model_names σ d' σ' :
  c ∈ components data →
  update_dataset W d data names model_names σ = (inr d', σ') →
  (∀ b, b ∈ background_models d → b < length (mods σ)) →
  counted f (c_name c) r σ →
  counted f (c_name c) r σ'
  ∧ self_datasets σ' = self_datasets σ
  ∧ length (mods σ) ≤ length (mods σ')
  ∧ (∀ b, served σ (c_name c) b → b ∉ background_models d → served σ' (c_name c) b)
  ∧ (c_name c ∈ names →
     ∃ b, b ∈ background_models d' ∧ served σ' (c_name c) b ∧ length (mods σ) ≤ b).
Proof.
  intros Hc H Hd Hcnt. unfold update_dataset in H.
  set (d0 := match d_background_model d with
             | BkgMulti _ => d
             | BkgSingle m =>
                 {| d_name := d_name d; d_irfs := d_irfs d;
                    d_background_model := BkgMulti [m]; d_model := d_model d |}
             end) in *.
  assert (d_background_model d0 = BkgMulti (background_models d)) as Hd0.
  { unfold d0, background_models. by destruct (d_background_model d) eqn:E. }
  assert (background_models d0 = background_models d) as Hbm.
  { unfold background_models at 1. by rewrite Hd0. }
  apply bind_inr in H as (ms & σ1 & Hms & H).
  apply bind_inr in H as (prev & σ2 & Hprev & H).
  apply bind_inr in H as (bs & σ3 & Hfold & H).
  apply bind_inr in H as (σ4 & σ4' & Hg & H). inv_prim Hg.
  apply bind_inr in H as (sel & σ5 & Hsel & H). inv_prim H.
  pose proof (reader_inr _ _ _ _ (reader_select_models _ _) Hsel) as ->.
  assert (σ1 = σ) as ->.
  { unfold container_models in Hms. rewrite Hd0 in Hms. by inv_prim Hms. }
  assert (σ2 = σ) as ->.
  { eapply reader_inr; [|done]. apply reader_traverse. intros m.
    apply reader_bind; [apply reader_get_mod|]. intros. apply reader_lift_option. }
  eapply update_fold_shared in Hfold
    as (Hcnt' & Hlen & Hsd & _ & Hserved & _ & Hin); [|done| |done].
  2:{ by rewrite Hbm. }
  rewrite Hbm in Hserved. split_and!; try done.
  intros Hn. unfold background_models. simpl. by apply Hin.
Qed.

(** The loop of [__init__] over a stretch [es] of the datasets: [bof i] is
    the model the [i]-th of them holds for the component. *)
Lemma datasets_loop_shared es σ σ' :
  c ∈ components data →
  forM_ es (λ e,
    dataset ← MapDataset_read W (de_filename e) (de_name e);
    dataset ← update_dataset W dataset data (de_backgrounds e) (de_models e);
    modify (with_self_datasets (λ l, l ++ [dataset]))) σ = (inr tt, σ') →
  counted f (c_name c) r σ →
  counted f (c_name c) r σ'
  ∧ (∀ b, served σ (c_name c) b → served σ' (c_name c) b)
  ∧ ∃ ds (bof : nat → nat),
      self_datasets σ' = self_datasets σ ++ ds
      ∧ length ds = length es
      ∧ (∀ i e, es !! i = Some e → c_name c ∈ de_backgrounds e →
           ∃ d, ds !! i = Some d ∧ bof i ∈ background_models d
                ∧ served σ' (c_name c) (bof i) ∧ length (mods σ) ≤ bof i)
      ∧ (∀ i j ei ej, i < j → es !! i = Some ei → es !! j = Some ej →
           c_name c ∈ de_backgrounds ei → c_name c ∈ de_backgrounds ej →
           bof i < bof j).
Proof.
  intros Hc. revert σ. induction es as [|e es IH]; intros σ; simpl.
  - intros H Hcnt. inv_prim H. split_and!; try done.
    exists [], (λ _, 0). rewrite app_nil_r. split_and!; try done.
  - intros H Hcnt. apply bind_inr in H as ([] & σ3 & Hstep & H).
    apply bind_inr in Hstep as (d & σ1 & Hread & Hstep).
    apply bind_inr in Hstep as (d' & σ2 & Hupd & Hstep). inv_prim Hstep.
    apply MapDataset_read_spec in Hread
      as ((Hrd & Hpr & Hcr & _ & _ & Hsd1 & Hpre) & Hfresh).
    assert (counted f (c_name c) r σ1) as Hcnt1.
    { unfold counted. by rewrite Hcr, Hrd. }
    assert (∀ b, served σ (c_name c) b →
                 served σ1 (c_name c) b ∧ b ∉ background_models d) as Hs1.
    { intros b Hb. pose proof (served_lt _ _ Hb) as Hlt.
      destruct Hb as (o & cb & Ho & Hrest). split.
      - exists o, cb. rewrite Hcr, Hpr. split; [by eapply lookup_prefix|done].
      - intros Hin. apply Hfresh in Hin. lia. }
    assert (length (mods σ) ≤ length (mods σ1)) as Hle1 by by apply prefix_length.
    eapply update_dataset_shared in Hupd as (Hcnt2 & Hsd2 & Hle2 & Hserved2 & Hnew);
      [|done| |done].
    2:{ intros b Hb. apply Hfresh in Hb. lia. }
    apply IH in H as (Hcnt3 & Hserved3 & ds & bof & Hds & Hlen & Hall & Hord).
    2:{ done. }
    st. split_and!; [done| |].
    + intros b Hb. apply Hserved3. apply Hs1 in Hb as [Hb Hnot].
      destruct (Hserved2 b Hb Hnot) as (o & cb & Hrest). by exists o, cb.
    + destruct (decide (c_name c ∈ de_backgrounds e)) as [Hn|Hn].
      * destruct (Hnew Hn) as (b & Hb & Hs & Hleb).
        assert (served (with_self_datasets (λ l, l ++ [d']) σ2) (c_name c) b) as Hs'.
        { destruct Hs as (o & cb & Hrest). by exists o, cb. }
        exists (d' :: ds), (λ i, match i with 0 => b | S k => bof k end).
        split_and!.
        -- rewrite Hds, Hsd2, Hsd1, <- app_assoc. done.
        -- simpl. by rewrite Hlen.
        -- intros [|i] e' He' Hn'; simpl in *.
           ++ injection He' as <-. exists d'. split_and!; [done..| |lia].
              by apply Hserved3.
           ++ destruct (Hall i e' He' Hn') as (di & Hdi & Hbi & Hsi & Hlei).
              exists di. split_and!; [done..|].
              pose proof (served_lt _ _ Hs') as Hlt. st. lia.
        -- intros [|i] [|j] ei ej Hij Hi Hj Hni Hnj; simpl in *; try lia.
           ++ destruct (Hall j ej Hj Hnj) as (dj & _ & _ & _ & Hlej).
              pose proof (served_lt _ _ Hs') as Hlt. st. lia.
           ++ eapply Hord; [|done..]. lia.
      * exists (d' :: ds), (λ i, match i with 0 => 0 | S k => bof k end).
        split_and!.
        -- rewrite Hds, Hsd2, Hsd1, <- app_assoc. done.
        -- simpl. by rewrite Hlen.
        -- intros [|i] e' He' Hn'; simpl in *.
           ++ injection He' as <-. done.
           ++ destruct (Hall i e' He' Hn') as (di & Hdi & Hbi & Hsi & Hlei).
              exists di. split_and!; [done..|].
              st. lia.
        -- intros [|i] [|j] ei ej Hij Hi Hj Hni Hnj; simpl in *; try lia.
           ++ injection Hi as <-. done.
           ++ eapply Hord; [|done..]. lia.
Qed.
End SharedBackground.

Lemma keeps_quiet_dict_to_models W data : keeps quiet (dict_to_models W data false).
Proof.
  unfold dict_to_models.
  apply keeps_bind; [apply quiet_trans|apply keeps_quiet_dict_to_models_loop|].
  intros models. step_quiet.
Qed.




(** The run on two observations: the trace has one cube read between the two
    dataset reads, and the two datasets hold the model objects 4 and 6, both
    with the cube 0 and the parameter collection 5. *)
Example shared_background_run :
  ∃ σ', dict_to_datasets demo_world demo_index observed_components empty_state
        = (inr tt, σ')
    ∧ trace σ' = [ReadDataset "data_a.fits"; ReadCube "diffuse.fits";
                  ReadDataset "data_b.fits"]
    ∧ map background_models (self_datasets σ') = [[4]; [6]]
    ∧ (m_cube <$> mods σ' !! 4) = Some (Some 0)
    ∧ (m_cube <$> mods σ' !! 6) = Some (Some 0)
    ∧ (m_parameters <$> mods σ' !! 4) = Some 5
    ∧ (m_parameters <$> mods σ' !! 6) = Some 5.
Proof. eexists. split_and!; vm_compute; reflexivity. Qed.

(** ** The end-to-end scenario *)

Lemma succeeds_bind {A B} (c : M A) (k : A → M B) σ :
  succeeds c σ → (∀ x σ1, c σ = (inr x, σ1) → succeeds (k x) σ1) →
  succeeds (c ≫= k) σ.
Proof.
  intros (x & σ1 & Hc) Hk. destruct (Hk x σ1 Hc) as (y & σ2 & Hy).
  exists y, σ2. by rewrite (bind_run _ _ _ _ _ Hc).
Qed.

Lemma succeeds_ret {A} (x : A) σ : succeeds (ret x) σ.
Proof. by exists x, σ. Qed.

Lemma succeeds_guard b e σ : b = true → succeeds (guard b e) σ.
Proof. intros ->. by exists tt, σ. Qed.

Lemma succeeds_lookup {A} e (o : option A) σ : is_Some o → succeeds (lift_option e o) σ.
Proof. intros [x ->]. by exists x, σ. Qed.

Lemma Parameters_alloc_succeeds W pds σ :
  forallb (λ x, unit_ok W (pd_unit x)) pds = true →
  succeeds (traverse (λ par, guard (unit_ok W (pd_unit par)) ValueError ;;
                             alloc_par (new_parameter par)) pds) σ.
Proof.
  revert σ. induction pds as [|pd pds IH]; intros σ; simpl.
  - intros _. apply succeeds_ret.
  - intros [Hpd Hpds]%andb_true_iff.
    apply succeeds_bind.
    + apply succeeds_bind; [by apply succeeds_guard|]. intros [] σ1 _.
      eexists _, _. apply alloc_par_run.
    + intros a σ1 _. apply succeeds_bind; [by apply IH|].
      intros ps σ2 _. apply succeeds_ret.
Qed.

Lemma Parameters_from_dict_succeeds W item σ :
  forallb (λ x, unit_ok W (pd_unit x)) (sd_parameters item) = true →
  succeeds (Parameters_from_dict W item) σ.
Proof.
  intros H. unfold Parameters_from_dict.
  apply succeeds_bind; [by apply Parameters_alloc_succeeds|].
  intros ps σ1 _. eexists _, _. apply alloc_col_run.
Qed.

Lemma keyword_params_run W pds σ :
  forallb (λ x, unit_ok W (pd_unit x)) pds = true →
  keyword_params W pds σ = (inr (keywords pds), σ).
Proof.
  intros H. unfold keyword_params.
  assert (forM_ pds (λ x, guard (unit_ok W (pd_unit x)) ValueError) σ = (inr tt, σ))
    as Hrun.
  { induction pds as [|pd pds IH]; simpl; [done|].
    apply andb_true_iff in H as [Hpd Hpds].
    rewrite (bind_run _ _ σ tt σ); [by apply IH|]. by rewrite Hpd. }
  by rewrite (bind_run _ _ _ _ _ Hrun).
Qed.

Lemma _dict_to_spatial_succeeds W ty pds σ :
  forallb (λ x, unit_ok W (pd_unit x)) pds = true →
  spatial_class W ty = true → spatial_accepts W ty (keywords pds) = true →
  succeeds (_dict_to_spatial W (sub_record ty pds)) σ.
Proof.
  intros Hu Hc Ha. unfold _dict_to_spatial, sub_record.
  cbn [sd_filename sd_type sd_parameters].
  apply succeeds_bind; [eexists _, _; by apply keyword_params_run|].
  intros ks σ0 Hks. rewrite keyword_params_run in Hks by done. injection Hks as <- <-.
  apply succeeds_bind; [by apply succeeds_guard|]. intros [] σ1 _.
  apply succeeds_bind; [by apply succeeds_guard|]. intros [] σ2 _.
  apply succeeds_bind; [by apply Parameters_from_dict_succeeds|]. intros col σ3 _.
  eexists _, _. apply alloc_mod_run.
Qed.

Lemma _dict_to_spectral_succeeds W ty pds σ :
  forallb (λ x, unit_ok W (pd_unit x)) pds = true →
  spectral_class W ty = true → spectral_accepts W ty (keywords pds) = true →
  succeeds (_dict_to_spectral W (sub_record ty pds)) σ.
Proof.
  intros Hu Hc Ha. unfold _dict_to_spectral, sub_record.
  cbn [sd_energy sd_type sd_parameters].
  apply succeeds_bind; [eexists _, _; by apply keyword_params_run|].
  intros ks σ0 Hks. rewrite keyword_params_run in Hks by done. injection Hks as <- <-.
  apply succeeds_bind; [by apply succeeds_guard|]. intros [] σ1 _.
  apply succeeds_bind; [by apply succeeds_guard|]. intros [] σ2 _.
  apply succeeds_bind; [by apply Parameters_from_dict_succeeds|]. intros col σ3 _.
  eexists _, _. apply alloc_mod_run.
Qed.

Lemma model_parameters_succeeds m o l σ :
  mods σ !! m = Some o → cols σ !! m_parameters o = Some l →
  succeeds (model_parameters m) σ.
Proof.
  intros Ho Hl. exists l, σ. unfold model_parameters.
  rewrite (bind_run _ _ _ _ _ (get_mod_run _ _ _ Ho)). by apply get_col_run.
Qed.

Lemma scenario_skymodel_succeeds W sp rest σ c :
  accepted W sp rest = true →
  components (scenario sp rest) = [c] →
  succeeds (_dict_to_skymodel W c) σ.
Proof.
  unfold accepted. rewrite !andb_true_iff.
  intros (((((Hsp & Hse) & Hc1) & Ha1) & Hc2) & Ha2) [= <-].
  unfold _dict_to_skymodel. cbn [c_spatial c_spectral c_name lift_option].
  apply succeeds_bind; [apply succeeds_ret|]. intros item σ0 Hitem. inv_prim Hitem.
  apply succeeds_bind; [by apply _dict_to_spatial_succeeds|]. intros s σ1 Hs.
  apply succeeds_bind; [apply succeeds_ret|]. intros item σ0 Hitem. inv_prim Hitem.
  apply succeeds_bind; [by apply _dict_to_spectral_succeeds|]. intros e σ2 He.
  apply _dict_to_spatial_spec in Hs as (-> & Hp1 & Hcl1 & so & Hm1 & _ & Hso).
  apply _dict_to_spectral_spec in He as (-> & Hp2 & Hcl2 & eo & Hm2 & _ & Heo).
  unfold SkyModel.
  apply succeeds_bind.
  { eapply (model_parameters_succeeds _ so).
    - rewrite Hm2, Hm1. rewrite lookup_app_l by (rewrite length_app; simpl; lia).
      by rewrite list_lookup_middle.
    - rewrite Hso, Hcl2, Hcl1. rewrite lookup_app_l by (rewrite length_app; simpl; lia).
      by rewrite list_lookup_middle. }
  intros ps σ3 Hps.
  apply (reader_inr _ _ _ _ (reader_model_parameters _)) in Hps as ->.
  apply succeeds_bind.
  { eapply (model_parameters_succeeds _ eo).
    - rewrite Hm2. by rewrite list_lookup_middle.
    - rewrite Heo, Hcl2. by rewrite list_lookup_middle. }
  intros pe σ4 _. apply succeeds_bind; [eexists _, _; apply alloc_col_run|].
  intros col σ5 _. eexists _, _. apply alloc_mod_run.
Qed.

Lemma scenario_succeeds W sp rest σ :
  accepted W sp rest = true → succeeds (dict_to_models W (scenario sp rest) true) σ.
Proof.
  intros Hacc. unfold dict_to_models.
  apply succeeds_bind.
  { simpl. apply succeeds_bind; [by eapply scenario_skymodel_succeeds|].
    intros m σ1 _. apply succeeds_ret. }
  intros ms σl Hloop.
  assert (succeeds (_link_shared_parameters ms) σl) as Hlink.
  { apply dict_to_models_loop_spec in Hloop
      as (mLs & -> & _ & Hall & Hndc & Hndp & _ & _).
    simpl in *.
    assert (separate σl mLs.*1 mLs.*2) as Hsep.
    { split_and!; try done.
      - clear -Hall. induction Hall as [|c [m L] cs mLs Hb Hall IH]; simpl; constructor.
        + by eapply built_sky_layout.
        + done.
      - intros a Ha. apply elem_of_concat_map in Ha as (L & HL & Ha).
        apply list_elem_of_fmap in HL as ([m L'] & -> & HmL).
        apply list_elem_of_lookup in HmL as [k Hk].
        destruct (Forall2_lookup_r _ _ _ _ _ Hall Hk) as (c & _ & Hb).
        by eapply built_valid. }
    destruct (link_separate _ _ _ Hsep) as (reg & σ' & Hrun & _).
    by exists tt, σ'. }
  apply succeeds_bind; [done|]. intros [] σ2 _. apply succeeds_ret.
Qed.

(** C6. Reading the components dict of the end-to-end scenario, whatever
    its open parameter lists are, in any state and any world that has the
    units and the two classes the record names, returns exactly one model:
    a composite model named ["src"] of which the spectral model's parameter
    ["index"] has the value 2.0. *)
Theorem src_scenario W sp rest σ :
  accepted W sp rest = true →
  ∃ m σ',
    dict_to_models W (scenario sp rest) true σ = (inr [m], σ')
    ∧ m_class <$> (mods σ' !! m) = Some "SkyModel"
    ∧ (mods σ' !! m ≫= m_name) = Some "src"
    ∧ par_value <$> (spectral_parameter σ' m "index") = Some (num 2).
Proof.
  intros Hacc. destruct (scenario_succeeds W sp rest σ Hacc) as (ms & σ' & Hrun).
  pose proof Hrun as Hrun'.
  apply dict_to_models_link in Hrun' as (σl & mLs & reg & -> & Hall & Hsep & Hinv).
  simpl in Hall. rewrite filter_cons_True in Hall by done. rewrite filter_nil in Hall.
  apply Forall2_cons_inv_l in Hall as ([m L] & mLs' & Hb & Hnil & ->).
  apply Forall2_nil_inv_l in Hnil as ->. simpl in *.
  exists m, σ'. split; [done|].
  destruct Hb as (sp' & se' & o & so & eo & s & e & H).
  destruct H as (_ & Hsp & Hse & Ho & Hcls & Hname & Htop & Hs & Hso & _ & _
                 & He & Heo & _ & Hpe & _ & _ & Hce & _ & Hfe).
  simpl in Hse, Hname. injection Hse as <-.
  assert (mods σ' = mods σl) as Hmods by (destruct Hinv as (-> & _); done).
  rewrite Hmods, Ho. simpl. split_and!; [by rewrite Hcls|done|].
  unfold spectral_parameter. rewrite Hmods, Ho. simpl. rewrite He. simpl.
  rewrite Heo. simpl. rewrite Hpe.
  unfold sub_record in Hfe. simpl in Hfe.
  apply Forall2_cons_inv_r in Hfe as (a0 & pe & Ha0 & _ & Hpe').
  assert (L ∈ [L]) as HL by (by apply list_elem_of_singleton).
  assert (l_spectral L ∈ layout_cols L) as Hin.
  { unfold layout_cols. set_solver. }
  rewrite (linked_cols _ _ _ _ _ L _ _ Hinv HL Hin Hce).
  assert (has_at (name_in σl a0) = false) as Hat.
  { unfold name_in. by rewrite Ha0. }
  destruct (link_inv_unlinked _ _ _ _ _ a0 Hinv Hat) as [Hp0 Hf0].
  destruct Hsep as (_ & _ & _ & Hvalid).
  assert (is_Some (mapM (λ a, pars σ' !! a)
            (map (final_in (name_in σl) (layouts_params [L])) (l_pe L)))) as [objs Hobjs].
  { apply mapM_is_Some.
    eapply (visited_valid σl [L] Hvalid); [done|done|].
    intros y Hy. unfold layouts_params. simpl. rewrite app_nil_r.
    unfold layout_params. apply elem_of_app. by right. }
  simpl. rewrite Hobjs. simpl.
  rewrite Hpe' in Hobjs. simpl in Hobjs. rewrite Hf0, Hp0, Ha0 in Hobjs.
  simpl in Hobjs.
  destruct (mapM _ (map _ pe)) as [objs'|]; [|done]. simpl in Hobjs.
  injection Hobjs as <-. reflexivity.
Qed.

Lemma src_scenario_witness :
  ∃ m σ',
    dict_to_models demo_world
      (scenario [pdict "lon_0" 0 "deg"; pdict "lat_0" 0 "deg"]
                [pdict "amplitude" 1 "cm-2 s-1 TeV-1"; pdict "reference" 1 "TeV"])
      true empty_state = (inr [m], σ')
    ∧ m_class <$> (mods σ' !! m) = Some "SkyModel"
    ∧ (mods σ' !! m ≫= m_name) = Some "src"
    ∧ par_value <$> (spectral_parameter σ' m "index") = Some (num 2).
Proof.
  apply (src_scenario demo_world
           [pdict "lon_0" 0 "deg"; pdict "lat_0" 0 "deg"]
           [pdict "amplitude" 1 "cm-2 s-1 TeV-1"; pdict "reference" 1 "TeV"]
           empty_state).
  vm_compute. reflexivity.
Defined.

(** The scenario with the two parameter lists of the session's source is
    the dict [src_components], and its run from the empty state puts the
    model at address 2. *)
Example src_scenario_run :
  scenario [pdict "lon_0" 0 "deg"; pdict "lat_0" 0 "deg"]
           [pdict "amplitude" 1 "cm-2 s-1 TeV-1"; pdict "reference" 1 "TeV"]
  = src_components
  ∧ (dict_to_models demo_world src_components true empty_state).1 = inr [2].
Proof. split; [reflexivity|vm_compute; reflexivity]. Qed.

(** ** What serialisation leaves alone *)

Lemma names_only_refl σ : names_only σ σ.
Proof.
  split_and!; try done. apply Forall2_same_length_lookup. split; [done|].
  intros i p p' Hp Hp'. rewrite Hp in Hp'. injection Hp' as <-. by rewrite rename_self.
Qed.

Lemma names_only_trans σ1 σ2 σ3 : names_only σ1 σ2 → names_only σ2 σ3 → names_only σ1 σ3.
Proof.
  intros (H1 & H2 & H3 & H4 & H5 & H6 & H7 & H8 & H9 & HF)
         (G1 & G2 & G3 & G4 & G5 & G6 & G7 & G8 & G9 & GF).
  split_and!; try congruence.
  apply Forall2_same_length_lookup. split.
  { rewrite (Forall2_length _ _ _ HF). by eapply Forall2_length. }
  intros i p p'' Hp Hp''.
  destruct (Forall2_lookup_l _ _ _ _ _ HF Hp) as (p' & Hp' & E1).
  destruct (Forall2_lookup_l _ _ _ _ _ GF Hp') as (q & Hq & E2).
  rewrite Hp'' in Hq. injection Hq as <-. rewrite E2 at 1. by rewrite E1.
Qed.

Lemma keeps_names_set_par_name a n : keeps names_only (set_par_name a n).
Proof.
  intros σ. unfold set_par_name, get_par, mbind, M_bind, bind, gets, lift_option.
  simpl. destruct (pars σ !! a) as [p|] eqn:Hp; simpl; [|apply names_only_refl].
  split_and!; try done. st.
  rewrite <- (list_insert_id (pars σ) a p) at 1 by done.
  apply Forall2_insert; [|done].
  by destruct (names_only_refl σ) as (_ & _ & _ & _ & _ & _ & _ & _ & _ & HF).
Qed.

Lemma keeps_names_rename_from k shared : keeps names_only (rename_from k shared).
Proof.
  revert k. induction shared as [|a shared IH]; intros k; simpl.
  - apply keeps_ret, names_only_refl.
  - apply keeps_bind; [apply names_only_trans| |intros p].
    { apply keeps_reader; [apply names_only_refl|apply reader_get_par]. }
    apply keeps_bind; [apply names_only_trans|apply keeps_names_set_par_name|].
    intros []. apply IH.
Qed.

Lemma reader_scan_models models seen shared : reader (scan_models models seen shared).
Proof.
  revert seen shared. induction models as [|m models IH]; intros seen shared; simpl.
  - apply reader_ret.
  - apply reader_bind; [apply reader_model_parameters|]. intros ps.
    destruct (scan_shared ps seen shared). apply IH.
Qed.

Lemma keeps_names_rename_shared models : keeps names_only (_rename_shared_parameters models).
Proof.
  unfold _rename_shared_parameters.
  apply keeps_bind; [apply names_only_trans| |intros [seen shared]].
  { apply keeps_reader; [apply names_only_refl|apply reader_scan_models]. }
  apply keeps_names_rename_from.
Qed.

Lemma keeps_names_restore_shared models : keeps names_only (_restore_shared_parameters models).
Proof.
  unfold _restore_shared_parameters.
  apply keeps_forM_; [apply names_only_refl|apply names_only_trans|]. intros m.
  apply keeps_bind; [apply names_only_trans| |intros ps].
  { apply keeps_reader; [apply names_only_refl|apply reader_model_parameters]. }
  apply keeps_forM_; [apply names_only_refl|apply names_only_trans|]. intros a.
  apply keeps_bind; [apply names_only_trans| |intros p].
  { apply keeps_reader; [apply names_only_refl|apply reader_get_par]. }
  apply keeps_names_set_par_name.
Qed.

(** X1. Whatever the outcome of [models_to_dict], a normal return or an
    error raised half-way, the store it leaves differs from the one it was
    called in by the names of parameter objects at most: no object is
    created or dropped, no value, unit or frozen flag is touched, and the
    collections and models are as they were. *)
Theorem models_to_dict_names_only models selection σ :
  names_only σ (models_to_dict models selection σ).2.
Proof.
  revert σ. fold (keeps names_only (models_to_dict models selection)).
  unfold models_to_dict.
  apply keeps_bind; [apply names_only_trans|apply keeps_names_rename_shared|].
  intros []. apply keeps_bind; [apply names_only_trans| |intros recs].
  { apply keeps_foldM; [apply names_only_refl|apply names_only_trans|].
    intros acc m. apply keeps_bind; [apply names_only_trans| |intros r].
    - apply keeps_reader; [apply names_only_refl|apply reader__model_to_dict].
    - apply keeps_ret, names_only_refl. }
  apply keeps_bind; [apply names_only_trans|apply keeps_names_restore_shared|].
  intros []. apply keeps_ret, names_only_refl.
Qed.

(** ** Background records in [dict_to_models] *)

Lemma dict_to_models_loop_sky W cs acc σ :
  Forall (λ c, ∀ sub, c_model c = Some sub → sd_type sub = "BackgroundModel") cs →
  dict_to_models_loop W cs acc σ = dict_to_models_loop W (filter is_sky cs) acc σ.
Proof.
  intros H. revert acc σ. induction H as [|c cs Hc Hcs IH]; intros acc σ; [done|].
  simpl. destruct (c_model c) as [sub|] eqn:E.
  - rewrite filter_cons_False by (unfold is_sky; by rewrite E).
    rewrite decide_True by by apply Hc. apply IH.
  - rewrite filter_cons_True by done. simpl. rewrite E.
    apply bind_ext. intros m σ1. apply IH.
Qed.

(** X2. [dict_to_models] passes over ["BackgroundModel"] records without
    looking at them: when every ["model"] record of the dict is of that
    type, the call does exactly what it does on the dict with those records
    taken out, whatever they hold. *)
Theorem dict_to_models_ignores_backgrounds W data link σ :
  Forall (λ c, ∀ sub, c_model c = Some sub → sd_type sub = "BackgroundModel")
    (components data) →
  dict_to_models W data link σ
  = dict_to_models W {| components := filter is_sky (components data) |} link σ.
Proof.
  intros H. unfold dict_to_models. apply bind_ext_l. simpl.
  by apply dict_to_models_loop_sky.
Qed.

Lemma dict_to_models_ignores_backgrounds_witness :
  dict_to_models demo_world observed_components true empty_state
  = dict_to_models demo_world
      {| components := filter is_sky (components observed_components) |} true empty_state.
Proof.
  apply (dict_to_models_ignores_backgrounds demo_world observed_components true
           empty_state).
  repeat constructor; simpl; intros sub [=]; subst; reflexivity.
Defined.

(** ** The models [dict_to_models] returns *)

Lemma dict_to_models_loop_fresh W cs acc σ ms σ1 :
  dict_to_models_loop W cs acc σ = (inr ms, σ1) →
  ∃ new, ms = acc ++ new ∧ NoDup new
         ∧ length (mods σ) ≤ length (mods σ1)
         ∧ ∀ m, m ∈ new → length (mods σ) ≤ m < length (mods σ1).
Proof.
  revert acc σ. induction cs as [|c cs IH]; intros acc σ; simpl.
  - intros H. inv_prim H. exists []. rewrite app_nil_r.
    split_and!; [done|apply NoDup_nil_2|done|]. intros m Hm. by apply elem_of_nil in Hm.
  - destruct (c_model c) as [sub|].
    + case_decide; [|done]. apply IH.
    + intros H. apply bind_inr in H as (m & σ' & Hm & H).
      apply _dict_to_skymodel_shape in Hm
        as (sp & se & so & eo & _ & _ & -> & _ & _ & Hmods & _).
      apply IH in H as (new & -> & Hnd & Hle & Hnew).
      assert (length (mods σ') = length (mods σ) + 3) as Hlen.
      { rewrite Hmods, length_app. simpl. lia. }
      exists ((length (mods σ) + 2) :: new). split_and!.
      * by rewrite <- app_assoc.
      * apply NoDup_cons. split; [|done]. intros Hin. apply Hnew in Hin. lia.
      * lia.
      * intros m [-> |Hin]%elem_of_cons; [lia|]. apply Hnew in Hin. lia.
Qed.

(** X3. When [dict_to_models] returns, it returns one model per record
    without a ["model"] key, in the order of the records: a composite
    ["SkyModel"] bearing the record's name.  The models are pairwise
    distinct objects, none of which was in the store before the call. *)
Theorem dict_to_models_one_per_record W data link σ ms σ' :
  dict_to_models W data link σ = (inr ms, σ') →
  Forall2 (λ c m, ∃ o, mods σ' !! m = Some o ∧ m_class o = "SkyModel"
                       ∧ m_name o = Some (c_name c))
    (filter is_sky (components data)) ms
  ∧ NoDup ms
  ∧ ∀ m, m ∈ ms → length (mods σ) ≤ m.
Proof.
  unfold dict_to_models. intros H.
  apply bind_inr in H as (ms' & σ1 & Hloop & H).
  apply bind_inr in H as ([] & σ2 & Hlink & H). apply ret_inr in H as [-> Hσ].
  subst σ2.
  assert (mods σ' = mods σ1) as Hmods.
  { destruct link; [|by inv_prim Hlink].
    by apply (keeps_inr params_frame _ _ _ _ (keeps_frame_link_shared_parameters _))
      in Hlink as (? & _). }
  pose proof (dict_to_models_loop_fresh _ _ _ _ _ _ Hloop) as (new & Hms & Hnd & _ & Hnew).
  apply dict_to_models_loop_spec in Hloop as (mLs & -> & _ & Hall & _).
  simpl in *. subst new. split_and!; [|done|].
  - apply Forall2_fmap_r. eapply Forall2_impl; [done|].
    intros c [m L] (sp & se & o & so & eo & s & e & Hb). simpl in *.
    exists o. rewrite Hmods. by destruct Hb as (_ & _ & _ & ? & ? & ? & _).
  - intros m Hm. apply Hnew in Hm. lia.
Qed.

Lemma dict_to_models_one_per_record_witness :
  Forall2 (λ c m, ∃ o,
      mods (dict_to_models demo_world observed_components true empty_state).2 !! m
      = Some o
      ∧ m_class o = "SkyModel" ∧ m_name o = Some (c_name c))
    (filter is_sky (components observed_components)) [2]
  ∧ NoDup [2]
  ∧ ∀ m, m ∈ [2] → length (mods empty_state) ≤ m.
Proof.
  apply (dict_to_models_one_per_record demo_world observed_components true empty_state
           [2] _).
  vm_compute. reflexivity.
Defined.

(** ** The linking pass on freshly read models *)

Lemma dict_to_models_loop_layouts W cs σ ms σl :
  dict_to_models_loop W cs [] σ = (inr ms, σl) →
  ∃ mLs : list (nat * Layout),
    ms = mLs.*1
    ∧ Forall2 (λ c mL, built σl c mL.1 mL.2) (filter is_sky cs) mLs
    ∧ separate σl ms mLs.*2.
Proof.
  intros Hloop.
  apply dict_to_models_loop_spec in Hloop
    as (mLs & -> & _ & Hall & Hndc & Hndp & _ & _).
  simpl in *. exists mLs. unfold separate. split_and!; try done.
  - clear -Hall. induction Hall as [|c [m L] cs' mLs' Hb Hall IH]; simpl; constructor.
    + by eapply built_sky_layout.
    + done.
  - intros a Ha. apply elem_of_concat_map in Ha as (L & HL & Ha).
    apply list_elem_of_fmap in HL as ([m L'] & -> & HmL).
    apply list_elem_of_lookup in HmL as [k Hk].
    destruct (Forall2_lookup_r _ _ _ _ _ Hall Hk) as (c & _ & Hb).
    by eapply built_valid.
Qed.

Lemma built_record_parameters σ c m L :
  built σ c m L →
  Forall2 (λ a pd, pars σ !! a = Some (new_parameter pd))
    (layout_params L) (record_parameters c).
Proof.
  intros (sp & se & o & so & eo & s & e & H).
  destruct H as (_ & Hsp & Hse & _ & _ & _ & _ & _ & _ & _ & _ & _
                 & _ & _ & _ & _ & _ & _ & H19 & H20).
  unfold record_parameters, layout_params. rewrite Hsp, Hse. simpl.
  by apply Forall2_app.
Qed.

Lemma separate_layout σ ms Ls L :
  separate σ ms Ls → L ∈ Ls →
  cols σ !! l_top L = Some (layout_params L)
  ∧ cols σ !! l_spatial L = Some (l_ps L)
  ∧ cols σ !! l_spectral L = Some (l_pe L).
Proof.
  intros (Hall & _) HL. apply list_elem_of_lookup in HL as [k Hk].
  destruct (Forall2_lookup_r _ _ _ _ _ Hall Hk) as (m & _ & o & _ & Hobj).
  destruct Hobj as (sp & so & se & eo & _ & _ & _ & _ & _ & _ & _ & _ & H1 & H2 & H3).
  done.
Qed.

Lemma marker_free_spec data c pd :
  marker_free data = true → c ∈ components data → is_sky c →
  pd ∈ record_parameters c → has_at (pd_name pd) = false.
Proof.
  unfold marker_free. rewrite forallb_forall. intros H Hc Hsky Hpd.
  apply list_elem_of_In in Hc. apply H in Hc. unfold is_sky in Hsky. rewrite Hsky in Hc.
  rewrite forallb_forall in Hc. apply list_elem_of_In in Hpd. apply Hc in Hpd.
  by apply negb_true_iff in Hpd.
Qed.

Lemma link_inv_identity σl Ls ms reg σ2 :
  separate σl ms Ls →
  link_inv σl Ls (layouts_params Ls) reg σ2 →
  (∀ a, a ∈ layouts_params Ls → has_at (name_in σl a) = false) →
  σ2 = σl.
Proof.
  intros Hsep Hinv Hfree.
  assert (∀ a, final_in (name_in σl) (layouts_params Ls) a = a) as Hfin.
  { intros a. unfold final_in. case_decide; [|done]. by rewrite Hfree. }
  destruct Hinv as (Hσ & _ & HP & HC).
  assert (pars σ2 = pars σl) as Hpars.
  { apply list_eq. intros a. rewrite HP. case_decide as Hd; [|done].
    destruct Hd as (Ha & Hat & _). rewrite Hfree in Hat; done. }
  assert (cols σ2 = cols σl) as Hcols.
  { apply list_eq. intros c. rewrite HC. case_decide; [|done].
    destruct (cols σl !! c) as [l|]; [|done]. simpl. f_equal.
    rewrite <- (map_id l) at 2. apply map_ext. intros a. apply Hfin. }
  rewrite Hσ, Hpars, Hcols. by destruct σl.
Qed.

(** X4. On a dict none of whose composite records has an at-sign in a
    parameter name, the linking pass of [dict_to_models] does nothing: the
    call with [link=True] returns, or fails, exactly as the call with
    [link=False] does, and leaves the same store. *)
Theorem link_is_identity_without_markers W data σ :
  marker_free data = true →
  dict_to_models W data true σ = dict_to_models W data false σ.
Proof.
  intros Hfree. unfold dict_to_models.
  destruct (dict_to_models_loop W (components data) [] σ) as [[e|ms] σl] eqn:Hloop.
  { by rewrite !(bind_fail _ _ _ _ _ Hloop). }
  rewrite !(bind_run _ _ _ _ _ Hloop).
  destruct (dict_to_models_loop_layouts _ _ _ _ _ Hloop) as (mLs & -> & Hall & Hsep).
  destruct (link_separate _ _ _ Hsep) as (reg & σ2 & Hrun & Hinv).
  assert (σ2 = σl) as ->.
  { eapply link_inv_identity; [done..|].
    intros a Ha. apply elem_of_concat_map in Ha as (L & HL & Ha).
    apply list_elem_of_fmap in HL as ([m L'] & -> & HmL).
    apply list_elem_of_lookup in HmL as [k Hk].
    destruct (Forall2_lookup_r _ _ _ _ _ Hall Hk) as (c & Hc & Hb).
    apply list_elem_of_lookup_2, list_elem_of_filter in Hc as [Hsky Hc].
    apply built_record_parameters in Hb. simpl in *.
    apply list_elem_of_lookup in Ha as [i Hi].
    destruct (Forall2_lookup_l _ _ _ _ _ Hb Hi) as (pd & Hpd & Hp).
    unfold name_in. rewrite Hp. simpl.
    eapply marker_free_spec; [done..|]. by eapply list_elem_of_lookup_2. }
  by rewrite (bind_run _ _ _ _ _ Hrun).
Qed.

Lemma link_is_identity_without_markers_witness :
  dict_to_models demo_world observed_components true empty_state
  = dict_to_models demo_world observed_components false empty_state.
Proof.
  apply (link_is_identity_without_markers demo_world observed_components empty_state).
  vm_compute. reflexivity.
Defined.

Lemma linked_model_unmarked W data σ ms σ' m :
  dict_to_models W data true σ = (inr ms, σ') →
  m ∈ ms →
  ∃ o ps, mods σ' !! m = Some o ∧ cols σ' !! m_parameters o = Some ps
          ∧ ∀ a, a ∈ ps → ∃ p, pars σ' !! a = Some p ∧ has_at (par_name p) = false.
Proof.
  intros H Hm.
  apply dict_to_models_link in H as (σl & mLs & reg & -> & Hall & Hsep & Hinv).
  apply list_elem_of_fmap in Hm as ([m' L] & -> & HmL). simpl in *.
  assert (L ∈ mLs.*2) as HL.
  { apply list_elem_of_fmap. by exists (m', L). }
  apply list_elem_of_lookup in HmL as [k Hk].
  destruct (Forall2_lookup_r _ _ _ _ _ Hall Hk) as (c & Hc & Hb). simpl in Hb.
  pose proof (built_sky_layout _ _ _ _ Hb) as (o & Ho & Hcomp).
  destruct Hcomp as (sp & so & se & eo & _ & Htop & _).
  destruct (separate_layout _ _ _ _ Hsep HL) as (Hct & _).
  assert (mods σ' = mods σl) as Hmods by (destruct Hinv as (-> & _); done).
  assert (l_top L ∈ layout_cols L) as Hin by (unfold layout_cols; set_solver).
  exists o, (map (final_in (name_in σl) (layouts_params mLs.*2)) (layout_params L)).
  rewrite Hmods, Htop. split_and!; [done|by eapply linked_cols|].
  intros a Ha. apply list_elem_of_fmap in Ha as (x & -> & Hx).
  pose proof Hsep as (_ & _ & _ & Hvalid).
  assert (x ∈ layouts_params mLs.*2) as Hx' by by eapply layout_params_in.
  assert (has_at (name_in σ' (final_in (name_in σl) (layouts_params mLs.*2) x)) = false)
    as Hat.
  { eapply (inv_no_at σl mLs.*2 Hvalid); [|done|done|done].
    intros L' HL'. by eapply separate_layout. }
  assert (is_Some (pars σ' !! final_in (name_in σl) (layouts_params mLs.*2) x))
    as [p Hp].
  { eapply inv_valid; [done|]. apply Hvalid.
    destruct (final_in_elem σl (layouts_params mLs.*2) x) as [-> |?]; done. }
  exists p. split; [done|]. unfold name_in at 1 in Hat. by rewrite Hp in Hat.
Qed.

(** X5. When [dict_to_models] returns after linking, no parameter of a
    returned model has an at-sign left in its name: every marker was cut
    off, on the first bearer of a marked name, and every other slot that
    bore the name now holds that first bearer. *)
Theorem no_marker_after_linking W data σ ms σ' m a :
  dict_to_models W data true σ = (inr ms, σ') →
  m ∈ ms → a ∈ params_of σ' m →
  has_at (name_in σ' a) = false.
Proof.
  intros H Hm Ha.
  destruct (linked_model_unmarked _ _ _ _ _ _ H Hm) as (o & ps & Ho & Hps & Hall).
  unfold params_of in Ha. rewrite Ho, Hps in Ha. simpl in Ha.
  destruct (Hall a Ha) as (p & Hp & Hat). unfold name_in. by rewrite Hp.
Qed.

Lemma no_marker_after_linking_witness :
  has_at (name_in (dict_to_models demo_world marked_components true empty_state).2 2)
  = false.
Proof.
  apply (no_marker_after_linking demo_world marked_components empty_state [2; 5] _ 5 2).
  - vm_compute. reflexivity.
  - apply elem_of_cons. right. apply list_elem_of_singleton. reflexivity.
  - vm_compute. apply elem_of_cons. right. apply elem_of_cons. right.
    apply elem_of_cons. by left.
Defined.

(** X6. Linking goes by name alone.  When [dict_to_models] returns after
    linking, two parameter entries of composite records that bear the same
    name with an at-sign in it have become one parameter object, held at the
    entries' positions by both models, and named by what stands before the
    at-sign; the values the two entries gave play no part in that. *)
Theorem marked_name_links W data σ ms σ' i j ci cj mi mj a b pda pdb :
  dict_to_models W data true σ = (inr ms, σ') →
  filter is_sky (components data) !! i = Some ci →
  filter is_sky (components data) !! j = Some cj →
  ms !! i = Some mi → ms !! j = Some mj →
  record_parameters ci !! a = Some pda → record_parameters cj !! b = Some pdb →
  pd_name pda = pd_name pdb → has_at (pd_name pda) = true →
  ∃ q, params_of σ' mi !! a = Some q ∧ params_of σ' mj !! b = Some q
       ∧ (par_name <$> pars σ' !! q) = Some (strip_at (pd_name pda)).
Proof.
  intros H Hci Hcj Hmi Hmj Hpa Hpb Hname Hat.
  apply dict_to_models_link in H as (σl & mLs & reg & -> & Hall & Hsep & Hinv).
  assert (mods σ' = mods σl) as Hmods by (destruct Hinv as (-> & _); done).
  pose proof Hsep as (_ & _ & _ & Hvalid).
  assert (∀ k c m pd s,
            filter is_sky (components data) !! k = Some c → mLs.*1 !! k = Some m →
            record_parameters c !! s = Some pd →
            ∃ x, x ∈ layouts_params mLs.*2 ∧ name_in σl x = pd_name pd
                 ∧ params_of σ' m !! s
                   = Some (final_in (name_in σl) (layouts_params mLs.*2) x)) as Hslot.
  { intros k c m pd s Hc Hm Hpd.
    destruct (Forall2_lookup_l _ _ _ _ _ Hall Hc) as ([m' L] & HmL & Hb). simpl in Hb.
    rewrite list_lookup_fmap, HmL in Hm. injection Hm as <-.
    assert (L ∈ mLs.*2) as HL.
    { apply list_elem_of_fmap. exists (m', L). split; [done|].
      by eapply list_elem_of_lookup_2. }
    pose proof (built_record_parameters _ _ _ _ Hb) as Hpars.
    destruct (Forall2_lookup_r _ _ _ _ _ Hpars Hpd) as (x & Hx & Hpx).
    pose proof (built_sky_layout _ _ _ _ Hb) as (o & Ho & Hcomp).
    destruct Hcomp as (sp & so & se & eo & _ & Htop & _).
    destruct (separate_layout _ _ _ _ Hsep HL) as (Hct & _).
    assert (l_top L ∈ layout_cols L) as Hin by (unfold layout_cols; set_solver).
    exists x. split_and!.
    - eapply layout_params_in; [done|]. by eapply list_elem_of_lookup_2.
    - unfold name_in. by rewrite Hpx.
    - unfold params_of. rewrite Hmods, Ho, Htop.
      rewrite (linked_cols _ _ _ _ _ L _ _ Hinv HL Hin Hct). simpl.
      by rewrite list_lookup_fmap, Hx. }
  destruct (Hslot i ci mi pda a Hci Hmi Hpa) as (x & Hx & Hnx & Hsx).
  destruct (Hslot j cj mj pdb b Hcj Hmj Hpb) as (y & Hy & Hny & Hsy).
  rewrite <- Hname in Hny.
  destruct (final_in_shared _ _ _ _ Hx Hnx Hat) as (q & Hq & Hfx & Hqin).
  destruct (final_in_shared _ _ _ _ Hy Hny Hat) as (q' & Hq' & Hfy & _).
  rewrite Hq in Hq'. injection Hq' as <-.
  exists q. rewrite Hsx, Hsy, Hfx, Hfy. split_and!; [done..|].
  pose proof (first_named_Some _ _ _ _ Hq) as [_ Hnq].
  destruct Hinv as (_ & _ & HP & _). rewrite HP.
  rewrite decide_True.
  2:{ rewrite Hnq. done. }
  destruct (Hvalid q Hqin) as [p Hp]. rewrite Hp. simpl.
  unfold name_in in Hnq. rewrite Hp in Hnq. simpl in Hnq. by rewrite Hnq.
Qed.

Lemma marked_name_links_witness :
  ∃ q, params_of (dict_to_models demo_world marked_components true empty_state).2 2 !! 2
       = Some q
       ∧ params_of (dict_to_models demo_world marked_components true empty_state).2 5 !! 2
         = Some q
       ∧ (par_name <$>
            pars (dict_to_models demo_world marked_components true empty_state).2 !! q)
         = Some (strip_at (pd_name (pdict "index@shared_0" 2 ""))).
Proof.
  apply (marked_name_links demo_world marked_components empty_state [2; 5] _ 0 1
           (marked_source "src1" 2) (marked_source "src2" 3) 2 5 2 2
           (pdict "index@shared_0" 2 "") (pdict "index@shared_0" 3 ""));
    vm_compute; reflexivity.
Defined.

(** On these two sources the one object both models end up with is the
    first source's, value 2; the value 3 the second record gave is on an
    object no model holds any more. *)
Example marked_name_first_wins :
  ∃ σ', dict_to_models demo_world marked_components true empty_state = (inr [2; 5], σ')
    ∧ params_of σ' 2 = [0; 1; 2; 3; 4]
    ∧ params_of σ' 5 = [5; 6; 2; 8; 9]
    ∧ (par_value <$> pars σ' !! 2) = Some (num 2)
    ∧ (par_value <$> pars σ' !! 7) = Some (num 3).
Proof. eexists. split_and!; vm_compute; reflexivity. Qed.

(** ** Records with a missing key *)

(** X7. A record with neither a ["model"] nor a ["spatial"] key stops
    [dict_to_models] with the key error on ["spatial"], in the store the
    records before it left.  Nothing is returned and the records behind are
    not looked at. *)
Theorem missing_spatial_raises W data link σ pre c post ms σ1 :
  components data = pre ++ c :: post →
  c_model c = None → c_spatial c = None →
  dict_to_models_loop W pre [] σ = (inr ms, σ1) →
  dict_to_models W data link σ = (inl (KeyError "spatial"), σ1).
Proof.
  intros Hdata Hc Hsp Hpre. unfold dict_to_models. rewrite Hdata.
  assert (dict_to_models_loop W (pre ++ c :: post) [] σ = (inl (KeyError "spatial"), σ1))
    as Hall.
  { rewrite dict_to_models_loop_app. rewrite (bind_run _ _ _ _ _ Hpre).
    simpl. rewrite Hc. apply bind_fail. unfold _dict_to_skymodel. by rewrite Hsp. }
  by rewrite (bind_fail _ _ _ _ _ Hall).
Qed.

Lemma missing_spatial_raises_witness :
  dict_to_models demo_world broken_components true empty_state
  = (inl (KeyError "spatial"), empty_state).
Proof.
  apply (missing_spatial_raises demo_world broken_components true empty_state []
           {| c_name := "src"; c_filename := None; c_model := None;
              c_spatial := None; c_spectral := None |}
           [ {| c_name := "diffuse"; c_filename := None;
                c_model := Some (sub_record "SkyDiffuseCube" []);
                c_spatial := None; c_spectral := None |} ] [] empty_state);
    reflexivity.
Defined.

(** X8. A record with a ["spatial"] key but no ["spectral"] key stops
    [dict_to_models] with the key error on ["spectral"] only after its
    spatial model was built: the parameter objects, the collection and the
    model object made for it stay in the store, owned by nothing. *)
Theorem missing_spectral_raises W data link σ pre c post ms σ1 item :
  components data = pre ++ c :: post →
  c_model c = None → c_spatial c = Some item → c_spectral c = None →
  dict_to_models_loop W pre [] σ = (inr ms, σ1) →
  succeeds (_dict_to_spatial W item) σ1 →
  ∃ σ2,
    dict_to_models W data link σ = (inl (KeyError "spectral"), σ2)
    ∧ pars σ2 = pars σ1 ++ map new_parameter (sd_parameters item)
    ∧ length (cols σ2) = S (length (cols σ1))
    ∧ length (mods σ2) = S (length (mods σ1)).
Proof.
  intros Hdata Hc Hsp Hse Hpre (s & σ2 & Hs). exists σ2.
  unfold dict_to_models. rewrite Hdata.
  assert (dict_to_models_loop W (pre ++ c :: post) [] σ = (inl (KeyError "spectral"), σ2))
    as Hall.
  { rewrite dict_to_models_loop_app. rewrite (bind_run _ _ _ _ _ Hpre).
    simpl. rewrite Hc. apply bind_fail. unfold _dict_to_skymodel. rewrite Hsp. simpl.
    rewrite (bind_run (ret item) _ σ1 item σ1) by done.
    rewrite (bind_run _ _ _ _ _ Hs). by rewrite Hse. }
  rewrite (bind_fail _ _ _ _ _ Hall). split; [done|].
  apply _dict_to_spatial_spec in Hs as (_ & -> & -> & so & -> & _).
  rewrite !length_app. simpl. split_and!; [done|lia..].
Qed.

Lemma missing_spectral_raises_witness :
  ∃ σ2,
    dict_to_models demo_world half_components true empty_state
    = (inl (KeyError "spectral"), σ2)
    ∧ pars σ2 = pars empty_state
                ++ map new_parameter
                     (sd_parameters (sub_record "PointSpatialModel"
                                       [pdict "lon_0" 0 "deg"; pdict "lat_0" 0 "deg"]))
    ∧ length (cols σ2) = S (length (cols empty_state))
    ∧ length (mods σ2) = S (length (mods empty_state)).
Proof.
  apply (missing_spectral_raises demo_world half_components true empty_state []
           {| c_name := "src"; c_filename := None; c_model := None;
              c_spatial := Some (sub_record "PointSpatialModel"
                                   [pdict "lon_0" 0 "deg"; pdict "lat_0" 0 "deg"]);
              c_spectral := None |} [] [] empty_state
           (sub_record "PointSpatialModel" [pdict "lon_0" 0 "deg"; pdict "lat_0" 0 "deg"]));
    try reflexivity.
  eexists _, _. vm_compute. reflexivity.
Defined.

(** ** The datasets [dict_to_datasets] builds *)

Lemma update_background_step W d names prev acc c σ acc' σ' :
  update_background W d names prev acc c σ = (inr acc', σ') →
  is_background_of names c = true →
  ∃ bm o,
    acc' = acc ++ [bm]
    ∧ (bm = length (mods σ) ∨ (bm ∈ background_models d ∧ bm < length (mods σ)))
    ∧ (is_Some (c_filename c) → bm = length (mods σ))
    ∧ mods σ' !! bm = Some o ∧ m_name o = Some (c_name c)
    ∧ length (mods σ) ≤ length (mods σ')
    ∧ (∀ b, b ≠ bm → b < length (mods σ) → mods σ' !! b = mods σ !! b)
    ∧ self_models σ' = self_models σ ∧ self_datasets σ' = self_datasets σ
    ∧ self_backgrounds σ' = append_new (self_backgrounds σ) bm
    ∧ (∀ n v, params_register σ !! n = Some v → params_register σ' !! n = Some v)
    ∧ (∀ n v, cube_register σ !! n = Some v → cube_register σ' !! n = Some v)
    ∧ (is_Some (c_filename c) → served σ' (c_name c) bm).
Proof.
  unfold update_background. intros H Hof. rewrite Hof in H.
  apply bind_inr in H as (bm & σ1 & Hadd & H).
  apply bind_inr in H as ([] & σ2 & Hlink & H).
  apply bind_inr in H as (σ3 & σ3' & Hg & H). inv_prim Hg.
  apply bind_inr in H as ([] & σ4 & Hself & H). inv_prim H.
  apply add_background_spec in Hadd
    as (o & Ho & Hname & Hlen & Hother & _ & Hpr1 & Hsb1 & Hsm1 & Hsd1 & Hcase).
  apply link_background_parameters_spec in Hlink
    as (o' & p & Ho' & Hmods2 & Hpr2 & Hcr2 & _ & Hsb2 & Hsm2 & Hsd2 & Hcase2).
  rewrite Ho in Ho'. injection Ho' as <-.
  assert (mods σ4 = mods σ2 ∧ self_datasets σ4 = self_datasets σ2
          ∧ self_models σ4 = self_models σ2
          ∧ self_backgrounds σ4 = append_new (self_backgrounds σ2) bm
          ∧ params_register σ4 = params_register σ2
          ∧ cube_register σ4 = cube_register σ2)
    as (Hm4 & Hd4 & Hs4 & Hb4 & Hp4 & Hc4).
  { unfold append_new. case_decide; inv_prim Hself; done. }
  exists bm, (set_parameters p o). split_and!.
  - done.
  - destruct (c_filename c); [left; by destruct Hcase|right].
    by destruct Hcase as (? & ? & _).
  - intros [g Hg]. rewrite Hg in Hcase. by destruct Hcase.
  - rewrite Hm4, Hmods2. apply list_lookup_insert_eq. by eapply lookup_lt_Some.
  - done.
  - by rewrite Hm4, Hmods2, length_insert.
  - intros b Hne Hlt. rewrite Hm4, Hmods2, list_lookup_insert_ne by done.
    by apply Hother.
  - congruence.
  - congruence.
  - rewrite Hb4. congruence.
  - intros n v Hv. rewrite Hp4. rewrite <- Hpr1 in Hv.
    destruct Hcase2 as [(_ & -> & _)|(Hnone & -> & _)]; [done|].
    rewrite lookup_insert_ne; [done|]. intros <-. by rewrite Hnone in Hv.
  - intros n v Hv. rewrite Hc4, Hcr2.
    destruct (c_filename c).
    + destruct Hcase as (_ & cb & _ & _ & [(_ & -> & _)|(Hnone & -> & _)]); [done|].
      rewrite lookup_insert_ne; [done|]. intros <-. by rewrite Hnone in Hv.
    + by destruct Hcase as (_ & _ & -> & _).
  - intros [g Hg]. rewrite Hg in Hcase. destruct Hcase as (_ & cb & Hcb & Hreg & _).
    exists (set_parameters p o), cb. split_and!; try done.
    + rewrite Hm4, Hmods2. apply list_lookup_insert_eq. by eapply lookup_lt_Some.
    + by rewrite Hc4, Hcr2.
    + by rewrite Hp4.
Qed.

Lemma served_frame σ σ' n b :
  served σ n b →
  mods σ' !! b = mods σ !! b →
  (∀ n v, params_register σ !! n = Some v → params_register σ' !! n = Some v) →
  (∀ n v, cube_register σ !! n = Some v → cube_register σ' !! n = Some v) →
  served σ' n b.
Proof.
  intros (o & cb & Ho & Hn & Hc & Hcr & Hpr) Hm Hp Hcu.
  exists o, cb. rewrite Hm. split_and!; auto.
Qed.

Lemma update_fold_general W d names prev L L1 cs acc σ acc' σ' :
  foldM (update_background W d names prev) acc cs σ = (inr acc', σ') →
  (∀ b, b ∈ background_models d → L ≤ b < L1) → L ≤ L1 → L1 ≤ length (mods σ) →
  ∃ new,
    acc' = acc ++ new
    ∧ length (mods σ) ≤ length (mods σ')
    ∧ (∀ b, b < L → mods σ' !! b = mods σ !! b)
    ∧ (∀ b, L1 ≤ b → b < length (mods σ) → mods σ' !! b = mods σ !! b)
    ∧ self_models σ' = self_models σ ∧ self_datasets σ' = self_datasets σ
    ∧ self_backgrounds σ' = foldl append_new (self_backgrounds σ) new
    ∧ (∀ n v, params_register σ !! n = Some v → params_register σ' !! n = Some v)
    ∧ (∀ n v, cube_register σ !! n = Some v → cube_register σ' !! n = Some v)
    ∧ Forall2 (λ c b, b < length (mods σ') ∧ L ≤ b
                      ∧ (is_Some (c_filename c) →
                         L1 ≤ b ∧ served σ' (c_name c) b))
        (filter (λ c, is_background_of names c = true) cs) new.
Proof.
  revert acc σ. induction cs as [|c cs IH]; intros acc σ; simpl.
  - intros H _ _ _. inv_prim H. exists []. rewrite app_nil_r. split_and!; try done.
  - intros H Hd HL HL1. apply bind_inr in H as (acc1 & σ1 & Hstep & H).
    destruct (is_background_of names c) eqn:Hof.
    + apply update_background_step in Hstep
        as (bm & o & -> & Hbm & Hfile & Ho & Hname & Hlen & Hfr & Hsm & Hsd & Hsb
            & Hpm & Hcm & Hserved);
        [|done].
      apply IH in H
        as (new & -> & Hlen' & Hlow & Hhigh & Hsm' & Hsd' & Hsb' & Hpm' & Hcm' & Hall);
        [|done|done|lia].
      pose proof (lookup_lt_Some _ _ _ Ho) as Hlt.
      assert (L ≤ bm) as HLbm.
      { destruct Hbm as [-> |[Hin _]]; [lia|]. apply Hd in Hin. lia. }
      exists (bm :: new). rewrite filter_cons_True by done. split_and!.
      * by rewrite <- app_assoc.
      * lia.
      * intros b Hb. rewrite Hlow by done. apply Hfr; lia.
      * intros b Hb Hblt. rewrite Hhigh by lia. apply Hfr; [|done].
        destruct Hbm as [-> |[Hin _]]; [lia|]. apply Hd in Hin. lia.
      * congruence.
      * congruence.
      * rewrite Hsb', Hsb. done.
      * auto.
      * auto.
      * constructor; [|done]. split_and!; [lia|done|].
        intros Hf. specialize (Hfile Hf). subst bm. split; [lia|].
        eapply served_frame; [by apply Hserved| |done..].
        apply Hhigh; lia.
    + unfold update_background in Hstep. rewrite Hof in Hstep. inv_prim Hstep.
      rewrite filter_cons_False by (by rewrite Hof). by apply IH.
Qed.

Lemma select_models_spec names ms acc σ sel σ' :
  foldM (λ models model,
      name ← model_name model;
      ret (if decide (name ∈ names) then models ++ [model] else models)) acc ms σ
    = (inr sel, σ') →
  σ' = σ ∧ sel = acc ++ filter (λ m, listed σ names m = true) ms.
Proof.
  revert acc. induction ms as [|m ms IH]; intros acc; simpl.
  - intros H. inv_prim H. by rewrite app_nil_r.
  - intros H. apply bind_inr in H as (acc1 & σ1 & Hstep & H).
    apply bind_inr in Hstep as (name & σ2 & Hname & Hstep). inv_prim Hstep.
    unfold model_name in Hname. apply bind_inr in Hname as (o & σ3 & Ho & Hname).
    inv_prim Ho. inv_prim Hname.
    apply IH in H as [-> ->]. split; [done|].
    assert (listed σ names m = bool_decide (name ∈ names)) as Hl.
    { unfold listed. rewrite Ho. simpl. by rewrite Hname. }
    case_decide.
    + rewrite filter_cons_True by (rewrite Hl; by apply bool_decide_eq_true).
      by rewrite <- app_assoc.
    + rewrite filter_cons_False; [done|]. rewrite Hl. by rewrite bool_decide_eq_true.
Qed.

Lemma filter_listed_frame σ σ' names (ms : list nat) :
  (∀ m, m ∈ ms → mods σ' !! m = mods σ !! m) →
  filter (λ m, listed σ' names m = true) ms = filter (λ m, listed σ names m = true) ms.
Proof.
  induction ms as [|m ms IH]; intros H; [done|].
  assert (listed σ' names m = listed σ names m) as Hm.
  { unfold listed. rewrite H; [done|]. by left. }
  assert (filter (λ m, listed σ' names m = true) ms
          = filter (λ m, listed σ names m = true) ms) as Hms.
  { apply IH. intros x Hx. apply H. by right. }
  destruct (listed σ names m) eqn:E.
  - rewrite !filter_cons_True by congruence. by rewrite Hms.
  - rewrite !filter_cons_False by congruence. done.
Qed.

Lemma update_dataset_general W d data names model_names L L1 σ d' σ' :
  update_dataset W d data names model_names σ = (inr d', σ') →
  (∀ b, b ∈ background_models d → L ≤ b < L1) → L ≤ L1 → L1 ≤ length (mods σ) →
  d_name d' = d_name d ∧ d_irfs d' = d_irfs d
  ∧ d_model d' = filter (λ m, listed σ' model_names m = true) (self_models σ')
  ∧ length (mods σ) ≤ length (mods σ')
  ∧ (∀ b, b < L → mods σ' !! b = mods σ !! b)
  ∧ self_models σ' = self_models σ ∧ self_datasets σ' = self_datasets σ
  ∧ self_backgrounds σ' = foldl append_new (self_backgrounds σ) (background_models d')
  ∧ (∀ n v, params_register σ !! n = Some v → params_register σ' !! n = Some v)
  ∧ (∀ n v, cube_register σ !! n = Some v → cube_register σ' !! n = Some v)
  ∧ Forall2 (λ c b, b < length (mods σ') ∧ L ≤ b
                    ∧ (is_Some (c_filename c) → served σ' (c_name c) b))
      (filter (λ c, is_background_of names c = true) (components data))
      (background_models d').
Proof.
  intros H Hd HL HL1. unfold update_dataset in H.
  set (d0 := match d_background_model d with
             | BkgMulti _ => d
             | BkgSingle m =>
                 {| d_name := d_name d; d_irfs := d_irfs d;
                    d_background_model := BkgMulti [m]; d_model := d_model d |}
             end) in *.
  assert (d_background_model d0 = BkgMulti (background_models d)
          ∧ d_name d0 = d_name d ∧ d_irfs d0 = d_irfs d) as (Hd0 & Hn0 & Hi0).
  { unfold d0, background_models. by destruct (d_background_model d) eqn:E. }
  assert (background_models d0 = background_models d) as Hbm.
  { unfold background_models at 1. by rewrite Hd0. }
  apply bind_inr in H as (ms & σ1 & Hms & H).
  apply bind_inr in H as (prev & σ2 & Hprev & H).
  apply bind_inr in H as (bs & σ3 & Hfold & H).
  apply bind_inr in H as (σ4 & σ4' & Hg & H). inv_prim Hg.
  apply bind_inr in H as (sel & σ5 & Hsel & H). inv_prim H.
  assert (σ1 = σ) as ->.
  { unfold container_models in Hms. rewrite Hd0 in Hms. by inv_prim Hms. }
  assert (σ2 = σ) as ->.
  { eapply reader_inr; [|done]. apply reader_traverse. intros m.
    apply reader_bind; [apply reader_get_mod|]. intros. apply reader_lift_option. }
  unfold select_models in Hsel. apply select_models_spec in Hsel as [-> ->].
  eapply (update_fold_general _ _ _ _ L L1) in Hfold
    as (new & -> & Hlen & Hlow & _ & Hsm & Hsd & Hsb & Hpm & Hcm & Hall);
    [|by rewrite Hbm|done..].
  unfold background_models at 1 2. simpl. split_and!; try done.
  eapply Forall2_impl; [done|]. intros c b (? & ? & Hf). split_and!; [done..|].
  intros Hc. by apply Hf.
Qed.

Lemma MapDataset_read_fields W filename name σ d σ' :
  MapDataset_read W filename name σ = (inr d, σ') →
  d_name d = name
  ∧ ∃ dd, dataset_file W filename = Some dd ∧ d_irfs d = dd_irfs dd.
Proof.
  unfold MapDataset_read. intros H.
  apply bind_inr in H as (dd & σ1 & Hdd & H). inv_prim Hdd.
  apply bind_inr in H as ([] & σ2 & Hev & H).
  apply bind_inr in H as (bkg & σ3 & Hbkg & H). inv_prim H. simpl. eauto.
Qed.

Lemma datasets_loop_general W data es σ σ' :
  forM_ es (λ e,
    dataset ← MapDataset_read W (de_filename e) (de_name e);
    dataset ← update_dataset W dataset data (de_backgrounds e) (de_models e);
    modify (with_self_datasets (λ l, l ++ [dataset]))) σ = (inr tt, σ') →
  (∀ m, m ∈ self_models σ → m < length (mods σ)) →
  length (mods σ) ≤ length (mods σ')
  ∧ (∀ b, b < length (mods σ) → mods σ' !! b = mods σ !! b)
  ∧ self_models σ' = self_models σ
  ∧ ∃ ds,
      self_datasets σ' = self_datasets σ ++ ds
      ∧ self_backgrounds σ'
        = foldl append_new (self_backgrounds σ) (concat (map background_models ds))
      ∧ Forall2 (λ e d,
            d_name d = de_name e
            ∧ (∃ dd, dataset_file W (de_filename e) = Some dd ∧ d_irfs d = dd_irfs dd)
            ∧ d_model d = filter (λ m, listed σ' (de_models e) m = true) (self_models σ')
            ∧ Forall2 (λ c b, b < length (mods σ') ∧ length (mods σ) ≤ b
                              ∧ (is_Some (c_filename c) → served σ' (c_name c) b))
                (filter (λ c, is_background_of (de_backgrounds e) c = true)
                   (components data))
                (background_models d)) es ds
      ∧ (∀ n v, params_register σ !! n = Some v → params_register σ' !! n = Some v)
      ∧ (∀ n v, cube_register σ !! n = Some v → cube_register σ' !! n = Some v).
Proof.
  revert σ. induction es as [|e es IH]; intros σ; simpl.
  - intros H _. inv_prim H. split_and!; try done.
    exists []. rewrite app_nil_r. split_and!; try done.
  - intros H Hself. apply bind_inr in H as ([] & σ3 & Hstep & H).
    apply bind_inr in Hstep as (d & σ1 & Hread & Hstep).
    apply bind_inr in Hstep as (d' & σ2 & Hupd & Hstep). inv_prim Hstep.
    pose proof (MapDataset_read_fields _ _ _ _ _ _ Hread) as (Hname & dd & Hdd & Hirfs).
    apply MapDataset_read_spec in Hread
      as ((_ & Hpr1 & Hcr1 & Hsm1 & Hsb1 & Hsd1 & Hpre) & Hfresh).
    pose proof (prefix_length _ _ Hpre) as Hle1.
    eapply (update_dataset_general _ _ _ _ _ (length (mods σ)) (length (mods σ1)))
      in Hupd as (Hn & Hi & Hmodel & Hle2 & Hlow & Hsm2 & Hsd2 & Hsb2 & Hpm2 & Hcm2
                  & Hall);
      [|done|done|done].
    apply IH in H as (Hle3 & Hfr3 & Hsm3 & ds & Hds & Hsb3 & Hall3 & Hpm3 & Hcm3).
    2:{ st. intros m Hm. rewrite Hsm2, Hsm1 in Hm. apply Hself in Hm. lia. }
    st. split_and!.
    + lia.
    + intros b Hb. rewrite Hfr3 by lia. rewrite Hlow by done.
      destruct Hpre as [k ->]. by apply lookup_app_l.
    + congruence.
    + exists (d' :: ds). split_and!.
      * rewrite Hds, Hsd2, Hsd1, <- app_assoc. done.
      * rewrite Hsb3. simpl. rewrite foldl_app. by rewrite Hsb2, Hsb1.
      * constructor.
        -- split_and!; [congruence|exists dd; split; [done|congruence]| |].
           ++ rewrite Hmodel, Hsm3. apply eq_sym, filter_listed_frame.
              intros m Hm. apply Hfr3. rewrite Hsm2, Hsm1 in Hm. apply Hself in Hm. lia.
           ++ eapply Forall2_impl; [done|]. intros c b (Hb & HLb & Hf).
              split_and!; [lia|done|]. intros Hc.
              eapply served_frame; [by apply Hf| |done..]. by apply Hfr3.
        -- eapply Forall2_impl; [done|].
           intros e' d0 (? & ? & ? & Hbs). split_and!; [done..|].
           eapply Forall2_impl; [done|]. intros c b (? & ? & ?). split_and!; [done|lia|done].
      * intros n v Hv. apply Hpm3, Hpm2. st. by rewrite Hpr1.
      * intros n v Hv. apply Hcm3, Hcm2. st. by rewrite Hcr1.
Qed.

Lemma foldl_append_new l xs :
  NoDup l →
  NoDup (foldl append_new l xs) ∧ ∀ b, b ∈ foldl append_new l xs ↔ b ∈ l ∨ b ∈ xs.
Proof.
  revert l. induction xs as [|x xs IH]; intros l Hl; simpl.
  - split; [done|]. intros b. rewrite elem_of_nil. tauto.
  - assert (NoDup (append_new l x) ∧ ∀ b, b ∈ append_new l x ↔ b ∈ l ∨ b = x) as [Hnd Hin].
    { unfold append_new. case_decide.
      - split; [done|]. intros b. split; [tauto|]. by intros [?| ->].
      - split.
        + apply NoDup_app. split_and!; [done| |apply NoDup_singleton].
          intros y Hy ->%list_elem_of_singleton. done.
        + intros b. rewrite elem_of_app, list_elem_of_singleton. tauto. }
    destruct (IH _ Hnd) as [Hnd' Hin']. split; [done|].
    intros b. rewrite Hin', Hin, elem_of_cons. tauto.
Qed.

Lemma dict_to_datasets_inv W index data σ σ' :
  dict_to_datasets W index data σ = (inr tt, σ') →
  ∃ ds,
    self_datasets σ' = ds
    ∧ self_backgrounds σ' = foldl append_new [] (concat (map background_models ds))
    ∧ Forall2 (λ e d,
          d_name d = de_name e
          ∧ (∃ dd, dataset_file W (de_filename e) = Some dd ∧ d_irfs d = dd_irfs dd)
          ∧ d_model d = filter (λ m, listed σ' (de_models e) m = true) (self_models σ')
          ∧ Forall2 (λ c b, b < length (mods σ')
                            ∧ (is_Some (c_filename c) → served σ' (c_name c) b))
              (filter (λ c, is_background_of (de_backgrounds e) c = true)
                 (components data))
              (background_models d)) (datasets_index index) ds.
Proof.
  intros H. unfold dict_to_datasets in H.
  apply bind_inr in H as ([] & σ1 & H1 & H). inv_prim H1.
  apply bind_inr in H as ([] & σ2 & H2 & H). inv_prim H2.
  apply bind_inr in H as (models & σ3 & Hmodels & H).
  apply bind_inr in H as ([] & σ4 & H4 & H). inv_prim H4.
  apply bind_inr in H as ([] & σ5 & H5 & H). inv_prim H5.
  apply bind_inr in H as ([] & σ6 & H6 & H). inv_prim H6.
  apply bind_inr in H as ([] & σ7 & Hloop & H).
  apply bind_inr in H as (σ8 & σ8' & Hg & H). unfold gets in Hg. injection Hg as <- <-.
  assert (∀ m, m ∈ models → m < length (mods σ3)) as Hfresh.
  { unfold dict_to_models in Hmodels.
    apply bind_inr in Hmodels as (ms & σa & Hl & Hmodels).
    apply bind_inr in Hmodels as ([] & σb & Hr & Hmodels).
    inv_prim Hr. inv_prim Hmodels.
    apply dict_to_models_loop_fresh in Hl as (new & -> & _ & _ & Hnew).
    intros m Hm. apply Hnew in Hm. lia. }
  apply datasets_loop_general in Hloop
    as (_ & _ & Hsm & ds & Hds & Hsb & Hall & _); [|by st].
  st. simpl in Hds, Hsb.
  apply (keeps_inr params_frame _ _ _ _ (keeps_frame_link_shared_parameters _)) in H
    as (Hm & _ & _ & Hpr' & Hcr' & Hsm' & Hsb' & Hsd').
  exists ds. rewrite Hsd', Hsb', Hsm'. split_and!; [done..|].
  eapply Forall2_impl; [done|]. intros e d (? & ? & Hmodel & Hbs).
  split_and!; [done..| |].
  - rewrite Hmodel. apply eq_sym, filter_listed_frame. intros m _. by rewrite Hm.
  - eapply Forall2_impl; [done|]. intros c b (? & _ & Hf). rewrite Hm. split; [done|].
    intros Hc. eapply served_frame; [by apply Hf|by rewrite Hm|..].
    + intros n v. by rewrite Hpr'.
    + intros n v. by rewrite Hcr'.
Qed.

(** X9. When [dict_to_datasets] returns, [self.datasets] holds one dataset
    per entry of the index, in the order of the entries: read from the
    entry's file, under the entry's name, and with a model container that
    holds those of [self.models] whose name the entry lists, in the order of
    [self.models].  A model name the entry lists and no model bears leaves
    no trace. *)
Theorem datasets_follow_index W index data σ σ' :
  dict_to_datasets W index data σ = (inr tt, σ') →
  Forall2 (λ e d,
      d_name d = de_name e
      ∧ (∃ dd, dataset_file W (de_filename e) = Some dd ∧ d_irfs d = dd_irfs dd)
      ∧ d_model d = filter (λ m, listed σ' (de_models e) m = true) (self_models σ'))
    (datasets_index index) (self_datasets σ').
Proof.
  intros H. apply dict_to_datasets_inv in H as (ds & -> & _ & Hall).
  eapply Forall2_impl; [done|]. intros e d (? & ? & ? & _). done.
Qed.

Lemma datasets_follow_index_witness :
  Forall2 (λ e d,
      d_name d = de_name e
      ∧ (∃ dd, dataset_file demo_world (de_filename e) = Some dd
               ∧ d_irfs d = dd_irfs dd)
      ∧ d_model d
        = filter (λ m,
            listed (dict_to_datasets demo_world demo_index observed_components
                      empty_state).2 (de_models e) m = true)
            (self_models (dict_to_datasets demo_world demo_index observed_components
                            empty_state).2))
    (datasets_index demo_index)
    (self_datasets (dict_to_datasets demo_world demo_index observed_components
                      empty_state).2).
Proof.
  apply (datasets_follow_index demo_world demo_index observed_components empty_state).
  vm_compute. reflexivity.
Defined.

(** X10. When [dict_to_datasets] returns, the background container of each
    dataset holds one model per ["BackgroundModel"] record whose name the
    dataset's entry lists, in the order of the records of the components
    dict, whatever the order of the entry's list; the model made for a
    record that names a file bears the record's name and holds the cube and
    the parameter collection the two registers keep under that name. *)
Theorem backgrounds_follow_records W index data σ σ' :
  dict_to_datasets W index data σ = (inr tt, σ') →
  Forall2 (λ e d,
      Forall2 (λ c b, b < length (mods σ')
                      ∧ (is_Some (c_filename c) → served σ' (c_name c) b))
        (filter (λ c, is_background_of (de_backgrounds e) c = true) (components data))
        (background_models d))
    (datasets_index index) (self_datasets σ').
Proof.
  intros H. apply dict_to_datasets_inv in H as (ds & -> & _ & Hall).
  eapply Forall2_impl; [done|]. intros e d (_ & _ & _ & ?). done.
Qed.

Lemma backgrounds_follow_records_witness :
  Forall2 (λ e d,
      Forall2 (λ c b,
          b < length (mods (dict_to_datasets demo_world demo_index observed_components
                              empty_state).2)
          ∧ (is_Some (c_filename c) →
             served (dict_to_datasets demo_world demo_index observed_components
                       empty_state).2 (c_name c) b))
        (filter (λ c, is_background_of (de_backgrounds e) c = true)
           (components observed_components))
        (background_models d))
    (datasets_index demo_index)
    (self_datasets (dict_to_datasets demo_world demo_index observed_components
                      empty_state).2).
Proof.
  apply (backgrounds_follow_records demo_world demo_index observed_components
           empty_state).
  vm_compute. reflexivity.
Defined.

(** X11. When [dict_to_datasets] returns, [self.backgrounds] lists every
    background model that some dataset holds, and each of them once. *)
Theorem self_backgrounds_once W index data σ σ' :
  dict_to_datasets W index data σ = (inr tt, σ') →
  NoDup (self_backgrounds σ')
  ∧ ∀ b, b ∈ self_backgrounds σ' ↔
         ∃ d, d ∈ self_datasets σ' ∧ b ∈ background_models d.
Proof.
  intros H. apply dict_to_datasets_inv in H as (ds & Hds & Hsb & _).
  destruct (foldl_append_new [] (concat (map background_models ds)) (NoDup_nil_2))
    as [Hnd Hin].
  rewrite Hsb, Hds. split; [done|].
  intros b. rewrite Hin, elem_of_nil, elem_of_concat_map. tauto.
Qed.

Lemma self_backgrounds_once_witness :
  NoDup (self_backgrounds
           (dict_to_datasets demo_world demo_index observed_components empty_state).2)
  ∧ ∀ b,
      b ∈ self_backgrounds
            (dict_to_datasets demo_world demo_index observed_components empty_state).2
      ↔ ∃ d,
          d ∈ self_datasets
                (dict_to_datasets demo_world demo_index observed_components
                   empty_state).2
          ∧ b ∈ background_models d.
Proof.
  apply (self_backgrounds_once demo_world demo_index observed_components empty_state).
  vm_compute. reflexivity.
Defined.

(** ** Resolving a background that has no file *)

Lemma traverse_model_name_inv ms σ prev σ' :
  traverse model_name ms σ = (inr prev, σ') →
  Forall2 (λ m n, ∃ o, mods σ !! m = Some o ∧ m_name o = Some n) ms prev.
Proof.
  revert prev. induction ms as [|m ms IH]; intros prev; simpl.
  - intros H. inv_prim H. constructor.
  - intros H. apply bind_inr in H as (n & σ1 & Hn & H).
    apply bind_inr in H as (ns & σ2 & Hns & H). inv_prim H.
    unfold model_name in Hn. apply bind_inr in Hn as (o & σ3 & Ho & Hn).
    inv_prim Ho. inv_prim Hn. constructor; [by exists o|]. by eapply IH.
Qed.



(** ** Writing datasets *)

Lemma datasets_to_dict_fold write path overwrite ds acc σ acc' σ' :
  (∀ d f o, reader (write d f o)) →
  foldM (datasets_to_dict_step write path overwrite) acc ds σ = (inr acc', σ') →
  σ' = σ
  ∧ acc'.1.1 = foldl append_new acc.1.1 (concat (map ds_models ds))
  ∧ acc'.1.2 = foldl append_new acc.1.2 (concat (map ds_backgrounds ds))
  ∧ ∃ es,
      acc'.2 = acc.2 ++ es
      ∧ Forall2 (λ d e,
            de_name e = ds_name d
            ∧ de_filename e = ((path +:+ "data_") +:+ ds_name d) +:+ ".fits"
            ∧ ds_model d ≠ MdlNone
            ∧ Forall2 (λ b n, (mods σ !! b ≫= m_name) = Some n)
                (ds_backgrounds d) (de_backgrounds e)
            ∧ Forall2 (λ m n, (mods σ !! m ≫= m_name) = Some n)
                (ds_models d) (de_models e)) ds es.
Proof.
  intros Hw. revert acc σ. induction ds as [|d ds IH]; intros acc σ; simpl.
  - intros H. inv_prim H. split_and!; try done. exists []. by rewrite app_nil_r.
  - intros H. apply bind_inr in H as (acc1 & σ1 & Hstep & H).
    destruct acc as [[ml bl] el]. unfold datasets_to_dict_step in Hstep.
    apply bind_inr in Hstep as ([] & σ2 & Hwrite & Hstep).
    apply (reader_inr _ _ _ _ (Hw _ _ _)) in Hwrite as ->.
    apply bind_inr in Hstep as (bn & σ3 & Hbn & Hstep).
    apply bind_inr in Hstep as (mn & σ4 & Hmn & Hstep). inv_prim Hstep.
    assert (∀ l ns σa σb, traverse model_name l σa = (inr ns, σb) →
              σb = σa ∧ Forall2 (λ m n, (mods σa !! m ≫= m_name) = Some n) l ns) as Hnames.
    { intros l ns σa σb Hl. split.
      - eapply reader_inr; [|done]. apply reader_traverse. intros m.
        apply reader_bind; [apply reader_get_mod|]. intros. apply reader_lift_option.
      - apply traverse_model_name_inv in Hl. eapply Forall2_impl; [done|].
        intros m n (o & -> & Hn). done. }
    apply Hnames in Hbn as [-> Hbn].
    assert (σ4 = σ ∧ ds_model d ≠ MdlNone
            ∧ Forall2 (λ m n, (mods σ !! m ≫= m_name) = Some n) (ds_models d) mn)
      as (-> & Hsome & Hmn').
    { unfold ds_models. destruct (ds_model d); [| |done];
        apply Hnames in Hmn as [-> Hmn]; done. }
    apply IH in H as (-> & Hml & Hbl & es & Hes & Hall). simpl in *.
    split_and!; [done| | |].
    + rewrite Hml, foldl_app. done.
    + rewrite Hbl, foldl_app. done.
    + eexists (_ :: es). split; [by rewrite Hes, <- app_assoc|].
      constructor; [|done]. simpl. split_and!; done.
Qed.

Lemma datasets_to_dict_inv write datasets path selection overwrite σ index data σ' :
  (∀ d f o, reader (write d f o)) →
  datasets_to_dict write datasets path selection overwrite σ = (inr (index, data), σ') →
  Forall2 (λ d e,
      de_name e = ds_name d
      ∧ de_filename e = ((path +:+ "data_") +:+ ds_name d) +:+ ".fits"
      ∧ ds_model d ≠ MdlNone
      ∧ Forall2 (λ b n, (mods σ !! b ≫= m_name) = Some n)
          (ds_backgrounds d) (de_backgrounds e)
      ∧ Forall2 (λ m n, (mods σ !! m ≫= m_name) = Some n)
          (ds_models d) (de_models e)) datasets (datasets_index index)
  ∧ models_to_dict
      (foldl append_new [] (concat (map ds_models datasets))
       ++ foldl append_new [] (concat (map ds_backgrounds datasets))) selection σ
    = (inr data, σ').
Proof.
  intros Hw H. unfold datasets_to_dict in H.
  apply bind_inr in H as ([[ml bl] el] & σ1 & Hfold & H).
  apply bind_inr in H as (comps & σ2 & Hcomps & H).
  apply ret_inr in H as [[= -> ->] ->].
  apply datasets_to_dict_fold in Hfold as (-> & Hml & Hbl & es & Hes & Hall); [|done].
  simpl in *. subst. done.
Qed.

(** X13. When [datasets_to_dict] returns, provided the datasets' [write]
    leaves the store alone, the index it returns has one entry per dataset,
    in order: under the dataset's name, with the file name made of the
    path, ["data_"], the name and [".fits"], and with the names of the
    dataset's background models and of its models, in their order.  Every
    dataset had a model: one without makes the call fail. *)
Theorem datasets_to_dict_index write datasets path selection overwrite σ index data σ' :
  (∀ d f o, reader (write d f o)) →
  datasets_to_dict write datasets path selection overwrite σ = (inr (index, data), σ') →
  Forall2 (λ d e,
      de_name e = ds_name d
      ∧ de_filename e = ((path +:+ "data_") +:+ ds_name d) +:+ ".fits"
      ∧ ds_model d ≠ MdlNone
      ∧ Forall2 (λ b n, (mods σ !! b ≫= m_name) = Some n)
          (ds_backgrounds d) (de_backgrounds e)
      ∧ Forall2 (λ m n, (mods σ !! m ≫= m_name) = Some n)
          (ds_models d) (de_models e)) datasets (datasets_index index).
Proof. intros Hw H. by apply datasets_to_dict_inv in H as [H _]. Qed.

(** X14. The components dict [datasets_to_dict] returns is what
    [models_to_dict] makes of one list: the models of all datasets, then
    their background models, each object once, in the order of first
    appearance.  A model that several datasets hold is therefore handed over
    once, and none of its parameters counts as shared on that account. *)
Theorem datasets_to_dict_components write datasets path selection overwrite σ index data
    σ' :
  (∀ d f o, reader (write d f o)) →
  datasets_to_dict write datasets path selection overwrite σ = (inr (index, data), σ') →
  ∃ models backgrounds,
    NoDup models ∧ NoDup backgrounds
    ∧ (∀ m, m ∈ models ↔ ∃ d, d ∈ datasets ∧ m ∈ ds_models d)
    ∧ (∀ b, b ∈ backgrounds ↔ ∃ d, d ∈ datasets ∧ b ∈ ds_backgrounds d)
    ∧ models_to_dict (models ++ backgrounds) selection σ = (inr data, σ').
Proof.
  intros Hw H. apply datasets_to_dict_inv in H as [_ H]; [|done].
  destruct (foldl_append_new [] (concat (map ds_models datasets)) (NoDup_nil_2))
    as [Hnd1 Hin1].
  destruct (foldl_append_new [] (concat (map ds_backgrounds datasets)) (NoDup_nil_2))
    as [Hnd2 Hin2].
  eexists _, _. split_and!; [exact Hnd1|exact Hnd2| | |exact H].
  - intros m. rewrite Hin1, elem_of_nil, elem_of_concat_map. tauto.
  - intros b. rewrite Hin2, elem_of_nil, elem_of_concat_map. tauto.
Qed.

Lemma datasets_to_dict_index_witness :
  Forall2 (λ d e,
      de_name e = ds_name d
      ∧ de_filename e = (("out/" +:+ "data_") +:+ ds_name d) +:+ ".fits"
      ∧ ds_model d ≠ MdlNone
      ∧ Forall2 (λ b n, (mods demo_store !! b ≫= m_name) = Some n)
          (ds_backgrounds d) (de_backgrounds e)
      ∧ Forall2 (λ m n, (mods demo_store !! m ≫= m_name) = Some n)
          (ds_models d) (de_models e)) demo_datasets
    (datasets_index
       (returned ({| datasets_index := [] |}, no_components)
          (datasets_to_dict plain_write demo_datasets "out/" "all" true) demo_store).1).
Proof.
  apply (datasets_to_dict_index plain_write demo_datasets "out/" "all" true demo_store
           _ (returned ({| datasets_index := [] |}, no_components)
                (datasets_to_dict plain_write demo_datasets "out/" "all" true)
                demo_store).2
           (datasets_to_dict plain_write demo_datasets "out/" "all" true demo_store).2).
  - intros d f o σ. reflexivity.
  - vm_compute. reflexivity.
Defined.

Lemma datasets_to_dict_components_witness :
  ∃ models backgrounds,
    NoDup models ∧ NoDup backgrounds
    ∧ (∀ m, m ∈ models ↔ ∃ d, d ∈ demo_datasets ∧ m ∈ ds_models d)
    ∧ (∀ b, b ∈ backgrounds ↔ ∃ d, d ∈ demo_datasets ∧ b ∈ ds_backgrounds d)
    ∧ models_to_dict (models ++ backgrounds) "all" demo_store
      = (inr (returned ({| datasets_index := [] |}, no_components)
                (datasets_to_dict plain_write demo_datasets "out/" "all" true)
                demo_store).2,
         (datasets_to_dict plain_write demo_datasets "out/" "all" true demo_store).2).
Proof.
  apply (datasets_to_dict_components plain_write demo_datasets "out/" "all" true
           demo_store
           (returned ({| datasets_index := [] |}, no_components)
              (datasets_to_dict plain_write demo_datasets "out/" "all" true)
              demo_store).1).
  - intros d f o σ. reflexivity.
  - vm_compute. reflexivity.
Defined.

(** On the two datasets of the session: the index names the files and
    lists the names; the first source, held by both datasets, is handed to
    [models_to_dict] once. *)
Example datasets_to_dict_run :
  ∃ data σ',
    datasets_to_dict plain_write demo_datasets "out/" "all" true demo_store
    = (inr ({| datasets_index :=
                 [ {| de_name := "obs1"; de_filename := "out/data_obs1.fits";
                      de_backgrounds := ["bkg"]; de_models := ["src1"; "src2"] |};
                   {| de_name := "obs2"; de_filename := "out/data_obs2.fits";
                      de_backgrounds := ["bkg-obs1"]; de_models := ["src1"] |} ] |},
            data), σ')
    ∧ map c_name (components data) = ["src1"; "src2"; "bkg"; "bkg-obs1"]
    ∧ foldl append_new [] (concat (map ds_models demo_datasets)) = [2; 5].
Proof. eexists _, _. split_and!; vm_compute; reflexivity. Qed.

(** ** A second linking pass *)

Lemma link_slots_unmarked o ps n i reg σ :
  cols σ !! m_parameters o = Some ps → i + n = length ps →
  (∀ a, a ∈ ps → ∃ p, pars σ !! a = Some p ∧ has_at (par_name p) = false) →
  link_slots o n i reg σ = (inr reg, σ).
Proof.
  intros Hps. revert i. induction n as [|n IH]; intros i Hlen Hall; simpl; [done|].
  assert (link_slot o i reg σ = (inr reg, σ)) as Hslot.
  { unfold link_slot. rewrite (bind_run _ _ _ _ _ (get_col_run _ _ _ Hps)).
    destruct (lookup_lt_is_Some_2 ps i) as [a Ha]; [lia|]. rewrite Ha. simpl.
    rewrite (bind_run (ret a) _ σ a σ) by done.
    destruct (Hall a) as (p & Hp & Hat); [by eapply list_elem_of_lookup_2|].
    rewrite (bind_run _ _ _ _ _ (get_par_run _ _ _ Hp)). by rewrite Hat. }
  rewrite (bind_run _ _ _ _ _ Hslot). apply IH; [lia|done].
Qed.

Lemma link_unmarked ms σ :
  (∀ m, m ∈ ms →
     ∃ o ps, mods σ !! m = Some o ∧ cols σ !! m_parameters o = Some ps
             ∧ ∀ a, a ∈ ps → ∃ p, pars σ !! a = Some p ∧ has_at (par_name p) = false) →
  _link_shared_parameters ms σ = (inr tt, σ).
Proof.
  intros H. unfold _link_shared_parameters.
  assert (foldM link_model ∅ ms σ = (inr ∅, σ)) as Hrun.
  { induction ms as [|m ms IH]; simpl; [done|].
    destruct (H m) as (o & ps & Ho & Hps & Hall); [by left|].
    assert (link_model ∅ m σ = (inr ∅, σ)) as Hm.
    { unfold link_model. rewrite (bind_run _ _ _ _ _ (get_mod_run _ _ _ Ho)).
      rewrite (bind_run _ _ _ _ _ (get_col_run _ _ _ Hps)).
      by eapply link_slots_unmarked. }
    rewrite (bind_run _ _ _ _ _ Hm). apply IH. intros m' Hm'. apply H. by right. }
  by rewrite (bind_run _ _ _ _ _ Hrun).
Qed.

(** X15. Linking is idempotent: on the models [dict_to_models] returned
    after linking, a further [_link_shared_parameters] returns and changes
    nothing, since no marked name is left for it to act on. *)
Theorem linking_idempotent W data σ ms σ' :
  dict_to_models W data true σ = (inr ms, σ') →
  _link_shared_parameters ms σ' = (inr tt, σ').
Proof.
  intros H. apply link_unmarked. intros m Hm. by eapply linked_model_unmarked.
Qed.

Lemma linking_idempotent_witness :
  _link_shared_parameters [2; 5]
    (dict_to_models demo_world marked_components true empty_state).2
  = (inr tt, (dict_to_models demo_world marked_components true empty_state).2).
Proof.
  apply (linking_idempotent demo_world marked_components empty_state [2; 5] _).
  vm_compute. reflexivity.
Defined.

(** ** The markers of shared parameters *)

(** X16. [_rename_shared_parameters] gives every parameter object that
    stands at two places of the models' parameter lists a marked name, and
    no two of them the same one, provided no name had an at-sign before:
    the marker tells the shared objects apart. *)
Theorem shared_markers_distinct models σ σ' a b pa pb :
  _rename_shared_parameters models σ = (inr tt, σ') →
  at_free σ models = true →
  twice a (all_params σ models) → twice b (all_params σ models) → a ≠ b →
  pars σ' !! a = Some pa → pars σ' !! b = Some pb →
  has_at (par_name pa) = true ∧ has_at (par_name pb) = true
  ∧ par_name pa ≠ par_name pb.
Proof.
  intros H Hfree Ha Hb Hab Hpa Hpb.
  apply _rename_shared_parameters_spec in H as [_ Hspec]. simpl in Hspec.
  set (shared := (scan_shared (all_params σ models) [] []).2) in *.
  assert (∀ x px, twice x (all_params σ models) → pars σ' !! x = Some px →
            ∃ i p, shared !! i = Some x ∧ pars σ !! x = Some p
                   ∧ has_at (par_name p) = false
                   ∧ par_name px = shared_name i (par_name p)) as Hone.
  { intros x px Hx Hpx.
    assert (x ∈ shared) as Hin by (apply scan_shared_shared; auto).
    destruct (list_index_elem _ _ Hin) as [i Hi].
    rewrite Hspec, Hi in Hpx.
    destruct (pars σ !! x) as [p|] eqn:Hp; [|done]. simpl in Hpx. injection Hpx as <-.
    apply list_index_Some in Hi as [Hi _].
    exists i, p. split_and!; [done|done| |done].
    eapply at_free_spec; [done| |done]. by apply twice_elem. }
  destruct (Hone a pa Ha Hpa) as (i & p & Hi & Hp & Hat & ->).
  destruct (Hone b pb Hb Hpb) as (j & q & Hj & Hq & Hat' & ->).
  rewrite !has_at_shared_name. split_and!; [done..|].
  intros Heq.
  assert (par_name p = par_name q) as Hn.
  { apply (f_equal strip_at) in Heq. rewrite !strip_at_shared_name in Heq.
    by rewrite !strip_at_no_at in Heq. }
  unfold shared_name in Heq. rewrite Hn in Heq.
  apply (inj (String.app _)) in Heq. apply (inj (String.app _)) in Heq.
  apply (inj pretty) in Heq. subst j. rewrite Hi in Hj. by injection Hj.
Qed.

Lemma shared_markers_distinct_witness :
  has_at (par_name (rename (shared_name 1 "lon_0") (par "lon_0" 0 "deg"))) = true
  ∧ has_at (par_name (rename (shared_name 2 "lat_0") (par "lat_0" 0 "deg"))) = true
  ∧ par_name (rename (shared_name 1 "lon_0") (par "lon_0" 0 "deg"))
    ≠ par_name (rename (shared_name 2 "lat_0") (par "lat_0" 0 "deg")).
Proof.
  apply (shared_markers_distinct [2; 5; 2] demo_store
           (_rename_shared_parameters [2; 5; 2] demo_store).2 0 1).
  - vm_compute. reflexivity.
  - vm_compute. reflexivity.
  - exists 0, 10. split_and!; [lia|reflexivity|reflexivity].
  - exists 1, 11. split_and!; [lia|reflexivity|reflexivity].
  - lia.
  - vm_compute. reflexivity.
  - vm_compute. reflexivity.
Defined.

(** ** A model listed twice *)

(** X17. A composite model that stands at two places of the list handed
    to [models_to_dict], and whose own collection lists the parameters of
    its spatial part followed by those of its spectral part (as the
    constructor of [SkyModel] builds it), has all its parameters counted as
    shared: every parameter entry of its record, spatial and spectral,
    bears a marked name. *)
Theorem repeated_model_marked models selection σ out σ' i j m L rec :
  models_to_dict models selection σ = (inr out, σ') →
  models !! i = Some m → models !! j = Some m → i ≠ j →
  layout_of σ m = Some L →
  record_of models selection σ m = inr rec →
  Forall (λ pd, has_at (pd_name pd) = true) (record_parameters rec).
Proof.
  intros H Hi Hj Hij HL Hrec.
  pose proof (renamed_run _ _ _ _ _ H) as Hren.
  pose proof Hren as Hspec.
  apply _rename_shared_parameters_spec in Hspec as [Hframe _].
  apply layout_of_spec in HL.
  pose proof (sky_layout_params_of _ _ _ HL) as Hparams.
  pose proof (sky_layout_frame _ _ _ _ Hframe HL) as HL'.
  unfold record_of in Hrec. apply run_fst in Hrec as [σ2 Hrec].
  destruct (_model_to_dict_sky _ _ _ _ _ _ HL' Hrec)
    as (o & so & eo & s & e & sp & se & _ & _ & _ & _ & _ & _ & Hsp & Hse & _ & _ & _
        & Hps & Hpe).
  unfold record_parameters. rewrite Hsp, Hse. simpl.
  assert (∀ a p, a ∈ l_ps L ++ l_pe L → pars (renamed models σ) !! a = Some p →
            has_at (par_name p) = true) as Hmarked.
  { intros a p Ha Hp. apply list_elem_of_lookup in Ha as [k Hk].
    rewrite <- Hparams in Hk.
    assert (has_at (name_in (renamed models σ) a) = true) as Hat.
    { eapply (shared_after_rename models σ _ i j m m k k a); try done.
      intros [= ?]. done. }
    unfold name_in in Hat. by rewrite Hp in Hat. }
  apply Forall_app. split.
  - eapply (encodes_names _ _ _ (λ n, has_at n = true)); [done|].
    intros a p Ha. apply Hmarked. apply elem_of_app. by left.
  - eapply (encodes_names _ _ _ (λ n, has_at n = true)); [done|].
    intros a p Ha. apply Hmarked. apply elem_of_app. by right.
Qed.

Lemma repeated_model_marked_witness :
  Forall (λ pd, has_at (pd_name pd) = true)
    (record_parameters
       (match record_of [2; 2] "all" demo_store 2 with
        | inr rec => rec
        | inl _ => bkg_record
        end)).
Proof.
  apply (repeated_model_marked [2; 2] "all" demo_store
           (returned no_components (models_to_dict [2; 2] "all") demo_store)
           (models_to_dict [2; 2] "all" demo_store).2 0 1 2
           {| l_top := 2; l_spatial := 0; l_spectral := 1;
              l_ps := [0; 1]; l_pe := [2; 3; 4] |}).
  - vm_compute. reflexivity.
  - reflexivity.
  - reflexivity.
  - lia.
  - vm_compute. reflexivity.
  - vm_compute. reflexivity.
Defined.

(** On the first source of the session, listed twice: one record, with the
    five names marked in the order the parameters were seen again. *)
Example repeated_model_run :
  ∃ rec σ',
    models_to_dict [2; 2] "all" demo_store = (inr {| components := [rec] |}, σ')
    ∧ map pd_name (record_parameters rec)
      = ["lon_0@shared_0"; "lat_0@shared_1"; "index@shared_2";
         "amplitude@shared_3"; "reference@shared_4"]
    ∧ names σ' = names demo_store.
Proof. eexists _, _. split_and!; vm_compute; reflexivity. Qed.

(** ** The records of the components dict *)

(** X18. When [models_to_dict] returns, the list under ["components"]
    consists of the records of the listed models and of nothing else, and no
    entry of it compares equal, under [==], to a later one. *)
Theorem models_to_dict_records models selection σ out σ' :
  models_to_dict models selection σ = (inr out, σ') →
  distinct_records (components out)
  ∧ ∀ r, r ∈ components out ↔
         ∃ m, m ∈ models ∧ record_of models selection σ m = inr r.
Proof.
  intros H. apply models_to_dict_inv in H as (recs & _ & Hrecs & -> & _). split.
  - apply foldl_add_record_distinct. intros i j ri rj _ Hi. by rewrite lookup_nil in Hi.
  - intros r. rewrite foldl_add_record_elem, elem_of_nil. split.
    + intros [[]|Hr]. apply list_elem_of_lookup in Hr as [k Hk].
      destruct (Forall2_lookup_r _ _ _ _ _ Hrecs Hk) as (m & Hm & Hrun).
      exists m. split; [by eapply list_elem_of_lookup_2|].
      unfold record_of. by rewrite Hrun.
    + intros (m & Hm & Hr). right. apply list_elem_of_lookup in Hm as [k Hk].
      destruct (Forall2_lookup_l _ _ _ _ _ Hrecs Hk) as (r' & Hr' & Hrun).
      unfold record_of in Hr. rewrite Hrun in Hr. injection Hr as <-.
      by eapply list_elem_of_lookup_2.
Qed.

Lemma models_to_dict_records_witness :
  distinct_records
    (components (returned no_components (models_to_dict [2; 5; 6; 7] "all") demo_store))
  ∧ ∀ r, r ∈ components (returned no_components (models_to_dict [2; 5; 6; 7] "all")
                           demo_store) ↔
         ∃ m, m ∈ [2; 5; 6; 7] ∧ record_of [2; 5; 6; 7] "all" demo_store m = inr r.
Proof.
  apply (models_to_dict_records [2; 5; 6; 7] "all" demo_store _
           (models_to_dict [2; 5; 6; 7] "all" demo_store).2).
  vm_compute. reflexivity.
Defined.

(** ** Reading without linking *)

(** X19. When [dict_to_models] returns without linking, each returned
    model's parameters are, in order, the entries of its record, spatial
    then spectral: each a parameter object with the entry's name (marker
    included), value and unit, frozen as the entry says and free when the
    entry does not say. *)
Theorem unlinked_models_as_written W data σ ms σ' :
  dict_to_models W data false σ = (inr ms, σ') →
  Forall2 (λ c m,
      Forall2 (λ a pd, pars σ' !! a = Some (new_parameter pd))
        (params_of σ' m) (record_parameters c))
    (filter is_sky (components data)) ms.
Proof.
  unfold dict_to_models. intros H.
  apply bind_inr in H as (ms' & σ1 & Hloop & H).
  apply bind_inr in H as ([] & σ2 & Hlink & H). inv_prim Hlink.
  apply ret_inr in H as [-> ->].
  apply dict_to_models_loop_layouts in Hloop as (mLs & -> & Hall & _).
  apply Forall2_fmap_r. eapply Forall2_impl; [done|].
  intros c [m L] Hb. simpl in *.
  pose proof (built_sky_layout _ _ _ _ Hb) as Hsky.
  rewrite (sky_layout_params_of _ _ _ Hsky).
  by apply (built_record_parameters _ _ _ _ Hb).
Qed.

Lemma unlinked_models_as_written_witness :
  Forall2 (λ c m,
      Forall2 (λ a pd,
          pars (dict_to_models demo_world marked_components false empty_state).2 !! a
          = Some (new_parameter pd))
        (params_of (dict_to_models demo_world marked_components false empty_state).2 m)
        (record_parameters c))
    (filter is_sky (components marked_components)) [2; 5].
Proof.
  apply (unlinked_models_as_written demo_world marked_components empty_state [2; 5] _).
  vm_compute. reflexivity.
Defined.

(** ** The full cycle, with shared parameters *)

Lemma renamed_param models σ σr x px :
  _rename_shared_parameters models σ = (inr tt, σr) →
  at_free σ models = true →
  x ∈ all_params σ models → pars σr !! x = Some px →
  ∃ x0, pars σ !! x = Some x0 ∧ has_at (par_name x0) = false
        ∧ stripped px = x0
        ∧ ((has_at (par_name px) = false ∧ px = x0)
           ∨ ∃ k, (scan_shared (all_params σ models) [] []).2 !! k = Some x
                  ∧ px = rename (shared_name k (par_name x0)) x0).
Proof.
  intros H Hfree Hx Hpx.
  apply _rename_shared_parameters_spec in H as [_ Hspec]. simpl in Hspec.
  rewrite Hspec in Hpx.
  destruct (pars σ !! x) as [x0|] eqn:Hx0; [|by destruct (list_index _ _)].
  assert (has_at (par_name x0) = false) as Hat by by eapply at_free_spec.
  exists x0. split; [done|]. split; [done|].
  destruct (list_index x _) as [k|] eqn:Hk; simpl in Hpx; injection Hpx as <-.
  - split.
    + unfold stripped. simpl. rewrite strip_at_shared_name, strip_at_no_at by done.
      by destruct x0.
    + right. exists k. split; [|done]. by apply list_index_Some in Hk as [? _].
  - split; [|by left]. unfold stripped. rewrite strip_at_no_at by done. apply rename_self.
Qed.

Lemma marked_name_inj models σ σr x y px py :
  _rename_shared_parameters models σ = (inr tt, σr) →
  at_free σ models = true →
  x ∈ all_params σ models → y ∈ all_params σ models →
  pars σr !! x = Some px → pars σr !! y = Some py →
  has_at (par_name px) = true → par_name px = par_name py →
  x = y.
Proof.
  intros H Hfree Hx Hy Hpx Hpy Hat Heq.
  destruct (renamed_param _ _ _ _ _ H Hfree Hx Hpx)
    as (x0 & _ & Hx0 & _ & [[Hno _]|(k & Hk & ->)]); [congruence|].
  destruct (renamed_param _ _ _ _ _ H Hfree Hy Hpy)
    as (y0 & _ & Hy0 & _ & [[Hno _]|(k' & Hk' & ->)]); [congruence|].
  simpl in Heq.
  assert (par_name x0 = par_name y0) as Hn.
  { apply (f_equal strip_at) in Heq. rewrite !strip_at_shared_name in Heq.
    by rewrite !strip_at_no_at in Heq. }
  unfold shared_name in Heq. rewrite Hn in Heq.
  apply (inj (String.app _)) in Heq. apply (inj (String.app _)) in Heq.
  apply (inj pretty) in Heq. subst k'. rewrite Hk in Hk'. by injection Hk'.
Qed.

Lemma record_source models sel σ out σ1 c :
  models_to_dict models sel σ = (inr out, σ1) →
  c ∈ components out →
  ∃ m, m ∈ models
       ∧ _model_to_dict m sel (renamed models σ) = (inr c, renamed models σ).
Proof.
  intros H Hc. apply models_to_dict_inv in H as (recs & _ & Hrecs & Hout & _).
  rewrite Hout in Hc. apply foldl_add_record_elem in Hc as [Hc|Hc]; [by apply elem_of_nil in Hc|].
  apply list_elem_of_lookup in Hc as [k Hk].
  destruct (Forall2_lookup_r _ _ _ _ _ Hrecs Hk) as (m & Hm & Hrun).
  exists m. split; [by eapply list_elem_of_lookup_2|done].
Qed.

(** X20. The full cycle keeps shared parameters whole.  For a list of
    composite models, each with its own collection listing the parameters
    of its spatial part followed by those of its spectral part (as the
    constructor of [SkyModel] builds it), in which no parameter name has an
    at-sign, whenever
    serialising and reading back with linking return normally, each
    parameter slot of each model, shared or not, is read back holding a
    parameter object with the name, value, unit and frozen flag the
    original object has. *)
Theorem roundtrip_with_sharing W models sel σ out ms' i m L a p :
  (cycle W models sel σ).1 = inr (out, ms') →
  Forall (λ m, is_Some (layout_of σ m)) models →
  at_free σ models = true →
  models !! i = Some m → layout_of σ m = Some L →
  params_of σ m !! a = Some p →
  ∃ rec r q,
    record_of models sel σ m = inr rec
    ∧ reconstructed out ms' rec = Some r
    ∧ params_of (cycle W models sel σ).2 r !! a = Some q
    ∧ is_Some (pars σ !! p)
    ∧ pars (cycle W models sel σ).2 !! q = pars σ !! p.
Proof.
  intros Hcycle Hsky Hfree Hi HL Ha.
  apply cycle_inv in Hcycle as (σ1 & Hser & Hread).
  set (σ2 := (cycle W models sel σ).2) in *. clearbody σ2.
  pose proof (renamed_run _ _ _ _ _ Hser) as Hren.
  set (σr := renamed models σ) in *.
  pose proof Hren as Hfr. apply _rename_shared_parameters_spec in Hfr as [Hfr _].
  (* a composite model of the list, its record and the entries' objects *)
  assert (∀ m' c, m' ∈ models → _model_to_dict m' sel σr = (inr c, σr) →
            is_sky c
            ∧ Forall2 (encodes σr) (params_of σ m') (record_parameters c)) as Hrecord.
  { intros m' c Hm' Hc.
    apply (proj1 (Forall_forall _ _) Hsky) in Hm' as [L' HL'].
    apply layout_of_spec in HL'.
    pose proof (sky_layout_params_of _ _ _ HL') as ->.
    pose proof (sky_layout_frame _ _ _ _ Hfr HL') as HLr.
    destruct (_model_to_dict_sky _ _ _ _ _ _ HLr Hc)
      as (o & so & eo & s & e & sp & se & _ & _ & _ & _ & _ & Hcm & Hcsp & Hcse
          & _ & _ & _ & Hesp & Hese).
    split; [done|]. unfold record_parameters. rewrite Hcsp, Hcse. simpl.
    by apply Forall2_app. }
  assert (m ∈ models) as Hm by by eapply list_elem_of_lookup_2.
  destruct (record_in_output _ _ _ _ _ _ _ Hser Hi) as (rec & Hrec & Hrecof & Hin).
  destruct (Hrecord m rec Hm Hrec) as (Hcm & Henc).
  destruct (Forall2_lookup_l _ _ _ _ _ Henc Ha) as (pd & Hpd & (pr & Hpr & ->)).
  assert (p ∈ all_params σ models) as Hpall.
  { eapply all_params_elem; [done|]. by eapply list_elem_of_lookup_2. }
  destruct (renamed_param _ _ _ _ _ Hren Hfree Hpall Hpr)
    as (p0 & Hp0 & Hat0 & Hstrip & Hcase).
  (* the model read back and the object made for the entry *)
  apply dict_to_models_link in Hread as (σl & mLs & reg & -> & Hall & Hsep & Hinv).
  destruct (reconstructed_spec _ _ _ _ Hall Hin Hcm) as (r & L' & Hr & HrL & Hb).
  pose proof (built_record_parameters _ _ _ _ Hb) as Hbtop.
  destruct (Forall2_lookup_r _ _ _ _ _ Hbtop Hpd) as (a' & Ha' & Hpa').
  rewrite new_parameter_encode in Hpa'.
  assert (L' ∈ mLs.*2) as HL'.
  { apply list_elem_of_fmap. by exists (r, L'). }
  assert (a' ∈ layouts_params mLs.*2) as Hflat.
  { eapply layout_params_in; [done|]. by eapply list_elem_of_lookup_2. }
  pose proof (built_sky_layout _ _ _ _ Hb) as (o' & Ho' & Hcomp).
  destruct Hcomp as (sp' & so' & se' & eo' & _ & Htop & _).
  destruct (separate_layout _ _ _ _ Hsep HL') as (Hct & _).
  assert (l_top L' ∈ layout_cols L') as Hcin by (unfold layout_cols; set_solver).
  assert (params_of σ2 r !! a
          = Some (final_in (name_in σl) (layouts_params mLs.*2) a')) as Hslot.
  { unfold params_of. rewrite (inv_mods _ _ _ _ _ Hinv), Ho', Htop.
    rewrite (linked_cols _ _ _ _ _ L' _ _ Hinv HL' Hcin Hct). simpl.
    by rewrite list_lookup_fmap, Ha'. }
  assert (name_in σl a' = par_name pr) as Hnm.
  { unfold name_in. by rewrite Hpa'. }
  destruct (has_at (par_name pr)) eqn:Hat.
  2:{ (* no marker: the slot keeps the object made for the entry *)
      destruct (link_inv_unlinked _ _ _ _ _ a' Hinv) as [Hp2 Hfin]; [by rewrite Hnm|].
      exists rec, r, a'. rewrite Hslot, Hfin, Hp2, Hpa', Hp0. split_and!; try done.
      destruct Hcase as [[_ ->]|(k & _ & ->)]; [done|].
      simpl in Hat. by rewrite has_at_shared_name in Hat. }
  (* a marker: the slot holds the first bearer of the marked name *)
  destruct (final_in_shared (name_in σl) _ a' _ Hflat Hnm Hat)
    as (q & Hq & Hfin & Hqflat).
  pose proof (first_named_Some _ _ _ _ Hq) as [_ Hnq].
  exists rec, r, q. rewrite Hslot, Hfin, Hp0. split_and!; try done.
  assert (pars σl !! q = Some pr) as Hpq.
  { apply elem_of_concat_map in Hqflat as (Lq & HLq & Hqin).
    apply list_elem_of_fmap in HLq as ([rq Lq'] & -> & HrLq). simpl in Hqin.
    apply list_elem_of_lookup in HrLq as [k Hk].
    destruct (Forall2_lookup_r _ _ _ _ _ Hall Hk) as (cq & Hcq & Hbq). simpl in Hbq.
    apply list_elem_of_lookup_2, list_elem_of_filter in Hcq as [_ Hcq].
    destruct (record_source _ _ _ _ _ _ Hser Hcq) as (mq & Hmq & Hrq).
    destruct (Hrecord mq cq Hmq Hrq) as (_ & Hencq).
    pose proof (built_record_parameters _ _ _ _ Hbq) as Hbq'.
    apply list_elem_of_lookup in Hqin as [s Hs].
    destruct (Forall2_lookup_l _ _ _ _ _ Hbq' Hs) as (pdq & Hpdq & Hpq).
    destruct (Forall2_lookup_r _ _ _ _ _ Hencq Hpdq) as (pq & Hpq' & (prq & Hprq & ->)).
    rewrite new_parameter_encode in Hpq.
    assert (pq ∈ all_params σ models) as Hpqall.
    { eapply all_params_elem; [done|]. by eapply list_elem_of_lookup_2. }
    assert (par_name pr = par_name prq) as Hnames.
    { unfold name_in in Hnq. rewrite Hpq in Hnq. done. }
    assert (p = pq) as <-.
    { eapply (marked_name_inj models σ σr p pq pr prq); done. }
    rewrite Hpr in Hprq. injection Hprq as <-. done. }
  destruct Hinv as (_ & _ & HP & _). rewrite HP.
  rewrite decide_True.
  2:{ rewrite Hnq. done. }
  rewrite Hpq. simpl. by rewrite Hstrip.
Qed.

Lemma roundtrip_with_sharing_witness :
  ∃ rec r q,
    record_of [2; 5] "all" demo_store 5 = inr rec
    ∧ reconstructed
        (returned (no_components, []) (cycle demo_world [2; 5] "all") demo_store).1
        (returned (no_components, []) (cycle demo_world [2; 5] "all") demo_store).2
        rec = Some r
    ∧ params_of (cycle demo_world [2; 5] "all" demo_store).2 r !! 2 = Some q
    ∧ is_Some (pars demo_store !! 2)
    ∧ pars (cycle demo_world [2; 5] "all" demo_store).2 !! q = pars demo_store !! 2.
Proof.
  apply (roundtrip_with_sharing demo_world [2; 5] "all" demo_store _ _ 1 5
           {| l_top := 5; l_spatial := 3; l_spectral := 4;
              l_ps := [5; 6]; l_pe := [2; 7; 8] |} 2 2).
  - vm_compute. reflexivity.
  - repeat constructor; vm_compute; eexists; reflexivity.
  - vm_compute. reflexivity.
  - reflexivity.
  - vm_compute. reflexivity.
  - reflexivity.
Defined.

(** ** Names after serialisation *)

(** X21. When [models_to_dict] returns, no parameter of the listed models
    has an at-sign in its name any more, whatever the names were before:
    restoring cuts every name at its first at-sign. *)
Theorem no_marker_after_serialising models selection σ out σ' m a :
  models_to_dict models selection σ = (inr out, σ') →
  m ∈ models → a ∈ params_of σ' m →
  has_at (name_in σ' a) = false.
Proof.
  intros H Hm Ha. apply models_to_dict_inv in H as (_ & _ & _ & _ & Hres).
  apply _restore_shared_parameters_spec in Hres as [Hfr Hspec].
  assert (a ∈ all_params (renamed models σ) models) as Hall.
  { rewrite <- (pars_frame_all_params _ _ _ Hfr). by eapply all_params_elem. }
  unfold name_in. rewrite Hspec, decide_True by done.
  destruct (pars (renamed models σ) !! a) as [p|]; simpl; [|done].
  apply has_at_strip_at.
Qed.

Lemma no_marker_after_serialising_witness :
  has_at (name_in (models_to_dict [8] "all" demo_store).2 11) = false.
Proof.
  apply (no_marker_after_serialising [8] "all" demo_store
           (returned no_components (models_to_dict [8] "all") demo_store) _ 8 11).
  - vm_compute. reflexivity.
  - apply list_elem_of_singleton. reflexivity.
  - vm_compute. apply list_elem_of_singleton. reflexivity.
Defined.
